(** * ai-commit-summary: the file-summary reconciler

    A shallow embedding of [src/file-summary.ts] (with the helpers of
    [src/utils.ts] it relies on) and the properties of its specification.

    - JavaScript strings are sequences of UTF-16 code units: [jsstring] is
      [list N], and [length] is the [.length] of the source.
    - The regular expression [linkRegex] is a value of a small regex syntax,
      run by a backtracking matcher that tries alternatives left to right and
      extends a lazy star only when the rest of the pattern fails.
    - Remote calls (the completion service, the review-comment API) are
      effects of a state-and-exception monad whose state is the trace of the
      calls made so far; what the remote side answers is given by a [World]. *)

From Stdlib Require Import Ascii String.
From Stdlib Require Import List NArith ZArith Bool Arith Lia.
From Stdlib Require Import Floats.SpecFloat.
From Stdlib Require Import Wellfounded.
Import ListNotations.

Local Open Scope list_scope.

(** ** JavaScript strings *)

Definition jsstring : Type := list N.

(** The string written as a literal in the source. *)
Definition js (s : string) : jsstring :=
  map N_of_ascii (list_ascii_of_string s).

Definition ch (a : ascii) : N := N_of_ascii a.

Fixpoint str_eqb (a b : jsstring) : bool :=
  match a, b with
  | [], [] => true
  | x :: a', y :: b' => N.eqb x y && str_eqb a' b'
  | _, _ => false
  end.

(** [s.startsWith(p)] *)
Fixpoint startsWith (s p : jsstring) {struct p} : bool :=
  match p with
  | [] => true
  | y :: p' =>
      match s with
      | [] => false
      | x :: s' => N.eqb x y && startsWith s' p'
      end
  end.

(** [s.includes(p)] *)
Fixpoint includes (s p : jsstring) : bool :=
  startsWith s p ||
  match s with
  | [] => false
  | _ :: s' => includes s' p
  end.

(** [s.slice(0, n)] *)
Definition slice0 (n : nat) (s : jsstring) : jsstring := firstn n s.

(** [pieces.join(sep)] *)
Fixpoint join (sep : jsstring) (pieces : list jsstring) : jsstring :=
  match pieces with
  | [] => []
  | [p] => p
  | p :: rest => p ++ sep ++ join sep rest
  end.

(** [s.split(sep)] for a string separator: the occurrences of [sep] are
    found from left to right and do not overlap.  [skip] counts the
    characters of an occurrence that are still to be passed over. *)
Fixpoint split_from (sep : jsstring) (skip : nat) (s : jsstring)
  : list jsstring :=
  match s with
  | [] => [[]]
  | c :: t =>
      match skip with
      | S k => split_from sep k t
      | O =>
          if startsWith s sep
          then [] :: split_from sep (length sep - 1) t
          else match split_from sep 0 t with
               | h :: r => (c :: h) :: r
               | [] => [[c]]
               end
      end
  end.

Definition split (sep s : jsstring) : list jsstring :=
  match sep with
  | [] => map (fun c => [c]) s
  | _ :: _ => split_from sep 0 s
  end.

(** [a.slice(1)] on an array *)
Definition slice1 {A : Type} (a : list A) : list A := tl a.

(** ** Regular expressions *)

Inductive regex : Type :=
| Eps
| Chr (c : N)
| Cls (p : N -> bool)
| Cat (r1 r2 : regex)
| Alt (r1 r2 : regex)
| Rep (n : nat) (r : regex)
| LazyStar (p : N -> bool)
| Group (r : regex).

(** The backtracking matcher, in continuation-passing style: [k] is the rest
    of the pattern; it receives what is left of the input and the capture of
    group 1.  A [None] from [k] makes the matcher try its next choice. *)
Fixpoint rmatch {A : Type} (r : regex) (s : jsstring) (cap : option jsstring)
  (k : jsstring -> option jsstring -> option A) {struct r} : option A :=
  match r with
  | Eps => k s cap
  | Chr c =>
      match s with
      | x :: s' => if N.eqb x c then k s' cap else None
      | [] => None
      end
  | Cls p =>
      match s with
      | x :: s' => if p x then k s' cap else None
      | [] => None
      end
  | Cat r1 r2 => rmatch r1 s cap (fun s1 cap1 => rmatch r2 s1 cap1 k)
  | Alt r1 r2 =>
      match rmatch r1 s cap k with
      | Some a => Some a
      | None => rmatch r2 s cap k
      end
  | Rep n r1 =>
      (fix rep (n : nat) (s : jsstring) (cap : option jsstring) : option A :=
         match n with
         | O => k s cap
         | S n' => rmatch r1 s cap (fun s1 cap1 => rep n' s1 cap1)
         end) n s cap
  | LazyStar p =>
      (fix star (s : jsstring) : option A :=
         match k s cap with
         | Some a => Some a
         | None =>
             match s with
             | x :: s' => if p x then star s' else None
             | [] => None
             end
         end) s
  | Group r1 =>
      rmatch r1 s cap
        (fun s1 _ => k s1 (Some (firstn (length s - length s1) s)))
  end.

(** The pattern anchored at the start of [s]: the rest of the input and
    the capture. *)
Definition match_here (r : regex) (s : jsstring)
  : option (jsstring * option jsstring) :=
  rmatch r s None (fun s' cap => Some (s', cap)).

(** [s.match(r)] for a regex without the global flag: the leftmost match,
    as the pair of [match[0]] and [match[1]]. *)
Fixpoint regex_match (r : regex) (s : jsstring)
  : option (jsstring * option jsstring) :=
  match match_here r s with
  | Some (s', cap) => Some (firstn (length s - length s') s, cap)
  | None =>
      match s with
      | [] => None
      | _ :: t => regex_match r t
      end
  end.

(** A run of literal characters. *)
Definition lit (s : string) : regex :=
  fold_right (fun c r => Cat (Chr c) r) Eps (js s).

(** [[a-f0-9]] *)
Definition hexLower (c : N) : bool :=
  (N.leb 97 c && N.leb c 102) || (N.leb 48 c && N.leb c 57).

(** [.] matches everything but the line terminators LF, CR, LS and PS. *)
Definition lineTerminator (c : N) : bool :=
  N.eqb c 10 || N.eqb c 13 || N.eqb c 8232 || N.eqb c 8233.

Definition dot (c : N) : bool := negb (lineTerminator c).

(** [/\[(?:[a-f0-9]{6}|None)]\(https:\/\/github\.com\/.*?#([a-f0-9]{40}|None)\)/] *)
Definition linkRegex : regex :=
  Cat (Chr (ch "["))
 (Cat (Alt (Rep 6 (Cls hexLower)) (lit "None"))
 (Cat (lit "](https://github.com/")
 (Cat (LazyStar dot)
 (Cat (Chr (ch "#"))
 (Cat (Group (Alt (Rep 40 (Cls hexLower)) (lit "None")))
      (Chr (ch ")"))))))).

(** ** preprocessCommitMessage *)

(** [array.join(x)] with an [undefined] argument joins with a comma. *)
Definition join_arg (x : option jsstring) : jsstring :=
  match x with
  | Some sep => sep
  | None => js ","
  end.

(** One turn of the [while] loop: [None] when [match] is [null]. *)
Definition preprocess_step (commitMessage : jsstring) : option jsstring :=
  match regex_match linkRegex commitMessage with
  | None => None
  | Some (match0, match1) =>
      Some (join (join_arg match1) (split match0 commitMessage))
  end.

(** The loop, run for at most [fuel] tests of its condition: [None] when
    the fuel does not suffice. *)
Fixpoint preprocess_loop (fuel : nat) (commitMessage : jsstring)
  : option jsstring :=
  match fuel with
  | O => None
  | S fuel' =>
      match preprocess_step commitMessage with
      | None => Some commitMessage
      | Some commitMessage' => preprocess_loop fuel' commitMessage'
      end
  end.

(** The length of the message is enough fuel: each turn shortens the
    message. *)
Definition preprocessCommitMessage (commitMessage : jsstring) : jsstring :=
  match preprocess_loop (S (length commitMessage)) commitMessage with
  | Some r => r
  | None => commitMessage
  end.

(** ** JavaScript values used by the reconciler *)

(** A [number] is an IEEE 754 double. *)
Definition number : Type := spec_float.

Definition NaN : number := S754_nan.

(** [Number.isFinite(x)] *)
Definition Number_isFinite (x : number) : bool :=
  match x with
  | S754_zero _ | S754_finite _ _ _ => true
  | S754_infinity _ | S754_nan => false
  end.

(** [x > 0] *)
Definition gt_zero (x : number) : bool := SFltb (S754_zero false) x.

(** The number 1. *)
Definition num_one : number := S754_finite false 1 0.

(** [x ?? d] *)
Definition nullish {A : Type} (x : option A) (d : A) : A :=
  match x with
  | Some a => a
  | None => d
  end.

(** *** Objects used as records of string keys

    An object is the list of its own properties in the order in which
    [Object.keys] lists them: the keys that are array indices first, in
    ascending numeric order, then the other keys in the order of their
    creation. *)
Definition obj (V : Type) : Type := list (jsstring * V).

Definition decimalDigit (c : N) : bool := N.leb 48 c && N.leb c 57.

Fixpoint digitsValue (acc : N) (s : jsstring) : option N :=
  match s with
  | [] => Some acc
  | c :: t =>
      if decimalDigit c then digitsValue (acc * 10 + (c - 48)) t else None
  end.

(** The array index a key denotes, if any: a canonical decimal numeral
    below 2^32 - 1. *)
Definition arrayIndex (key : jsstring) : option N :=
  match key with
  | [] => None
  | c :: t =>
      if N.eqb c 48
      then match t with
           | [] => Some 0%N
           | _ :: _ => None
           end
      else match digitsValue 0 key with
           | Some n => if N.ltb n 4294967295 then Some n else None
           | None => None
           end
  end.

(** [o[k]] *)
Fixpoint obj_get {V : Type} (o : obj V) (k : jsstring) : option V :=
  match o with
  | [] => None
  | (k', v) :: o' => if str_eqb k' k then Some v else obj_get o' k
  end.

Fixpoint obj_update {V : Type} (o : obj V) (k : jsstring) (v : V) : obj V :=
  match o with
  | [] => []
  | (k', v') :: o' =>
      if str_eqb k' k then (k', v) :: o' else (k', v') :: obj_update o' k v
  end.

Fixpoint obj_insert_index {V : Type} (o : obj V) (n : N) (k : jsstring)
  (v : V) : obj V :=
  match o with
  | [] => [(k, v)]
  | (k', v') :: o' =>
      match arrayIndex k' with
      | Some n' =>
          if N.ltb n n' then (k, v) :: o
          else (k', v') :: obj_insert_index o' n k v
      | None => (k, v) :: o
      end
  end.

(** [o[k] = v] *)
Definition obj_set {V : Type} (o : obj V) (k : jsstring) (v : V) : obj V :=
  match obj_get o k with
  | Some _ => obj_update o k v
  | None =>
      match arrayIndex k with
      | Some n => obj_insert_index o n k v
      | None => o ++ [(k, v)]
      end
  end.

Definition Object_keys {V : Type} (o : obj V) : list jsstring := map fst o.

Definition Object_values {V : Type} (o : obj V) : list V := map snd o.

(** *** Records of the source-control API and of the reconciler *)

(** [ModifiedFile] of [./types]. *)
Record ModifiedFile : Type := {
  sha : jsstring;
  originSha : jsstring;
  diff : jsstring;
  position : number;
  filename : jsstring
}.

(** An entry of the answer of [pulls.listFiles]. *)
Record ChangedFile : Type := {
  file_filename : jsstring;
  file_sha : jsstring;
  file_patch : option jsstring
}.

(** An entry of the answer of [git.getTree]. *)
Record TreeEntry : Type := {
  tree_path : option jsstring;
  tree_sha : option jsstring
}.

(** An entry of the answer of [pulls.listReviewComments]. *)
Record RemoteComment : Type := {
  comment_body : option jsstring;
  comment_id : Z
}.

(** What [getReviewComments] returns for a comment. *)
Record ReviewComment : Type := {
  message : jsstring;
  id : Z
}.

Record PayloadRepository : Type := {
  owner_login : jsstring;
  name : jsstring
}.

Inductive Side : Type := LEFT | RIGHT.

(** The argument of [pulls.createReviewComment]. *)
Record CreateParams : Type := {
  owner : jsstring;
  repo : jsstring;
  pull_number : Z;
  commit_id : jsstring;
  path : jsstring;
  line : number;
  side : Side;
  body : jsstring
}.

(** The argument of [openai.chat.completions.create]. *)
Record ChatRequest : Type := {
  model : jsstring;
  system_content : jsstring;
  user_content : jsstring;
  max_tokens : Z;
  temperature : number
}.

Record Choice : Type := {
  message_content : option jsstring
}.

Record ChatCompletion : Type := {
  choices : option (list Choice)
}.

(** ** Effects *)

(** The remote calls of a run.  A completion request carries the file on
    whose behalf [getOpenAISummaryForFile] makes it. *)
Inductive Event : Type :=
| DeleteReviewComment (owner repo : jsstring) (comment_id : Z)
| ChatCompletionsCreate (filename : jsstring) (request : ChatRequest)
| CreateReviewComment (params : CreateParams).

Inductive exn : Type :=
| ReferenceError (identifier : jsstring)
| TypeError
| JsError (message : jsstring)
| RequestError (status : Z).

Inductive outcome (A : Type) : Type :=
| Returned (a : A)
| Thrown (e : exn).

Arguments Returned {A} a.
Arguments Thrown {A} e.

(** A computation maps the trace of the calls made so far to its outcome
    and the extended trace. *)
Definition M (A : Type) : Type := list Event -> outcome A * list Event.

Definition ret {A : Type} (a : A) : M A := fun tr => (Returned a, tr).

Definition throw {A : Type} (e : exn) : M A := fun tr => (Thrown e, tr).

Definition bind {A B : Type} (m : M A) (f : A -> M B) : M B :=
  fun tr =>
    match m tr with
    | (Returned a, tr') => f a tr'
    | (Thrown e, tr') => (Thrown e, tr')
    end.

(** [try { m } catch (error) { h error }] *)
Definition try_catch {A : Type} (m : M A) (h : exn -> M A) : M A :=
  fun tr =>
    match m tr with
    | (Returned a, tr') => (Returned a, tr')
    | (Thrown e, tr') => h e tr'
    end.

Notation "x <- m ;; k" := (bind m (fun x => k))
  (at level 61, m at next level, right associativity).
Notation "m ;;; k" := (bind m (fun _ => k))
  (at level 61, right associativity).

(** The constants imported from [./openai] and [./shared-prompt], which are
    not among the sources: they are parameters of the model. *)
Record Imports : Type := {
  MAX_OPEN_AI_QUERY_LENGTH : Z;
  MAX_TOKENS : Z;
  MODEL_NAME : jsstring;
  TEMPERATURE : number;
  SHARED_PROMPT : jsstring
}.

(** What surrounds a run: the conversion of a string to a number, the
    binding of the global identifier [pullNumber] (no module of the
    repository declares it: [None] is what Node has), the answers of the
    remote services to the calls that fetch data, and their reaction to the
    calls that the run makes, which may depend on the calls made before. *)
Record World : Type := {
  StringToNumber : jsstring -> number;
  global_pullNumber : option Z;
  listFiles_data : list ChangedFile;
  pull_base_sha : jsstring;
  pull_head_sha : jsstring;
  getTree_tree : list TreeEntry;
  listReviewComments_all : list RemoteComment;
  deleteReviewComments_settle : list Event -> list Z -> outcome unit;
  chat_completions_create : list Event -> ChatRequest -> outcome ChatCompletion;
  pulls_createReviewComment : list Event -> CreateParams -> outcome unit
}.

(** ** The summarizer and the reconciler *)

Definition nl : jsstring := [10%N].

Definition sentinel : jsstring := js "Error: couldn't generate summary".

Definition MAX_FILES_TO_SUMMARIZE : nat := 20.

Definition marker : jsstring := js "GPT summary of".

Definition lfsMarker : jsstring := js "https://git-lfs.github.com/".

(** [getTitle] of [./utils]: [`GPT summary of ${originSha} - ${sha}:`] *)
Definition getTitle (f : ModifiedFile) : jsstring :=
  js "GPT summary of " ++ originSha f ++ js " - " ++ sha f ++ js ":".

(** [getOwner] of [./utils] *)
Definition getOwner (repository : PayloadRepository) : jsstring * jsstring :=
  (owner_login repository, name repository).

Section Reconciler.

Variable I : Imports.
Variable W : World.

Definition OPEN_AI_PROMPT : jsstring :=
  SHARED_PROMPT I ++ nl
  ++ js "The following is a git diff of a single file." ++ nl
  ++ js "Please summarize it in a comment, describing the changes made in the diff in high level."
  ++ nl
  ++ js "Do it in the following way:" ++ nl
  ++ js "Write `SUMMARY:` and then write a summary of the changes made in the diff, as a bullet point list."
  ++ nl
  ++ js "Every bullet point should start with a `*`." ++ nl.

(** The user prompt assembled by [getOpenAISummaryForFile]. *)
Definition openAIPrompt (filename patch : jsstring) : jsstring :=
  js "THE GIT DIFF OF " ++ filename ++ js " TO BE SUMMARIZED:" ++ nl
  ++ js "```" ++ nl ++ patch ++ nl ++ js "```" ++ nl ++ nl
  ++ js "SUMMARY:" ++ nl.

Definition chatRequest (filename patch : jsstring) : ChatRequest :=
  {| model := MODEL_NAME I;
     system_content := OPEN_AI_PROMPT;
     user_content := openAIPrompt filename patch;
     max_tokens := MAX_TOKENS I;
     temperature := TEMPERATURE I |}.

(** [await openai.chat.completions.create(request)] *)
Definition call_chat_completions_create (filename : jsstring)
  (request : ChatRequest) : M ChatCompletion :=
  fun tr =>
    (chat_completions_create W tr request,
     tr ++ [ChatCompletionsCreate filename request]).

(** The body of the [try] block: [Some] is a [return] from inside it,
    [None] is falling out of its end. *)
Definition summary_attempt (filename patch : jsstring)
  : M (option jsstring) :=
  if (Z.of_nat (length (openAIPrompt filename patch))
      >? MAX_OPEN_AI_QUERY_LENGTH I)%Z
  then throw (JsError (js "OpenAI query too big"))
  else
    completion <- call_chat_completions_create filename
                    (chatRequest filename patch) ;;
    match choices completion with
    | Some (first :: _) => ret (Some (nullish (message_content first) sentinel))
    | Some [] | None => ret None
    end.

Definition getOpenAISummaryForFile (filename patch : jsstring) : M jsstring :=
  returned <- try_catch (summary_attempt filename patch)
                        (fun error => ret None) ;;
  match returned with
  | Some summary => ret summary
  | None => ret sentinel
  end.

Definition getReviewComments : list ReviewComment :=
  map (fun comment =>
         {| message := preprocessCommitMessage
                         (nullish (comment_body comment) []);
            id := comment_id comment |})
      (listReviewComments_all W).

Definition baseCommitSha : jsstring := pull_base_sha W.

Definition headCommitSha : jsstring := pull_head_sha W.

(** [tree.find(tree => tree.path === filename)?.sha ?? "None"] *)
Definition lookupOriginSha (file_name : jsstring) : jsstring :=
  match find (fun tree =>
                match tree_path tree with
                | Some p => str_eqb p file_name
                | None => false
                end) (getTree_tree W) with
  | Some tree => nullish (tree_sha tree) (js "None")
  | None => js "None"
  end.

(** [Number(patch?.split("+")[1]?.split(",")[0]) ?? 0]: [Number] of
    [undefined] is [NaN], and a number is never nullish. *)
Definition parsePosition (patch : option jsstring) : number :=
  match patch with
  | None => NaN
  | Some p =>
      match nth_error (split (js "+") p) 1 with
      | None => NaN
      | Some afterPlus =>
          match nth_error (split (js ",") afterPlus) 0 with
          | None => NaN
          | Some digits => StringToNumber W digits
          end
      end
  end.

Definition modifiedFileOf (file : ChangedFile) : ModifiedFile :=
  {| sha := file_sha file;
     originSha := lookupOriginSha (file_filename file);
     diff := nullish (file_patch file) [];
     position := parsePosition (file_patch file);
     filename := file_filename file |}.

Definition modifiedFiles : obj ModifiedFile :=
  fold_left (fun acc file => obj_set acc (file_filename file)
                                     (modifiedFileOf file))
            (listFiles_data W) [].

Definition aiComments : list ReviewComment :=
  filter (fun comment => startsWith (message comment) marker)
         getReviewComments.

Definition commentsToDelete : list ReviewComment :=
  fold_left
    (fun acc f =>
       filter (fun c =>
                 negb (includes (message c)
                         (js "GPT summary of " ++ originSha f ++ js " - "
                          ++ sha f ++ js ":")))
              acc)
    (Object_values modifiedFiles) aiComments.

Variable repository : PayloadRepository.

(** The calls of [commentsToDelete.map(...)], all made before the
    [await]. *)
Fixpoint issueDeletes (cs : list ReviewComment) : M unit :=
  match cs with
  | [] => ret tt
  | c :: rest =>
      fun tr =>
        issueDeletes rest
          (tr ++ [DeleteReviewComment (fst (getOwner repository))
                                      (snd (getOwner repository)) (id c)])
  end.

(** [await Promise.all(...)]: fulfilled when there is nothing to wait
    for, else as the remote side settles the calls. *)
Definition awaitDeletes (cs : list ReviewComment) : M unit :=
  match cs with
  | [] => ret tt
  | _ :: _ => fun tr => (deleteReviewComments_settle W tr (map id cs), tr)
  end.

Definition deletionPass : M unit :=
  issueDeletes commentsToDelete ;;; awaitDeletes commentsToDelete.

Definition expectedComment (f : ModifiedFile) : jsstring :=
  js "GPT summary of " ++ originSha f ++ js " - " ++ sha f ++ js ":".

(** The body of a new comment. *)
Definition commentBody (modifiedFile : jsstring) (f : ModifiedFile)
  (fileAnalysisAndSummary : jsstring) : jsstring :=
  js "GPT summary of [" ++ slice0 6 (originSha f)
  ++ js "](https://github.com/" ++ owner_login repository ++ js "/"
  ++ name repository ++ js "/blob/" ++ baseCommitSha ++ js "/"
  ++ modifiedFile ++ js "#" ++ originSha f
  ++ js ") - [" ++ slice0 6 (sha f)
  ++ js "](https://github.com/" ++ owner_login repository ++ js "/"
  ++ name repository ++ js "/blob/" ++ headCommitSha ++ js "/"
  ++ modifiedFile ++ js "#" ++ sha f
  ++ js "):" ++ nl ++ fileAnalysisAndSummary.

(** The [line] property of the argument. *)
Definition commentLine (f : ModifiedFile) : number :=
  if Number_isFinite (position f)
  then if gt_zero (position f) then position f else num_one
  else num_one.

(** The [side] property of the argument. *)
Definition commentSide (f : ModifiedFile) : Side :=
  if gt_zero (position f) || str_eqb (originSha f) (js "None")
  then RIGHT
  else LEFT.

(** The identifier [pullNumber]: a [ReferenceError] when nothing binds
    it. *)
Definition read_pullNumber : M Z :=
  match global_pullNumber W with
  | Some n => ret n
  | None => throw (ReferenceError (js "pullNumber"))
  end.

(** [await octokit.pulls.createReviewComment({...})]: the properties of
    the argument are evaluated in the order in which they are written, then
    the call is made. *)
Definition createComment (f : ModifiedFile) (comment : jsstring) : M unit :=
  pullNumber <- read_pullNumber ;;
  let params :=
    {| owner := owner_login repository;
       repo := name repository;
       pull_number := pullNumber;
       commit_id := headCommitSha;
       path := filename f;
       line := commentLine f;
       side := commentSide f;
       body := comment |} in
  fun tr =>
    (pulls_createReviewComment W tr params, tr ++ [CreateReviewComment params]).

(** [reviewSummary.message.split("\n").slice(1).join("\n")] *)
Definition withoutFirstLine (msg : jsstring) : jsstring :=
  join nl (slice1 (split nl msg)).

(** How a turn of the [for] loop ends: on to the next key, by [continue]
    or at the end of the body, or out of the loop by [break]. *)
Inductive Flow : Type :=
| Next (result : obj jsstring) (summarizedFiles : nat)
| Break (result : obj jsstring).

(** What is done with a file. *)
Inductive Action : Type :=
| Skip
| Reuse (reviewSummary : ReviewComment)
| Summarize.

(** The tests at the head of the loop body, up to the inner loop over
    [aiComments], which stops at the first comment that includes the
    expected title. *)
Definition actionOf (f : ModifiedFile) : Action :=
  if str_eqb (diff f) [] then Skip
  else if includes (diff f) lfsMarker then Skip
  else
    match find (fun reviewSummary =>
                  includes (message reviewSummary) (expectedComment f))
               aiComments with
    | Some reviewSummary => Reuse reviewSummary
    | None => Summarize
    end.

(** The body of the [for] loop. *)
Definition iteration (modifiedFile : jsstring) (result : obj jsstring)
  (summarizedFiles : nat) : M Flow :=
  match obj_get modifiedFiles modifiedFile with
  | None => throw TypeError
  | Some f =>
      match actionOf f with
      | Skip => ret (Next result summarizedFiles)
      | Reuse reviewSummary =>
          ret (Next (obj_set result modifiedFile
                             (withoutFirstLine (message reviewSummary)))
                    summarizedFiles)
      | Summarize =>
          fileAnalysisAndSummary <-
            getOpenAISummaryForFile modifiedFile (diff f) ;;
          let result :=
            obj_set result modifiedFile fileAnalysisAndSummary in
          let comment :=
            commentBody modifiedFile f fileAnalysisAndSummary in
          createComment f comment ;;;
          let summarizedFiles := summarizedFiles + 1 in
          if MAX_FILES_TO_SUMMARIZE <=? summarizedFiles
          then ret (Break result)
          else ret (Next result summarizedFiles)
      end
  end.

(** The [for] loop over [Object.keys(modifiedFiles)], from the key at the
    head of [keys] on, and the [return result] after it. *)
Fixpoint generationPass (keys : list jsstring) (result : obj jsstring)
  (summarizedFiles : nat) : M (obj jsstring) :=
  match keys with
  | [] => ret result
  | modifiedFile :: rest =>
      flow <- iteration modifiedFile result summarizedFiles ;;
      match flow with
      | Next result' summarizedFiles' =>
          generationPass rest result' summarizedFiles'
      | Break result' => ret result'
      end
  end.

(** The turns of the loop for the keys of [keys] alone. *)
Fixpoint turns (keys : list jsstring) (result : obj jsstring)
  (summarizedFiles : nat) : M Flow :=
  match keys with
  | [] => ret (Next result summarizedFiles)
  | modifiedFile :: rest =>
      flow <- iteration modifiedFile result summarizedFiles ;;
      match flow with
      | Next result' summarizedFiles' => turns rest result' summarizedFiles'
      | Break result' => ret (Break result')
      end
  end.

Definition getFileSummaries (pull_number : Z) : M (obj jsstring) :=
  deletionPass ;;;
  generationPass (Object_keys modifiedFiles) [] 0.

End Reconciler.

(** ** Auxiliary notions of the statements *)

(** The characters of the pieces of a split. *)
Fixpoint total_length (pieces : list jsstring) : nat :=
  match pieces with
  | [] => 0
  | p :: rest => length p + total_length rest
  end.

(** The strings a regex matches, with the capture of group 1 before and
    after the match: the declarative reading of the regex syntax. *)
Inductive matches : regex -> option jsstring -> jsstring -> option jsstring
                    -> Prop :=
| matches_Eps cap : matches Eps cap [] cap
| matches_Chr c cap : matches (Chr c) cap [c] cap
| matches_Cls (p : N -> bool) x cap :
    p x = true -> matches (Cls p) cap [x] cap
| matches_Cat r1 r2 cap cap1 cap2 m1 m2 :
    matches r1 cap m1 cap1 -> matches r2 cap1 m2 cap2 ->
    matches (Cat r1 r2) cap (m1 ++ m2) cap2
| matches_AltL r1 r2 cap cap' m :
    matches r1 cap m cap' -> matches (Alt r1 r2) cap m cap'
| matches_AltR r1 r2 cap cap' m :
    matches r2 cap m cap' -> matches (Alt r1 r2) cap m cap'
| matches_Rep0 r cap : matches (Rep 0 r) cap [] cap
| matches_RepS r n cap cap1 cap2 m1 m2 :
    matches r cap m1 cap1 -> matches (Rep n r) cap1 m2 cap2 ->
    matches (Rep (S n) r) cap (m1 ++ m2) cap2
| matches_LazyStar (p : N -> bool) cap m :
    forallb p m = true -> matches (LazyStar p) cap m cap
| matches_Group r cap cap' m :
    matches r cap m cap' -> matches (Group r) cap m (Some m).

(** A blob or commit identifier: 40 lower-case hexadecimal digits. *)
Definition isSha (z : jsstring) : bool :=
  Nat.eqb (length z) 40 && forallb hexLower z.

(** What [originSha] holds: an identifier, or ["None"] for a file that the
    base tree does not have. *)
Definition isShaOrNone (z : jsstring) : bool :=
  isSha z || str_eqb z (js "None").

(** The display form of an identifier inside a link: 6 hexadecimal digits,
    or ["None"]. *)
Definition isShort (x : jsstring) : bool :=
  (Nat.eqb (length x) 6 && forallb hexLower x) || str_eqb x (js "None").

(** A run of [getFileSummaries]: its outcome and the calls it made. *)
Definition run (I : Imports) (W : World) (repository : PayloadRepository)
  (pull_number : Z) : outcome (obj jsstring) * list Event :=
  getFileSummaries I W repository pull_number [].

(** The argument that [createComment] passes when [pullNumber] is bound
    to [pn]. *)
Definition paramsOf (W : World) (repository : PayloadRepository) (pn : Z)
  (f : ModifiedFile) (comment : jsstring) : CreateParams :=
  {| owner := owner_login repository;
     repo := name repository;
     pull_number := pn;
     commit_id := headCommitSha W;
     path := filename f;
     line := commentLine f;
     side := commentSide f;
     body := comment |}.

(** The [result] that a turn of the loop leaves. *)
Definition flow_result (flow : Flow) : obj jsstring :=
  match flow with
  | Next result _ => result
  | Break result => result
  end.

(** The calls that the generation pass can make for the keys of [keys]:
    a completion request for a file that is to be summarized, and the
    creation of the comment of such a file. *)
Definition generated (I : Imports) (W : World)
  (repository : PayloadRepository) (keys : list jsstring) (e : Event)
  : Prop :=
  match e with
  | DeleteReviewComment _ _ _ => False
  | ChatCompletionsCreate k request =>
      In k keys
      /\ exists f, obj_get (modifiedFiles W) k = Some f
                   /\ actionOf W f = Summarize
                   /\ request = chatRequest I k (diff f)
  | CreateReviewComment params =>
      exists f pn summary,
        In (filename f) keys
        /\ obj_get (modifiedFiles W) (filename f) = Some f
        /\ actionOf W f = Summarize
        /\ global_pullNumber W = Some pn
        /\ params = paramsOf W repository pn f
                      (commentBody W repository (filename f) f summary)
  end.

(** The calls of the deletion pass. *)
Definition deleteCalls (W : World) (repository : PayloadRepository)
  (cs : list ReviewComment) : list Event :=
  map (fun c => DeleteReviewComment (owner_login repository)
                                    (name repository) (id c)) cs.

(** Whether the file of a key gets a fresh summary. *)
Definition toSummarize (W : World) (k : jsstring) : bool :=
  match obj_get (modifiedFiles W) k with
  | Some f =>
      match actionOf W f with
      | Summarize => true
      | Skip | Reuse _ => false
      end
  | None => false
  end.

(** The number of files of [keys] that get a fresh summary. *)
Definition countSummarize (W : World) (keys : list jsstring) : nat :=
  length (filter (toSummarize W) keys).

Definition isCreate (e : Event) : bool :=
  match e with
  | CreateReviewComment _ => true
  | _ => false
  end.

(** [s.split(m).join(r)]: the occurrences of [m] replaced by [r]. *)
Definition replaceAll (m r s : jsstring) : jsstring := join r (split m s).

(** A link in markup form. *)
Definition link (short mid z : jsstring) : jsstring :=
  js "[" ++ short ++ js "](https://github.com/" ++ mid ++ js "#" ++ z
  ++ js ")".

(** The path of a blob in the URL of a link. *)
Definition blobPath (owner_name repo_name commit file : jsstring)
  : jsstring :=
  owner_name ++ js "/" ++ repo_name ++ js "/blob/" ++ commit ++ js "/"
  ++ file.

(** The end of a link, [#] then an identifier then [)], at the head of
    [s]. *)
Definition tailHere (s : jsstring) : bool :=
  match s with
  | [] => false
  | c :: t =>
      N.eqb c (ch "#")
      && (startsWith t (js "None)")
          || (isSha (firstn 40 t) && startsWith (skipn 40 t) (js ")")))
  end.

(** No end of a link inside [s]. *)
Fixpoint noLinkTail (s : jsstring) : bool :=
  match s with
  | [] => true
  | _ :: t => negb (tailHere s) && noLinkTail t
  end.

(** The characters of the name of an owner or of a repository: any but
    [[], [#] and the line terminators. *)
Definition plainChar (c : N) : bool :=
  negb (N.eqb c (ch "[")) && negb (N.eqb c (ch "#")) && dot c.

Definition plainName (s : jsstring) : bool := forallb plainChar s.

(** A file name that the link pattern reads well: no line terminator and
    no end of a link inside. *)
Definition plainFile (s : jsstring) : bool := forallb dot s && noLinkTail s.

(** The end of [linkRegex], from its [#] on. *)
Definition linkTail : regex :=
  Cat (Chr (ch "#"))
 (Cat (Group (Alt (Rep 40 (Cls hexLower)) (lit "None")))
      (Chr (ch ")"))).

Definition notChar (c0 c : N) : bool := negb (N.eqb c c0).

(** A comment body: the marker, two identifiers or links, and the text
    after the title line. *)
Definition titled (a b text : jsstring) : jsstring :=
  js "GPT summary of " ++ a ++ js " - " ++ b ++ js ":" ++ nl ++ text.

(** ** Concrete runs *)

Definition exampleImports : Imports :=
  {| MAX_OPEN_AI_QUERY_LENGTH := 20000;
     MAX_TOKENS := 512;
     MODEL_NAME := js "gpt-3.5-turbo";
     TEMPERATURE := S754_finite false 1 (-1);
     SHARED_PROMPT := js "You are an expert programmer." |}.

(** Imports with a ceiling that every prompt exceeds. *)
Definition tinyImports : Imports :=
  {| MAX_OPEN_AI_QUERY_LENGTH := 10;
     MAX_TOKENS := 512;
     MODEL_NAME := js "gpt-3.5-turbo";
     TEMPERATURE := S754_finite false 1 (-1);
     SHARED_PROMPT := js "You are an expert programmer." |}.

Definition completionOf (content : option jsstring) : ChatCompletion :=
  {| choices := Some [ {| message_content := content |} ] |}.

(** A pull request given by its changed files and review comments, in a
    world where the completion service answers [content], every remote call
    succeeds, and [pullNumber] is bound or not. *)
Definition exampleWorld (binding : option Z) (files : list ChangedFile)
  (comments : list RemoteComment) (content : option jsstring) : World :=
  {| StringToNumber := fun _ => S754_finite false 5 0;
     global_pullNumber := binding;
     listFiles_data := files;
     pull_base_sha := js "1111111111111111111111111111111111111111";
     pull_head_sha := js "2222222222222222222222222222222222222222";
     getTree_tree := [];
     listReviewComments_all := comments;
     deleteReviewComments_settle := fun _ _ => Returned tt;
     chat_completions_create := fun _ _ => Returned (completionOf content);
     pulls_createReviewComment := fun _ _ => Returned tt |}.

Definition exampleRepository : PayloadRepository :=
  {| owner_login := js "octo"; name := js "demo" |}.

Definition exampleSha : jsstring :=
  js "abcdef0123456789abcdef0123456789abcdef01".

Definition examplePatch : jsstring := js "@@ -1,2 +5,3 @@ const x = 1;".

(** A binary file (no patch) that the base tree does not have, and a bot
    comment whose title carries its identity pair. *)
Definition binaryFile : ChangedFile :=
  {| file_filename := js "logo.png";
     file_sha := exampleSha;
     file_patch := None |}.

Definition logoComment : RemoteComment :=
  {| comment_body :=
       Some (js "GPT summary of None - abcdef0123456789abcdef0123456789abcdef01:"
             ++ nl ++ js "* Added the logo");
     comment_id := 7 |}.

Definition binaryWorld : World :=
  exampleWorld None [binaryFile] [logoComment] (Some (js "* a change")).

Definition binaryModified : ModifiedFile :=
  {| sha := exampleSha;
     originSha := js "None";
     diff := [];
     position := NaN;
     filename := js "logo.png" |}.


(** A changed text file that the base tree does not have. *)
Definition textFile (file_name : string) : ChangedFile :=
  {| file_filename := js file_name;
     file_sha := exampleSha;
     file_patch := Some examplePatch |}.

(** A pull request with 21 changed text files and no review comment. *)
Definition twentyOneFiles : list ChangedFile :=
  map textFile
    ["a01.ts"; "a02.ts"; "a03.ts"; "a04.ts"; "a05.ts"; "a06.ts"; "a07.ts";
     "a08.ts"; "a09.ts"; "a10.ts"; "a11.ts"; "a12.ts"; "a13.ts"; "a14.ts";
     "a15.ts"; "a16.ts"; "a17.ts"; "a18.ts"; "a19.ts"; "a20.ts"; "a21.ts"]%string.

(** The world of the repository as it is: nothing binds [pullNumber]. *)
Definition twentyOneWorld : World :=
  exampleWorld None twentyOneFiles [] (Some (js "* a change")).

(** The same pull request in a world that binds [pullNumber]. *)
Definition twentyOneBoundWorld : World :=
  exampleWorld (Some 1%Z) twentyOneFiles [] (Some (js "* a change")).

(** What the reconciler keeps of [textFile "a.ts"]. *)
Definition aModified : ModifiedFile :=
  {| sha := exampleSha;
     originSha := js "None";
     diff := examplePatch;
     position := S754_finite false 5 0;
     filename := js "a.ts" |}.

(** A bot comment for that version of [a.ts], in the form in which the
    generation pass writes it. *)
Definition aComment : RemoteComment :=
  {| comment_body :=
       Some (js "GPT summary of [None](https://github.com/octo/demo/blob/1111111111111111111111111111111111111111/a.ts#None) - [abcdef](https://github.com/octo/demo/blob/2222222222222222222222222222222222222222/a.ts#abcdef0123456789abcdef0123456789abcdef01):"
             ++ nl ++ js "* Renamed x");
     comment_id := 11 |}.

Definition aReview : ReviewComment :=
  {| message :=
       js "GPT summary of None - abcdef0123456789abcdef0123456789abcdef01:"
       ++ nl ++ js "* Renamed x";
     id := 11 |}.

(** [a.ts] already has its comment. *)
Definition reuseWorld : World :=
  exampleWorld None [textFile "a.ts"] [aComment] (Some (js "* a change")).

(** Two files to summarize; [pullNumber] is unbound, or bound. *)
Definition twoFilesWorld : World :=
  exampleWorld None [textFile "a.ts"; textFile "b.ts"] []
               (Some (js "* a change")).

Definition twoFilesBoundWorld : World :=
  exampleWorld (Some 1%Z) [textFile "a.ts"; textFile "b.ts"] []
               (Some (js "* a change")).


Definition aParams : CreateParams :=
  paramsOf twoFilesBoundWorld exampleRepository 1 aModified
    (commentBody twoFilesBoundWorld exampleRepository (js "a.ts") aModified
       (js "* a change")).

(** A file whose name holds the end of a link. *)
Definition oddName : jsstring := js "notes#None).md".

Definition oddFile : ChangedFile :=
  {| file_filename := oddName;
     file_sha := exampleSha;
     file_patch := Some examplePatch |}.

Definition oddModified : ModifiedFile :=
  {| sha := exampleSha;
     originSha := js "None";
     diff := examplePatch;
     position := S754_finite false 5 0;
     filename := oddName |}.

(** The comment that the generation pass writes for that file. *)
Definition oddBody : jsstring :=
  commentBody twoFilesWorld exampleRepository oddName oddModified
    (js "* a change").

(** The next run: the file, and the comment of the previous run. *)
Definition oddWorld : World :=
  exampleWorld None [oddFile]
    [ {| comment_body := Some oddBody; comment_id := 12 |} ]
    (Some (js "* a change")).

(** A world in which the completion service rejects every request. *)
Definition rejectingWorld : World :=
  {| StringToNumber := fun _ => S754_finite false 5 0;
     global_pullNumber := None;
     listFiles_data := [];
     pull_base_sha := js "1111111111111111111111111111111111111111";
     pull_head_sha := js "2222222222222222222222222222222222222222";
     getTree_tree := [];
     listReviewComments_all := [];
     deleteReviewComments_settle := fun _ _ => Returned tt;
     chat_completions_create := fun _ _ => Thrown (RequestError 429);
     pulls_createReviewComment := fun _ _ => Returned tt |}.

(** A stale bot comment, and a world in which deletions are rejected. *)
Definition staleComment : RemoteComment :=
  {| comment_body :=
       Some (js "GPT summary of None - 0000000000000000000000000000000000000000:"
             ++ nl ++ js "* Old");
     comment_id := 21 |}.

Definition failingDeleteWorld : World :=
  {| StringToNumber := fun _ => S754_finite false 5 0;
     global_pullNumber := Some 1%Z;
     listFiles_data := [textFile "a.ts"];
     pull_base_sha := js "1111111111111111111111111111111111111111";
     pull_head_sha := js "2222222222222222222222222222222222222222";
     getTree_tree := [];
     listReviewComments_all := [staleComment];
     deleteReviewComments_settle := fun _ _ => Thrown (RequestError 403);
     chat_completions_create :=
       fun _ _ => Returned (completionOf (Some (js "* a change")));
     pulls_createReviewComment := fun _ _ => Returned tt |}.

(** ** Auxiliary notions of the further properties *)


(** Whether a tree entry has the given path. *)
Definition hasPath (file_name : jsstring) (tree : TreeEntry) : bool :=
  match tree_path tree with
  | Some p => str_eqb p file_name
  | None => false
  end.

Definition isChat (e : Event) : bool :=
  match e with
  | ChatCompletionsCreate _ _ => true
  | _ => false
  end.

Definition isDelete (e : Event) : bool :=
  match e with
  | DeleteReviewComment _ _ _ => true
  | _ => false
  end.

(** Whether a call is the completion request, or the creation of the
    comment, of the file [k]. *)
Definition chatFor (k : jsstring) (e : Event) : bool :=
  match e with
  | ChatCompletionsCreate k' _ => str_eqb k' k
  | _ => false
  end.

Definition createFor (k : jsstring) (e : Event) : bool :=
  match e with
  | CreateReviewComment params => str_eqb (path params) k
  | _ => false
  end.

(** ** The entry point *)

(** [context.payload], as far as the entry point reads it: the
    repository, and the number of the pull request. *)
Record Payload : Type := {
  payload_repository : option PayloadRepository;
  payload_pull_request : option Z
}.

Module Main.

Section EntryPoint.

Variable I : Imports.
Variable W : World.

(** [summarizeCommits] of [./commit-summary], which is not among the
    sources: a parameter. *)
Variable summarizeCommits :
  Z -> PayloadRepository -> obj jsstring -> M unit.

Variable payload : Payload.

Definition run : M unit :=
  match payload_pull_request payload with
  | None => throw (JsError (js "Missing pull request in context payload!"))
  | Some pull_request_number =>
      match payload_repository payload with
      | None =>
          throw (JsError (js "Repository undefined in context payload!"))
      | Some repository =>
          summaries <- getFileSummaries I W repository pull_request_number ;;
          summarizeCommits pull_request_number repository summaries
      end
  end.

(** [run().then(...exit(0)).catch(...exit(1))]: the exit code of the
    process, and the calls made. *)
Definition exitCode : Z * list Event :=
  match run [] with
  | (Returned _, tr) => (0%Z, tr)
  | (Thrown _, tr) => (1%Z, tr)
  end.

End EntryPoint.

End Main.

(** * Properties *)

(** ** Strings *)

Lemma str_eqb_eq (a b : jsstring) : str_eqb a b = true <-> a = b.
Proof.
  revert b; induction a as [|x a IH]; intros [|y b]; simpl;
    try (split; [discriminate | discriminate]); try tauto.
  rewrite andb_true_iff, N.eqb_eq, IH.
  split; [intros [-> ->]; reflexivity | intros H; inversion H; auto].
Qed.

Lemma str_eqb_refl (a : jsstring) : str_eqb a a = true.
Proof. apply str_eqb_eq; reflexivity. Qed.

Lemma str_eqb_neq (a b : jsstring) : str_eqb a b = false <-> a <> b.
Proof.
  rewrite <- str_eqb_eq. destruct (str_eqb a b); split; congruence.
Qed.

Lemma startsWith_spec (s p : jsstring) :
  startsWith s p = true <-> exists t, s = p ++ t.
Proof.
  revert s; induction p as [|y p IH]; intros s; simpl.
  - split; [intros _; exists s; reflexivity | reflexivity].
  - destruct s as [|x s].
    + split; [discriminate | intros [t H]; discriminate].
    + rewrite andb_true_iff, N.eqb_eq, IH. split.
      * intros [-> [t ->]]. exists t; reflexivity.
      * intros [t H]. inversion H; subst. split; [reflexivity | exists t; reflexivity].
Qed.

Lemma startsWith_app (p t : jsstring) : startsWith (p ++ t) p = true.
Proof. apply startsWith_spec. exists t; reflexivity. Qed.

Lemma includes_spec (s p : jsstring) :
  includes s p = true <-> exists a b, s = a ++ p ++ b.
Proof.
  induction s as [|x s IH].
  - simpl. rewrite orb_false_r, startsWith_spec. split.
    + intros [t H]. exists [], t. exact H.
    + intros [a [b H]]. destruct a; [exists b; exact H | discriminate].
  - cbn [includes]. rewrite orb_true_iff, startsWith_spec, IH. split.
    + intros [[t H] | [a [b H]]].
      * exists [], t. exact H.
      * exists (x :: a), b. simpl. rewrite H. reflexivity.
    + intros [a [b H]]. destruct a as [|y a].
      * left. exists b. exact H.
      * right. inversion H; subst. exists a, b. reflexivity.
Qed.

Lemma includes_app (a p b : jsstring) : includes (a ++ p ++ b) p = true.
Proof. apply includes_spec. exists a, b; reflexivity. Qed.

(** *** split and join *)

Lemma split_from_nonempty (sep : jsstring) (k : nat) (s : jsstring) :
  split_from sep k s <> [].
Proof.
  revert k; induction s as [|c t IH]; intros k; simpl; [discriminate|].
  destruct k as [|k]; [|apply IH].
  destruct (startsWith (c :: t) sep); [discriminate|].
  destruct (split_from sep 0 t); discriminate.
Qed.

Lemma split_from_skip (sep pre s : jsstring) :
  split_from sep (length pre) (pre ++ s) = split_from sep 0 s.
Proof.
  induction pre as [|c pre IH]; simpl; [reflexivity | exact IH].
Qed.

(** The three cases of a split at a non-empty separator. *)
Lemma split_nil (sep : jsstring) : split_from sep 0 [] = [[]].
Proof. reflexivity. Qed.

Lemma split_hit (sep t : jsstring) :
  sep <> [] ->
  split_from sep 0 (sep ++ t) = [] :: split_from sep 0 t.
Proof.
  intros Hne. destruct sep as [|c sep']; [congruence|].
  change ((c :: sep') ++ t) with (c :: (sep' ++ t)).
  cbn [split_from].
  change (c :: sep' ++ t) with ((c :: sep') ++ t).
  rewrite startsWith_app.
  replace (length (c :: sep') - 1) with (length sep') by (simpl; lia).
  rewrite split_from_skip. reflexivity.
Qed.

Lemma split_miss (sep : jsstring) (c : N) (t : jsstring) :
  startsWith (c :: t) sep = false ->
  exists h r, split_from sep 0 t = h :: r
              /\ split_from sep 0 (c :: t) = (c :: h) :: r.
Proof.
  intros H. cbn [split_from]. rewrite H.
  destruct (split_from sep 0 t) as [|h r] eqn:E.
  - exfalso. exact (split_from_nonempty _ _ _ E).
  - exists h, r. split; reflexivity.
Qed.

Lemma split_cases (sep s : jsstring) :
  sep <> [] ->
  s = [] \/
  (exists t, s = sep ++ t) \/
  (exists c t, s = c :: t /\ startsWith s sep = false).
Proof.
  intros Hne. destruct s as [|c t]; [left; reflexivity|].
  destruct (startsWith (c :: t) sep) eqn:E.
  - right; left. apply startsWith_spec in E. exact E.
  - right; right. exists c, t. split; reflexivity.
Qed.

(** Induction along the scan of [split]. *)
Lemma split_scan_ind (sep : jsstring) (P : jsstring -> Prop) :
  sep <> [] ->
  P [] ->
  (forall t, P t -> P (sep ++ t)) ->
  (forall c t, startsWith (c :: t) sep = false -> P t -> P (c :: t)) ->
  forall s, P s.
Proof.
  intros Hne Hnil Hhit Hmiss s.
  remember (length s) as n eqn:Hn. revert s Hn.
  induction n as [n IH] using lt_wf_ind. intros s Hn.
  destruct (split_cases sep s Hne) as [-> | [[t ->] | [c [t [-> E]]]]].
  - exact Hnil.
  - apply Hhit. apply (IH (length t)); [|reflexivity].
    subst n. rewrite length_app. destruct sep; [congruence | simpl; lia].
  - apply Hmiss; [exact E|]. apply (IH (length t)); [|reflexivity].
    subst n. simpl. lia.
Qed.

Lemma join_length (sep : jsstring) (pieces : list jsstring) :
  length (join sep pieces)
  = total_length pieces + (length pieces - 1) * length sep.
Proof.
  induction pieces as [|p rest IH]; [reflexivity|].
  destruct rest as [|q rest].
  - simpl. lia.
  - change (join sep (p :: q :: rest)) with (p ++ sep ++ join sep (q :: rest)).
    rewrite !length_app, IH. simpl. lia.
Qed.

Lemma split_length (sep s : jsstring) :
  sep <> [] ->
  total_length (split_from sep 0 s)
  + (length (split_from sep 0 s) - 1) * length sep = length s.
Proof.
  intros Hne. pattern s. apply (split_scan_ind sep); [exact Hne | reflexivity | |].
  - intros t IH. rewrite (split_hit sep t Hne). rewrite length_app.
    pose proof (split_from_nonempty sep 0 t) as Hn.
    destruct (split_from sep 0 t) as [|h r]; [congruence|].
    simpl in *. lia.
  - intros c t E IH. destruct (split_miss sep c t E) as [h [r [E1 E2]]].
    rewrite E2. rewrite E1 in IH. simpl in *. lia.
Qed.

Lemma split_occurrence (sep a b : jsstring) :
  sep <> [] -> 2 <= length (split_from sep 0 (a ++ sep ++ b)).
Proof.
  intros Hne. induction a as [|c a IH].
  - simpl. rewrite (split_hit sep b Hne).
    pose proof (split_from_nonempty sep 0 b) as Hn.
    destruct (split_from sep 0 b); [congruence | simpl; lia].
  - change ((c :: a) ++ sep ++ b) with (c :: (a ++ sep ++ b)).
    destruct (startsWith (c :: a ++ sep ++ b) sep) eqn:E.
    + apply startsWith_spec in E. destruct E as [t E]. rewrite E.
      rewrite (split_hit sep t Hne).
      pose proof (split_from_nonempty sep 0 t) as Hn.
      destruct (split_from sep 0 t); [congruence | simpl; lia].
    + destruct (split_miss sep c _ E) as [h [r [E1 E2]]].
      rewrite E2. rewrite E1 in IH. simpl in *. lia.
Qed.

(** Replacing the occurrences of a string by a shorter one shortens a
    string in which it occurs. *)
Lemma replace_shorter (sep by_ a b : jsstring) :
  length by_ < length sep ->
  length (join by_ (split sep (a ++ sep ++ b))) < length (a ++ sep ++ b).
Proof.
  intros Hlt.
  assert (Hne : sep <> []) by (destruct sep; [simpl in Hlt; lia | discriminate]).
  unfold split. destruct sep as [|c0 sep0] eqn:Es; [congruence|]. rewrite <- Es in *.
  rewrite join_length.
  pose proof (split_length sep (a ++ sep ++ b) Hne) as HL.
  pose proof (split_occurrence sep a b Hne) as HO.
  set (n := length (split_from sep 0 (a ++ sep ++ b))) in *.
  set (t := total_length (split_from sep 0 (a ++ sep ++ b))) in *.
  nia.
Qed.

(** ** The regex matcher *)

(** Whatever the matcher answers was answered by its continuation, on the
    input left by a string the regex matches. *)
Lemma rmatch_sound (A : Type) (r : regex) :
  forall (s : jsstring) (cap : option jsstring)
         (k : jsstring -> option jsstring -> option A) (a : A),
    rmatch r s cap k = Some a ->
    exists m s' cap',
      s = m ++ s' /\ matches r cap m cap' /\ k s' cap' = Some a.
Proof.
  induction r as [|c|p|r1 IH1 r2 IH2|r1 IH1 r2 IH2|n r1 IH1|p|r1 IH1];
    intros s cap k a H.
  - exists [], s, cap. repeat split; [constructor | exact H].
  - simpl in H. destruct s as [|x s']; [discriminate|].
    destruct (N.eqb x c) eqn:E; [|discriminate].
    apply N.eqb_eq in E. subst x.
    exists [c], s', cap. repeat split; [constructor | exact H].
  - simpl in H. destruct s as [|x s']; [discriminate|].
    destruct (p x) eqn:E; [|discriminate].
    exists [x], s', cap. repeat split; [constructor; exact E | exact H].
  - simpl in H. apply IH1 in H. destruct H as [m1 [s1 [cap1 [-> [M1 H]]]]].
    apply IH2 in H. destruct H as [m2 [s2 [cap2 [-> [M2 H]]]]].
    exists (m1 ++ m2), s2, cap2. rewrite <- app_assoc.
    repeat split; [econstructor; eassumption | exact H].
  - simpl in H. destruct (rmatch r1 s cap k) as [a'|] eqn:E.
    + inversion H; subst a'. apply IH1 in E.
      destruct E as [m [s' [cap' [-> [M E]]]]].
      exists m, s', cap'. repeat split; [apply matches_AltL; exact M | exact E].
    + apply IH2 in H. destruct H as [m [s' [cap' [-> [M E']]]]].
      exists m, s', cap'. repeat split; [apply matches_AltR; exact M | exact E'].
  - revert s cap H. induction n as [|n IHn]; intros s cap H.
    + exists [], s, cap. repeat split; [constructor | exact H].
    + cbn in H. apply IH1 in H. destruct H as [m1 [s1 [cap1 [-> [M1 H]]]]].
      apply IHn in H. destruct H as [m2 [s2 [cap2 [-> [M2 H]]]]].
      exists (m1 ++ m2), s2, cap2. rewrite <- app_assoc.
      repeat split; [econstructor; eassumption | exact H].
  - induction s as [|x s' IHs].
    + cbn in H. destruct (k [] cap) as [a'|] eqn:E; [|discriminate].
      exists [], [], cap. repeat split; [constructor; reflexivity|].
      rewrite E. exact H.
    + cbn in H. destruct (k (x :: s') cap) as [a'|] eqn:E.
      * exists [], (x :: s'), cap. repeat split; [constructor; reflexivity|].
        rewrite E. exact H.
      * destruct (p x) eqn:Ep; [|discriminate].
        apply IHs in H. destruct H as [m [s2 [cap' [-> [M H]]]]].
        inversion M; subst.
        exists (x :: m), s2, cap'. repeat split; [|exact H].
        constructor. simpl. rewrite Ep. assumption.
  - simpl in H. apply IH1 in H. destruct H as [m [s' [cap' [-> [M H]]]]].
    exists m, s', (Some m). repeat split; [econstructor; exact M|].
    rewrite length_app, Nat.add_sub, firstn_app, Nat.sub_diag, firstn_all in H.
    simpl in H. rewrite app_nil_r in H. exact H.
Qed.

Lemma matches_lits (l : jsstring) :
  forall cap m cap',
    matches (fold_right (fun c r => Cat (Chr c) r) Eps l) cap m cap' ->
    m = l /\ cap' = cap.
Proof.
  induction l as [|c l IH]; intros cap m cap' H; simpl in H.
  - inversion H; subst. split; reflexivity.
  - inversion H as [| | |r1 r2 c0 c1 c2 m1 m2 H1 H2| | | | | |]; subst.
    inversion H1; subst. apply IH in H2. destruct H2 as [-> ->].
    split; reflexivity.
Qed.

Lemma matches_lit (s : string) (cap : option jsstring) (m : jsstring)
  (cap' : option jsstring) :
  matches (lit s) cap m cap' -> m = js s /\ cap' = cap.
Proof. apply matches_lits. Qed.

Lemma matches_rep_cls (p : N -> bool) (n : nat) :
  forall cap m cap',
    matches (Rep n (Cls p)) cap m cap' ->
    length m = n /\ forallb p m = true /\ cap' = cap.
Proof.
  induction n as [|n IH]; intros cap m cap' H.
  - inversion H; subst. repeat split.
  - inversion H as [| | | | | | |r n0 c0 c1 c2 m1 m2 H1 H2| |]; subst.
    inversion H1 as [| |p0 x c3 Hx| | | | | | |]; subst.
    apply IH in H2. destruct H2 as [Hl [Hp ->]].
    simpl. rewrite Hl, Hp, Hx. repeat split.
Qed.

(** A string matched by [linkRegex] is a link in markup form, and the
    capture is the identifier after its [#]. *)
Lemma link_shape (cap : option jsstring) (m : jsstring)
  (cap' : option jsstring) :
  matches linkRegex cap m cap' ->
  exists x mid z,
    m = js "[" ++ x ++ js "](https://github.com/" ++ mid ++ js "#" ++ z
        ++ js ")"
    /\ isShort x = true /\ forallb dot mid = true
    /\ isShaOrNone z = true /\ cap' = Some z.
Proof.
  unfold linkRegex. intros H.
  repeat match goal with
         | H : matches (Cat _ _) _ _ _ |- _ => inversion H; subst; clear H
         end.
  repeat match goal with
         | H : matches (Chr _) _ _ _ |- _ => inversion H; subst; clear H
         | H : matches (lit _) _ _ _ |- _ => apply matches_lit in H; destruct H; subst
         | H : matches (LazyStar _) _ _ _ |- _ => inversion H; subst; clear H
         | H : matches (Group _) _ _ _ |- _ => inversion H; subst; clear H
         end.
  match goal with
  | H1 : matches (Alt (Rep 6 _) _) _ ?x _,
    H2 : matches (Alt (Rep 40 _) _) _ ?z _,
    H3 : forallb dot ?mid = true |- _ =>
      exists x, mid, z
  end.
  split; [reflexivity|].
  repeat match goal with
         | H : matches (Alt _ _) _ _ _ |- _ => inversion H; subst; clear H
         | H : matches (Rep _ (Cls _)) _ _ _ |- _ =>
             apply matches_rep_cls in H; destruct H as [? [? ?]]; subst
         | H : matches (lit _) _ _ _ |- _ => apply matches_lit in H; destruct H; subst
         end;
    unfold isShort, isShaOrNone, isSha;
    repeat match goal with
           | H : length _ = _ |- _ => rewrite H
           | H : forallb _ _ = true |- _ => rewrite H
           end;
    repeat split; auto.
Qed.

Lemma match_here_sound (r : regex) (s s' : jsstring)
  (cap : option jsstring) :
  match_here r s = Some (s', cap) ->
  exists m, s = m ++ s' /\ matches r None m cap.
Proof.
  unfold match_here. intros H. apply rmatch_sound in H.
  destruct H as [m [s1 [cap1 [-> [M E]]]]]. inversion E; subst.
  exists m. split; [reflexivity | exact M].
Qed.

Lemma firstn_app_exact (m s : jsstring) :
  firstn (length (m ++ s) - length s) (m ++ s) = m.
Proof.
  rewrite length_app, Nat.add_sub, firstn_app, Nat.sub_diag, firstn_all.
  simpl. apply app_nil_r.
Qed.

Lemma regex_match_unfold (r : regex) (s : jsstring) :
  regex_match r s
  = match match_here r s with
    | Some (s', cap) => Some (firstn (length s - length s') s, cap)
    | None =>
        match s with
        | [] => None
        | _ :: t => regex_match r t
        end
    end.
Proof. destruct s; reflexivity. Qed.

Lemma regex_match_here (r : regex) (s s' : jsstring)
  (cap : option jsstring) :
  match_here r s = Some (s', cap) ->
  exists m, s = m ++ s' /\ matches r None m cap
            /\ regex_match r s = Some (m, cap).
Proof.
  intros E. rewrite regex_match_unfold, E.
  apply match_here_sound in E. destruct E as [m [-> M]].
  exists m. rewrite firstn_app_exact. repeat split. exact M.
Qed.

(** [match[0]] is a substring of the input that the regex matches. *)
Lemma regex_match_sound (r : regex) (s m0 : jsstring)
  (cap : option jsstring) :
  regex_match r s = Some (m0, cap) ->
  exists pre post, s = pre ++ m0 ++ post /\ matches r None m0 cap.
Proof.
  induction s as [|c t IH]; intros H.
  - rewrite regex_match_unfold in H.
    destruct (match_here r []) as [[s' cap']|] eqn:E; [|discriminate].
    destruct (regex_match_here _ _ _ _ E) as [m [Hs [M R]]].
    rewrite regex_match_unfold, E in R. rewrite R in H. inversion H; subst.
    exists [], s'. split; [exact Hs | exact M].
  - rewrite regex_match_unfold in H.
    destruct (match_here r (c :: t)) as [[s' cap']|] eqn:E.
    + destruct (regex_match_here _ _ _ _ E) as [m [Hs [M R]]].
      rewrite regex_match_unfold, E in R. rewrite R in H. inversion H; subst.
      exists [], s'. split; [exact Hs | exact M].
    + apply IH in H. destruct H as [pre [post [-> M]]].
      exists (c :: pre), post. split; [reflexivity | exact M].
Qed.

(** The capture of a link is shorter than the link. *)
Lemma link_capture_shorter (s m0 : jsstring) (m1 : option jsstring) :
  regex_match linkRegex s = Some (m0, m1) ->
  exists z, m1 = Some z /\ isShaOrNone z = true /\ length z + 24 <= length m0
            /\ exists pre post, s = pre ++ m0 ++ post.
Proof.
  intros H. apply regex_match_sound in H.
  destruct H as [pre [post [E M]]]. apply link_shape in M.
  destruct M as [x [mid [z [-> [Hx [Hmid [Hz ->]]]]]]].
  exists z. repeat split; [exact Hz | | exists pre, post; exact E].
  rewrite !length_app. simpl. lia.
Qed.

Lemma preprocess_step_shorter (s s' : jsstring) :
  preprocess_step s = Some s' -> length s' < length s.
Proof.
  unfold preprocess_step. intros H.
  destruct (regex_match linkRegex s) as [[m0 m1]|] eqn:E; [|discriminate].
  inversion H; subst s'; clear H.
  apply link_capture_shorter in E.
  destruct E as [z [-> [_ [Hlen [pre [post ->]]]]]].
  simpl. apply replace_shorter. lia.
Qed.

Lemma preprocess_loop_enough (fuel : nat) :
  forall s, length s < fuel ->
            exists r, preprocess_loop fuel s = Some r
                      /\ preprocess_step r = None.
Proof.
  induction fuel as [|fuel IH]; intros s Hlt; [lia|].
  cbn [preprocess_loop].
  destruct (preprocess_step s) as [s'|] eqn:E.
  - apply IH. apply preprocess_step_shorter in E. lia.
  - exists s. split; [reflexivity | exact E].
Qed.

Lemma preprocess_loop_more (fuel : nat) :
  forall s r fuel',
    preprocess_loop fuel s = Some r -> fuel <= fuel' ->
    preprocess_loop fuel' s = Some r.
Proof.
  induction fuel as [|fuel IH]; intros s r fuel' H Hle; [discriminate|].
  destruct fuel' as [|fuel']; [lia|].
  cbn [preprocess_loop] in *.
  destruct (preprocess_step s) as [s'|]; [|exact H].
  apply (IH _ _ _ H). lia.
Qed.

Lemma preprocess_loop_unique (fuel fuel' : nat) (s r r' : jsstring) :
  preprocess_loop fuel s = Some r -> preprocess_loop fuel' s = Some r' ->
  r = r'.
Proof.
  intros H H'.
  apply (preprocess_loop_more _ _ _ (Nat.max fuel fuel')) in H; [|lia].
  apply (preprocess_loop_more _ _ _ (Nat.max fuel fuel')) in H'; [|lia].
  congruence.
Qed.

(** The normal form: the loop has stopped on [preprocessCommitMessage s]. *)
Lemma preprocess_normal (s : jsstring) :
  preprocess_loop (S (length s)) s = Some (preprocessCommitMessage s)
  /\ preprocess_step (preprocessCommitMessage s) = None.
Proof.
  unfold preprocessCommitMessage.
  destruct (preprocess_loop_enough (S (length s)) s) as [r [E N]]; [lia|].
  rewrite E. split; [reflexivity | exact N].
Qed.

(** C10. [preprocessCommitMessage] terminates on every string.  A turn of
    its loop replaces the occurrences of the matched link by the captured
    identifier (40 hexadecimal digits or [None]), which is shorter than the
    link, so that the turn strictly shortens the message; the loop
    therefore stops within [length s] turns, on a message without a link,
    which is what the function returns. *)
Theorem preprocessCommitMessage_terminates (s : jsstring) :
  (forall m0 m1,
      regex_match linkRegex s = Some (m0, m1) ->
      exists z, m1 = Some z /\ isShaOrNone z = true
                /\ length z < length m0
                /\ preprocess_step s = Some (join z (split m0 s))
                /\ length (join z (split m0 s)) < length s)
  /\ (exists r,
         (forall fuel, length s < fuel -> preprocess_loop fuel s = Some r)
         /\ regex_match linkRegex r = None
         /\ preprocessCommitMessage s = r).
Proof.
  split.
  - intros m0 m1 E.
    destruct (link_capture_shorter _ _ _ E) as [z [-> [Hz [Hlen _]]]].
    assert (Hs : preprocess_step s = Some (join z (split m0 s))).
    { unfold preprocess_step. rewrite E. reflexivity. }
    exists z. repeat split; [exact Hz | lia | exact Hs |].
    exact (preprocess_step_shorter _ _ Hs).
  - exists (preprocessCommitMessage s).
    destruct (preprocess_normal s) as [E N].
    repeat split.
    + intros fuel Hlt.
      destruct (preprocess_loop_enough fuel s Hlt) as [r [E' _]].
      rewrite E'. f_equal. exact (preprocess_loop_unique _ _ _ _ _ E' E).
    + unfold preprocess_step in N.
      destruct (regex_match linkRegex (preprocessCommitMessage s)) as [[? ?]|];
        [discriminate | reflexivity].
Qed.

(** ** The matcher on a link *)

Lemma rmatch_lits (A : Type) (l s : jsstring) (cap : option jsstring)
  (k : jsstring -> option jsstring -> option A) :
  rmatch (fold_right (fun c r => Cat (Chr c) r) Eps l) (l ++ s) cap k
  = k s cap.
Proof.
  induction l as [|c l IH]; simpl; [reflexivity|].
  rewrite N.eqb_refl. exact IH.
Qed.

Lemma rmatch_lit (A : Type) (str : string) (s : jsstring)
  (cap : option jsstring) (k : jsstring -> option jsstring -> option A) :
  rmatch (lit str) (js str ++ s) cap k = k s cap.
Proof. apply rmatch_lits. Qed.

Lemma rmatch_rep_cls (A : Type) (p : N -> bool) (x s : jsstring)
  (cap : option jsstring) (k : jsstring -> option jsstring -> option A) :
  forallb p x = true ->
  rmatch (Rep (length x) (Cls p)) (x ++ s) cap k = k s cap.
Proof.
  induction x as [|c x IH]; intros H; [reflexivity|].
  simpl in H. apply andb_true_iff in H. destruct H as [Hc Hx].
  cbn. rewrite Hc. apply IH. exact Hx.
Qed.

Lemma rmatch_alt (A : Type) (r1 r2 : regex) (s : jsstring)
  (cap : option jsstring) (k : jsstring -> option jsstring -> option A) :
  rmatch (Alt r1 r2) s cap k
  = match rmatch r1 s cap k with
    | Some a => Some a
    | None => rmatch r2 s cap k
    end.
Proof. reflexivity. Qed.

Lemma rmatch_cat (A : Type) (r1 r2 : regex) (s : jsstring)
  (cap : option jsstring) (k : jsstring -> option jsstring -> option A) :
  rmatch (Cat r1 r2) s cap k
  = rmatch r1 s cap (fun s1 cap1 => rmatch r2 s1 cap1 k).
Proof. reflexivity. Qed.

Lemma rmatch_group (A : Type) (r : regex) (s : jsstring)
  (cap : option jsstring) (k : jsstring -> option jsstring -> option A) :
  rmatch (Group r) s cap k
  = rmatch r s cap
      (fun s1 _ => k s1 (Some (firstn (length s - length s1) s))).
Proof. reflexivity. Qed.

Lemma rmatch_chr (A : Type) (c : N) (s : jsstring)
  (cap : option jsstring) (k : jsstring -> option jsstring -> option A) :
  rmatch (Chr c) (c :: s) cap k = k s cap.
Proof. simpl. rewrite N.eqb_refl. reflexivity. Qed.

(** The two forms of an identifier exclude each other: a matcher that has
    taken the hexadecimal form cannot fall back on ["None"]. *)
Lemma rmatch_hex_or_none (A : Type) (n : nat) (x s : jsstring)
  (cap : option jsstring) (k : jsstring -> option jsstring -> option A) :
  (length x = S n /\ forallb hexLower x = true) \/ x = js "None" ->
  rmatch (Alt (Rep (S n) (Cls hexLower)) (lit "None")) (x ++ s) cap k
  = k s cap.
Proof.
  intros [[Hl Hx] | ->]; rewrite rmatch_alt.
  - rewrite <- Hl, (rmatch_rep_cls A hexLower x s cap k Hx).
    destruct (k s cap) as [a|] eqn:E; [reflexivity|].
    destruct x as [|c x]; [discriminate|].
    simpl in Hx. apply andb_true_iff in Hx. destruct Hx as [Hc _].
    simpl. destruct (N.eqb c 78) eqn:E78; [|reflexivity].
    apply N.eqb_eq in E78. subst c. discriminate.
  - rewrite rmatch_lit. reflexivity.
Qed.

Lemma rmatch_group_id (A : Type) (z s : jsstring) (cap : option jsstring)
  (k : jsstring -> option jsstring -> option A) :
  isShaOrNone z = true ->
  rmatch (Group (Alt (Rep 40 (Cls hexLower)) (lit "None"))) (z ++ s) cap k
  = k s (Some z).
Proof.
  intros Hz. rewrite rmatch_group, rmatch_hex_or_none.
  - rewrite firstn_app_exact. reflexivity.
  - unfold isShaOrNone, isSha in Hz. apply orb_true_iff in Hz.
    destruct Hz as [Hz|Hz].
    + apply andb_true_iff in Hz. destruct Hz as [Hl Hx].
      apply Nat.eqb_eq in Hl. left. split; assumption.
    + apply str_eqb_eq in Hz. right. exact Hz.
Qed.

(** A lazy star stops at the first place from which the rest of the
    pattern matches. *)
Lemma rmatch_lazy_star (A : Type) (p : N -> bool) (mid s : jsstring)
  (cap : option jsstring) (k : jsstring -> option jsstring -> option A)
  (a : A) :
  forallb p mid = true ->
  (forall u c v, mid = u ++ c :: v -> k (c :: v ++ s) cap = None) ->
  k s cap = Some a ->
  rmatch (LazyStar p) (mid ++ s) cap k = Some a.
Proof.
  induction mid as [|c mid IH]; intros Hp Hk Ha.
  - destruct s as [|x s]; cbn; rewrite Ha; reflexivity.
  - simpl in Hp. apply andb_true_iff in Hp. destruct Hp as [Hc Hm].
    cbn. rewrite (Hk [] c mid eq_refl), Hc.
    apply IH; [exact Hm | | exact Ha].
    intros u c' v E. apply (Hk (c :: u) c' v). rewrite E. reflexivity.
Qed.

Lemma linkRegex_unfold :
  linkRegex
  = Cat (Chr (ch "["))
      (Cat (Alt (Rep 6 (Cls hexLower)) (lit "None"))
         (Cat (lit "](https://github.com/")
            (Cat (LazyStar dot) linkTail))).
Proof. reflexivity. Qed.

Lemma linkTail_match (A : Type) (z s : jsstring) (cap : option jsstring)
  (k : jsstring -> option jsstring -> option A) :
  isShaOrNone z = true ->
  rmatch linkTail (js "#" ++ z ++ js ")" ++ s) cap k = k s (Some z).
Proof.
  intros Hz. unfold linkTail. rewrite rmatch_cat.
  change (js "#" ++ z ++ js ")" ++ s) with (ch "#" :: (z ++ js ")" ++ s)).
  rewrite rmatch_chr, rmatch_cat, (rmatch_group_id _ z _ _ _ Hz).
  change (js ")" ++ s) with (ch ")" :: s). apply rmatch_chr.
Qed.

Lemma linkTail_sound (A : Type) (t : jsstring) (cap : option jsstring)
  (k : jsstring -> option jsstring -> option A) (a : A) :
  rmatch linkTail t cap k = Some a -> tailHere t = true.
Proof.
  intros H. apply rmatch_sound in H.
  destruct H as [m [s' [cap' [-> [M _]]]]]. unfold linkTail in M.
  inversion M as [| | |r1 r2 c0 c1 c2 m1 m2 M1 M2| | | | | |]; subst.
  inversion M1; subst.
  inversion M2 as [| | |r1 r2 c0 c3 c4 m3 m4 M3 M4| | | | | |]; subst.
  inversion M4; subst.
  inversion M3 as [| | | | | | | | |r c0 c5 m5 M5]; subst.
  assert (Hz : (length m3 = 40 /\ forallb hexLower m3 = true)
               \/ m3 = js "None").
  { inversion M5; subst.
    - left. match goal with
            | H : matches (Rep _ _) _ _ _ |- _ =>
                apply matches_rep_cls in H; destruct H as [? [? _]]
            end. split; assumption.
    - right. match goal with
             | H : matches (lit _) _ _ _ |- _ =>
                 apply matches_lit in H; destruct H as [? _]
             end. assumption. }
  unfold tailHere. cbn [app]. rewrite N.eqb_refl. cbn [andb].
  apply orb_true_iff. destruct Hz as [[Hl Hx] | ->].
  - right. rewrite <- !app_assoc.
    rewrite firstn_app, <- Hl, firstn_all, Nat.sub_diag. cbn [firstn].
    rewrite app_nil_r. unfold isSha. rewrite Hl, Hx. cbn [Nat.eqb andb].
    rewrite skipn_app, Hl, skipn_all2 by lia.
    rewrite <- Hl, Nat.sub_diag. reflexivity.
  - left. reflexivity.
Qed.

Lemma startsWith_without (c : N) (p t rest : jsstring) :
  ~ In c p ->
  startsWith (t ++ c :: rest) p = true -> startsWith t p = true.
Proof.
  revert t. induction p as [|y p IH]; intros t Hn H; [reflexivity|].
  destruct t as [|x t]; simpl in H.
  - apply andb_true_iff in H. destruct H as [H _]. apply N.eqb_eq in H.
    exfalso. apply Hn. left. symmetry. exact H.
  - apply andb_true_iff in H. destruct H as [H1 H2]. simpl. rewrite H1.
    apply IH; [|exact H2]. intros Hin. apply Hn. right; exact Hin.
Qed.

(** An end of a link has no [#] after its first character: it lies in
    what comes before the next [#]. *)
Lemma tailHere_before_hash (b rest : jsstring) :
  b <> [] -> tailHere (b ++ ch "#" :: rest) = true -> tailHere b = true.
Proof.
  intros Hb H. destruct b as [|c t]; [congruence|].
  cbn [app] in H. unfold tailHere in *.
  remember 40 as n40 eqn:E40.
  apply andb_true_iff in H. destruct H as [Hc H]. rewrite Hc. cbn [andb].
  apply orb_true_iff in H. apply orb_true_iff. destruct H as [H|H].
  - left. apply (startsWith_without (ch "#") _ t rest); [|exact H].
    vm_compute. intuition discriminate.
  - right. apply andb_true_iff in H. destruct H as [Hs Hp].
    assert (Hlen : n40 <= length t).
    { destruct (le_lt_dec n40 (length t)) as [Hle|Hlt]; [exact Hle|].
      exfalso. unfold isSha in Hs. apply andb_true_iff in Hs.
      destruct Hs as [_ Hx]. rewrite firstn_app in Hx.
      rewrite forallb_app in Hx. apply andb_true_iff in Hx.
      destruct Hx as [_ Hx].
      destruct (n40 - length t) as [|d] eqn:Ed; [lia|].
      simpl in Hx. discriminate. }
    rewrite firstn_app in Hs.
    replace (n40 - length t) with 0 in Hs by lia.
    rewrite firstn_O, app_nil_r in Hs. rewrite Hs. cbn [andb].
    rewrite skipn_app in Hp. replace (n40 - length t) with 0 in Hp by lia.
    rewrite skipn_O in Hp.
    apply (startsWith_without (ch "#") _ _ rest); [|exact Hp].
    vm_compute. intuition discriminate.
Qed.

Lemma isShort_cases (x : jsstring) :
  isShort x = true ->
  (length x = 6 /\ forallb hexLower x = true) \/ x = js "None".
Proof.
  unfold isShort. intros H. apply orb_true_iff in H. destruct H as [H|H].
  - apply andb_true_iff in H. destruct H as [Hl Hx].
    apply Nat.eqb_eq in Hl. left. split; assumption.
  - apply str_eqb_eq in H. right. exact H.
Qed.

Lemma isShaOrNone_cases (z : jsstring) :
  isShaOrNone z = true ->
  (length z = 40 /\ forallb hexLower z = true) \/ z = js "None".
Proof.
  unfold isShaOrNone, isSha. intros H. apply orb_true_iff in H.
  destruct H as [H|H].
  - apply andb_true_iff in H. destruct H as [Hl Hx].
    apply Nat.eqb_eq in Hl. left. split; assumption.
  - apply str_eqb_eq in H. right. exact H.
Qed.

(** The pattern, anchored at a link whose path has no end of a link
    inside, matches the link and captures its identifier. *)
Lemma match_here_link (short mid z rest : jsstring) :
  isShort short = true ->
  isShaOrNone z = true ->
  forallb dot mid = true ->
  (forall u c v,
      mid = u ++ c :: v ->
      tailHere (c :: v ++ js "#" ++ z ++ js ")" ++ rest) = false) ->
  match_here linkRegex (link short mid z ++ rest) = Some (rest, Some z).
Proof.
  intros Hs Hz Hmid Hno. unfold match_here, link.
  rewrite linkRegex_unfold, rmatch_cat.
  rewrite <- !app_assoc.
  change (js "[" ++ short ++ js "](https://github.com/" ++ mid ++ js "#"
          ++ z ++ js ")" ++ rest)
    with (ch "[" :: (short ++ js "](https://github.com/" ++ mid ++ js "#"
                     ++ z ++ js ")" ++ rest)).
  rewrite rmatch_chr, rmatch_cat.
  rewrite (rmatch_hex_or_none _ 5 short _ _ _ (isShort_cases short Hs)).
  rewrite rmatch_cat, rmatch_lit, rmatch_cat.
  apply rmatch_lazy_star.
  - exact Hmid.
  - intros u c v E.
    destruct (rmatch linkTail (c :: v ++ js "#" ++ z ++ js ")" ++ rest) None
                (fun s' cap => Some (s', cap))) as [a|] eqn:Ea;
      [|reflexivity].
    apply linkTail_sound in Ea. rewrite (Hno u c v E) in Ea. discriminate.
  - rewrite (linkTail_match _ z rest None _ Hz). reflexivity.
Qed.

Lemma match_here_other (c : N) (s : jsstring) :
  N.eqb c (ch "[") = false -> match_here linkRegex (c :: s) = None.
Proof.
  intros H. unfold match_here. rewrite linkRegex_unfold, rmatch_cat.
  cbn [rmatch]. rewrite H. reflexivity.
Qed.

Lemma match_here_nil : match_here linkRegex [] = None.
Proof. reflexivity. Qed.

(** The search passes over a prefix without [[]. *)
Lemma regex_match_skip (pre s : jsstring) :
  forallb (notChar (ch "[")) pre = true ->
  regex_match linkRegex (pre ++ s) = regex_match linkRegex s.
Proof.
  induction pre as [|c pre IH]; intros H; [reflexivity|].
  simpl in H. apply andb_true_iff in H. destruct H as [Hc Hp].
  unfold notChar in Hc. apply negb_true_iff in Hc.
  change ((c :: pre) ++ s) with (c :: (pre ++ s)).
  rewrite regex_match_unfold, (match_here_other c _ Hc). apply IH. exact Hp.
Qed.

Lemma regex_match_link (pre short mid z rest : jsstring) :
  forallb (notChar (ch "[")) pre = true ->
  isShort short = true ->
  isShaOrNone z = true ->
  forallb dot mid = true ->
  (forall u c v,
      mid = u ++ c :: v ->
      tailHere (c :: v ++ js "#" ++ z ++ js ")" ++ rest) = false) ->
  regex_match linkRegex (pre ++ link short mid z ++ rest)
  = Some (link short mid z, Some z).
Proof.
  intros Hpre Hs Hz Hmid Hno. rewrite (regex_match_skip pre _ Hpre).
  destruct (regex_match_here linkRegex (link short mid z ++ rest) rest
              (Some z) (match_here_link short mid z rest Hs Hz Hmid Hno))
    as [m [E [_ R]]].
  apply app_inv_tail in E. subst m. exact R.
Qed.

(** In a path made of a part without [#] and of a file name without the
    end of a link, no end of a link starts. *)
Lemma path_no_tail (pre file rest : jsstring) :
  forallb (notChar (ch "#")) pre = true ->
  noLinkTail file = true ->
  forall u c v,
    pre ++ file = u ++ c :: v ->
    tailHere (c :: v ++ js "#" ++ rest) = false.
Proof.
  intros Hpre. revert file. induction pre as [|x pre IH]; intros file Hf u c v E.
  - simpl in E. subst file. clear Hpre.
    induction u as [|y u IHu].
    + cbn [noLinkTail app] in Hf. apply andb_true_iff in Hf.
      destruct Hf as [Hf _]. apply negb_true_iff in Hf.
      destruct (tailHere (c :: v ++ js "#" ++ rest)) eqn:Et; [|reflexivity].
      change (c :: v ++ js "#" ++ rest)
        with ((c :: v) ++ ch "#" :: rest) in Et.
      apply tailHere_before_hash in Et; [congruence | discriminate].
    + apply IHu. cbn [noLinkTail app] in Hf. apply andb_true_iff in Hf.
      tauto.
  - cbn [forallb] in Hpre. apply andb_true_iff in Hpre.
    destruct Hpre as [Hx Hp]. destruct u as [|y u].
    + simpl in E. inversion E; subst. unfold notChar in Hx.
      apply negb_true_iff in Hx. unfold tailHere. rewrite Hx. reflexivity.
    + simpl in E. inversion E; subst. apply (IH Hp file Hf u c v). assumption.
Qed.

(** ** Replacing the occurrences of a string *)

Lemma replaceAll_hit (m r s : jsstring) :
  m <> [] -> replaceAll m r (m ++ s) = r ++ replaceAll m r s.
Proof.
  intros Hne. unfold replaceAll, split.
  destruct m as [|c0 m'] eqn:Em; [congruence|]. rewrite <- Em in *.
  rewrite (split_hit m s Hne).
  pose proof (split_from_nonempty m 0 s) as Hn.
  destruct (split_from m 0 s) as [|h t]; [congruence|]. reflexivity.
Qed.

Lemma replaceAll_miss (m r : jsstring) (c : N) (s : jsstring) :
  m <> [] -> startsWith (c :: s) m = false ->
  replaceAll m r (c :: s) = c :: replaceAll m r s.
Proof.
  intros Hne H. unfold replaceAll, split.
  destruct m as [|c0 m'] eqn:Em; [congruence|]. rewrite <- Em in *.
  destruct (split_miss m c s H) as [h [t [E1 E2]]]. rewrite E1, E2.
  destruct t as [|p t]; reflexivity.
Qed.

(** A prefix in which no occurrence starts is left as it is. *)
Lemma replaceAll_pass (m r x s : jsstring) :
  m <> [] ->
  (forall u c v, x = u ++ c :: v -> startsWith (c :: v ++ s) m = false) ->
  replaceAll m r (x ++ s) = x ++ replaceAll m r s.
Proof.
  intros Hne. induction x as [|c x IH]; intros H; [reflexivity|].
  change ((c :: x) ++ s) with (c :: (x ++ s)).
  rewrite (replaceAll_miss m r c (x ++ s) Hne (H [] c x eq_refl)).
  cbn [app]. f_equal. apply IH. intros u c' v E.
  apply (H (c :: u) c' v). rewrite E. reflexivity.
Qed.

Lemma startsWith_first (c c0 : N) (s m : jsstring) :
  N.eqb c c0 = false -> startsWith (c :: s) (c0 :: m) = false.
Proof. intros H. simpl. rewrite H. reflexivity. Qed.

Lemma replaceAll_pass_other (c0 : N) (m r x s : jsstring) :
  forallb (notChar c0) x = true ->
  replaceAll (c0 :: m) r (x ++ s) = x ++ replaceAll (c0 :: m) r s.
Proof.
  intros H. apply replaceAll_pass; [discriminate|].
  intros u c v E. subst x. rewrite forallb_app in H.
  apply andb_true_iff in H. destruct H as [_ H]. cbn [forallb] in H.
  apply andb_true_iff in H. destruct H as [H _]. unfold notChar in H.
  apply negb_true_iff in H. apply startsWith_first. exact H.
Qed.

(** A string without a line terminator that starts a text ends before
    the first line feed of the text. *)
Lemma startsWith_dot_length (m u w : jsstring) :
  forallb dot m = true ->
  startsWith (u ++ 10%N :: w) m = true -> length m <= length u.
Proof.
  revert u. induction m as [|y m IH]; intros u Hd H; [simpl; lia|].
  cbn [forallb] in Hd. apply andb_true_iff in Hd. destruct Hd as [Hy Hm].
  destruct u as [|x u].
  - exfalso. cbn [app startsWith] in H. apply andb_true_iff in H.
    destruct H as [H _]. apply N.eqb_eq in H. subst y. discriminate.
  - simpl in H. apply andb_true_iff in H. destruct H as [_ H].
    simpl. apply le_n_S. apply IH; assumption.
Qed.

Lemma startsWith_same_length (s m rest : jsstring) :
  length m = length s -> startsWith (s ++ rest) m = true -> m = s.
Proof.
  revert s. induction m as [|y m IH]; intros s Hl H.
  - destruct s; [reflexivity | discriminate].
  - destruct s as [|x s]; [discriminate|].
    simpl in H. apply andb_true_iff in H. destruct H as [H1 H2].
    apply N.eqb_eq in H1. subst y. f_equal. apply (IH s); [|exact H2].
    simpl in Hl. lia.
Qed.

Lemma app_inj_length (A : Type) (a a' b b' : list A) :
  length a = length a' -> a ++ b = a' ++ b' -> a = a' /\ b = b'.
Proof.
  revert a'. induction a as [|x a IH]; intros [|x' a'] Hl E;
    try discriminate.
  - split; [reflexivity | exact E].
  - simpl in E. inversion E; subst. simpl in Hl.
    destruct (IH a' (eq_add_S _ _ Hl) H1) as [-> ->].
    split; reflexivity.
Qed.

(** ** Characters *)

Lemma hexLower_dot (c : N) : hexLower c = true -> dot c = true.
Proof.
  unfold hexLower, dot, lineTerminator. intros H.
  apply orb_true_iff in H.
  rewrite !andb_true_iff, !N.leb_le in H.
  apply negb_true_iff. rewrite !orb_false_iff, !N.eqb_neq. lia.
Qed.

Lemma hexLower_plain (c : N) : hexLower c = true -> plainChar c = true.
Proof.
  intros H. unfold plainChar. rewrite (hexLower_dot c H).
  unfold hexLower in H. apply orb_true_iff in H.
  rewrite !andb_true_iff, !N.leb_le in H.
  rewrite !andb_true_iff, !negb_true_iff, !N.eqb_neq.
  unfold ch. simpl. lia.
Qed.

Lemma plainChar_dot (c : N) : plainChar c = true -> dot c = true.
Proof.
  unfold plainChar. rewrite !andb_true_iff. tauto.
Qed.

Lemma plainChar_not_bracket (c : N) :
  plainChar c = true -> notChar (ch "[") c = true.
Proof.
  unfold plainChar, notChar. rewrite !andb_true_iff. tauto.
Qed.

Lemma plainChar_not_hash (c : N) :
  plainChar c = true -> notChar (ch "#") c = true.
Proof.
  unfold plainChar, notChar. rewrite !andb_true_iff. tauto.
Qed.

Lemma forallb_impl (A : Type) (p q : A -> bool) (l : list A) :
  (forall a, p a = true -> q a = true) ->
  forallb p l = true -> forallb q l = true.
Proof.
  intros Hpq. induction l as [|a l IH]; [reflexivity|].
  cbn [forallb]. rewrite !andb_true_iff. intros [Ha Hl].
  split; [apply Hpq; exact Ha | apply IH; exact Hl].
Qed.

Lemma forallb_firstn (A : Type) (p : A -> bool) (n : nat) (l : list A) :
  forallb p l = true -> forallb p (firstn n l) = true.
Proof.
  revert n. induction l as [|a l IH]; intros [|n] H; try reflexivity.
  cbn [forallb firstn] in *. apply andb_true_iff in H. destruct H as [Ha Hl].
  rewrite Ha. apply IH. exact Hl.
Qed.

(** An identifier is made of plain characters. *)
Lemma isShaOrNone_plain (z : jsstring) :
  isShaOrNone z = true -> forallb plainChar z = true.
Proof.
  intros H. destruct (isShaOrNone_cases z H) as [[_ Hx] | ->].
  - apply (forallb_impl _ hexLower); [exact hexLower_plain | exact Hx].
  - reflexivity.
Qed.

Lemma isSha_plain (z : jsstring) :
  isSha z = true -> forallb plainChar z = true.
Proof.
  intros H. apply isShaOrNone_plain. unfold isShaOrNone. rewrite H.
  reflexivity.
Qed.

Lemma isSha_length (z : jsstring) : isSha z = true -> length z = 40.
Proof.
  unfold isSha. intros H. apply andb_true_iff in H. destruct H as [H _].
  apply Nat.eqb_eq. exact H.
Qed.

(** The display form of an identifier. *)
Lemma slice0_short (z : jsstring) :
  isShaOrNone z = true -> isShort (slice0 6 z) = true.
Proof.
  intros H. destruct (isShaOrNone_cases z H) as [[Hl Hx] | ->].
  - unfold isShort, slice0. rewrite length_firstn, Hl.
    rewrite (forallb_firstn _ hexLower 6 z Hx). reflexivity.
  - reflexivity.
Qed.

(** ** Normalization of the comments of the generation pass *)

Lemma link_cons (short mid z : jsstring) :
  link short mid z
  = ch "[" :: (short ++ js "](https://github.com/" ++ mid ++ js "#" ++ z
               ++ js ")").
Proof. reflexivity. Qed.

Lemma link_length (short mid z : jsstring) :
  length (link short mid z) = length short + length mid + length z + 24.
Proof. unfold link. rewrite !length_app. simpl. lia. Qed.

Lemma blobPath_length (own rep commit file : jsstring) :
  length (blobPath own rep commit file)
  = length own + length rep + length commit + length file + 8.
Proof. unfold blobPath. rewrite !length_app. simpl. lia. Qed.

Lemma isShort_dot (x : jsstring) : isShort x = true -> forallb dot x = true.
Proof.
  intros H. destruct (isShort_cases x H) as [[_ Hx] | ->].
  - apply (forallb_impl _ hexLower); [exact hexLower_dot | exact Hx].
  - reflexivity.
Qed.

Lemma isShort_not_bracket (x : jsstring) :
  isShort x = true -> forallb (notChar (ch "[")) x = true.
Proof.
  intros H. destruct (isShort_cases x H) as [[_ Hx] | ->].
  - apply (forallb_impl _ hexLower); [|exact Hx].
    intros c Hc. apply plainChar_not_bracket, hexLower_plain, Hc.
  - reflexivity.
Qed.

Lemma link_dot (short mid z : jsstring) :
  isShort short = true -> forallb dot mid = true ->
  isShaOrNone z = true -> forallb dot (link short mid z) = true.
Proof.
  intros Hs Hm Hz. unfold link. rewrite !forallb_app.
  rewrite (isShort_dot short Hs), Hm.
  rewrite (forallb_impl _ plainChar dot z plainChar_dot
             (isShaOrNone_plain z Hz)).
  reflexivity.
Qed.

Section Normalization.

Variables own rep base head file o s_ : jsstring.

Hypothesis Hown : plainName own = true.
Hypothesis Hrep : plainName rep = true.
Hypothesis Hbase : isSha base = true.
Hypothesis Hhead : isSha head = true.
Hypothesis Hfile : plainFile file = true.
Hypothesis Ho : isShaOrNone o = true.
Hypothesis Hs : isShaOrNone s_ = true.

Local Notation "'L1'" := (link (slice0 6 o) (blobPath own rep base file) o).
Local Notation "'L2'" := (link (slice0 6 s_) (blobPath own rep head file) s_).

Lemma file_dot : forallb dot file = true.
Proof.
  unfold plainFile in Hfile. apply andb_true_iff in Hfile. tauto.
Qed.

Lemma file_no_tail : noLinkTail file = true.
Proof.
  unfold plainFile in Hfile. apply andb_true_iff in Hfile. tauto.
Qed.

(** The part of a path before the file name. *)
Lemma blobPath_split (commit : jsstring) :
  blobPath own rep commit file
  = (own ++ js "/" ++ rep ++ js "/blob/" ++ commit ++ js "/") ++ file.
Proof. unfold blobPath. rewrite <- !app_assoc. reflexivity. Qed.

Lemma before_file_plain (commit : jsstring) :
  isSha commit = true ->
  forallb plainChar
    (own ++ js "/" ++ rep ++ js "/blob/" ++ commit ++ js "/") = true.
Proof.
  intros Hc. rewrite !forallb_app. unfold plainName in Hown, Hrep.
  rewrite Hown, Hrep, (isSha_plain commit Hc). reflexivity.
Qed.

Lemma blobPath_dot (commit : jsstring) :
  isSha commit = true -> forallb dot (blobPath own rep commit file) = true.
Proof.
  intros Hc. rewrite blobPath_split, forallb_app, file_dot.
  rewrite (forallb_impl _ plainChar dot _ plainChar_dot
             (before_file_plain commit Hc)).
  reflexivity.
Qed.

Lemma blobPath_no_tail (commit rest : jsstring) :
  isSha commit = true ->
  forall u c v,
    blobPath own rep commit file = u ++ c :: v ->
    tailHere (c :: v ++ js "#" ++ rest) = false.
Proof.
  intros Hc u c v E. rewrite blobPath_split in E.
  apply (path_no_tail _ file rest
           (forallb_impl _ plainChar _ _ plainChar_not_hash
              (before_file_plain commit Hc))
           file_no_tail u c v E).
Qed.

(** The leftmost link of a text that starts, after a prefix without [[],
    with a link of the generation pass, is that link. *)
Lemma regex_match_generated (pre commit z rest : jsstring) :
  forallb (notChar (ch "[")) pre = true ->
  isSha commit = true ->
  isShaOrNone z = true ->
  regex_match linkRegex
    (pre ++ link (slice0 6 z) (blobPath own rep commit file) z ++ rest)
  = Some (link (slice0 6 z) (blobPath own rep commit file) z, Some z).
Proof.
  intros Hpre Hc Hz. apply regex_match_link.
  - exact Hpre.
  - apply slice0_short. exact Hz.
  - exact Hz.
  - apply blobPath_dot. exact Hc.
  - intros u c v E. apply (blobPath_no_tail commit _ Hc u c v E).
Qed.

Lemma L1_dot : forallb dot L1 = true.
Proof.
  apply link_dot; [apply slice0_short; exact Ho | apply blobPath_dot; exact Hbase | exact Ho].
Qed.

Lemma L1_length :
  length L1
  = length (slice0 6 o) + length own + length rep + length file
    + length o + 72.
Proof.
  rewrite link_length, blobPath_length, (isSha_length base Hbase). lia.
Qed.

Lemma id_length (z : jsstring) :
  isShaOrNone z = true -> 4 <= length z <= 40.
Proof.
  intros H. destruct (isShaOrNone_cases z H) as [[Hl _] | ->]; simpl; lia.
Qed.

(** No occurrence of the first link starts inside the file name of the
    second. *)
Lemma L1_not_in_file (text : jsstring) :
  forall u c v,
    file = u ++ c :: v ->
    startsWith (c :: v ++ (js "#" ++ s_ ++ js "):" ++ nl) ++ text) L1
    = false.
Proof.
  intros u c v E.
  destruct (startsWith (c :: v ++ (js "#" ++ s_ ++ js "):" ++ nl) ++ text) L1)
    eqn:Es; [|reflexivity].
  exfalso.
  assert (Hl : length L1 <= length ((c :: v) ++ js "#" ++ s_ ++ js "):")).
  { apply (startsWith_dot_length L1 _ text L1_dot).
    replace (((c :: v) ++ js "#" ++ s_ ++ js "):") ++ 10%N :: text)
      with (c :: v ++ (js "#" ++ s_ ++ js "):" ++ nl) ++ text);
      [exact Es|].
    unfold nl. cbn [app]. rewrite <- !app_assoc. reflexivity. }
  rewrite L1_length in Hl. rewrite !length_app in Hl.
  assert (Hf : length (c :: v) <= length file)
    by (rewrite E, length_app; lia).
  pose proof (id_length s_ Hs). simpl in Hl, Hf. lia.
Qed.

(** An occurrence of the first link at the start of the second is the
    second link. *)
Lemma L1_at_L2 (rest : jsstring) :
  startsWith (L2 ++ rest) L1 = true -> L1 = L2 /\ o = s_.
Proof.
  intros H.
  destruct (isShaOrNone_cases o Ho) as [[Hlo Hxo] | Eo];
    destruct (isShaOrNone_cases s_ Hs) as [[Hls Hxs] | Es].
  - assert (Hlen : length L1 = length L2).
    { rewrite !link_length, !blobPath_length.
      unfold slice0. rewrite !length_firstn, Hlo, Hls.
      rewrite (isSha_length base Hbase), (isSha_length head Hhead).
      reflexivity. }
    pose proof (startsWith_same_length L2 L1 rest Hlen H) as E.
    split; [exact E|].
    unfold link in E. apply app_inv_head in E.
    apply app_inj_length in E;
      [|unfold slice0; rewrite !length_firstn, Hlo, Hls; reflexivity].
    destruct E as [_ E]. apply app_inv_head in E.
    apply app_inj_length in E;
      [|rewrite !blobPath_length, (isSha_length base Hbase),
          (isSha_length head Hhead); reflexivity].
    destruct E as [_ E]. apply app_inv_head in E.
    apply app_inv_tail in E. exact E.
  - exfalso. subst s_. destruct o as [|c o']; [discriminate|].
    cbn [forallb] in Hxo. apply andb_true_iff in Hxo. destruct Hxo as [Hc _].
    rewrite !link_cons in H. cbn [app startsWith slice0 firstn] in H.
    apply andb_true_iff in H. destruct H as [_ H].
    apply andb_true_iff in H. destruct H as [H _].
    apply N.eqb_eq in H. subst c. discriminate.
  - exfalso. subst o. destruct s_ as [|c s']; [discriminate|].
    cbn [forallb] in Hxs. apply andb_true_iff in Hxs. destruct Hxs as [Hc _].
    rewrite !link_cons in H. cbn [app startsWith slice0 firstn] in H.
    apply andb_true_iff in H. destruct H as [_ H].
    apply andb_true_iff in H. destruct H as [H _].
    apply N.eqb_eq in H. subst c. discriminate.
  - assert (Hlen : length L1 = length L2).
    { rewrite !link_length, !blobPath_length.
      rewrite (isSha_length base Hbase), (isSha_length head Hhead).
      rewrite Eo, Es. reflexivity. }
    split; [|rewrite Eo, Es; reflexivity].
    exact (startsWith_same_length _ _ rest Hlen H).
Qed.


Lemma replaceAll_pass_bracket (m mt r x s : jsstring) :
  m = ch "[" :: mt ->
  forallb (notChar (ch "[")) x = true ->
  replaceAll m r (x ++ s) = x ++ replaceAll m r s.
Proof. intros ->. apply replaceAll_pass_other. Qed.

Lemma id_not_bracket (z : jsstring) :
  isShaOrNone z = true -> forallb (notChar (ch "[")) z = true.
Proof.
  intros H. apply (forallb_impl _ plainChar _ _ plainChar_not_bracket).
  apply isShaOrNone_plain. exact H.
Qed.

(** The second link, cut around the file name. *)
Lemma L2_parts (text : jsstring) :
  L2 ++ js ":" ++ nl ++ text
  = ch "[" ::
    (slice0 6 s_ ++ js "](https://github.com/"
     ++ own ++ js "/" ++ rep ++ js "/blob/" ++ head ++ js "/")
    ++ file ++ (js "#" ++ s_ ++ js "):" ++ nl) ++ text.
Proof.
  unfold link, blobPath. rewrite <- !app_assoc. reflexivity.
Qed.

(** Replacing the first link leaves the rest of the title line in one of
    its two forms. *)
Lemma replace_first_link (b text : jsstring) :
  b = L2 \/ b = s_ ->
  exists b',
    (b' = L2 \/ b' = s_)
    /\ replaceAll L1 o (js " - " ++ b ++ js ":" ++ nl ++ text)
       = js " - " ++ b' ++ js ":" ++ nl ++ replaceAll L1 o text.
Proof.
  pose proof (link_cons (slice0 6 o) (blobPath own rep base file) o) as Hc.
  assert (Hne : L1 <> []) by (rewrite Hc; discriminate).
  intros [-> | ->].
  - rewrite (replaceAll_pass_bracket _ _ o (js " - ") _ Hc eq_refl).
    destruct (startsWith (L2 ++ js ":" ++ nl ++ text) L1) eqn:E.
    + destruct (L1_at_L2 _ E) as [E1 E2]. exists s_.
      split; [right; reflexivity|].
      f_equal. rewrite <- E1.
      rewrite (replaceAll_hit L1 o _ Hne).
      rewrite <- E2. f_equal.
      change (js ":" ++ nl ++ text) with ((js ":" ++ nl) ++ text).
      rewrite (replaceAll_pass_bracket _ _ o (js ":" ++ nl) _ Hc eq_refl).
      reflexivity.
    + exists L2. split; [left; reflexivity|]. f_equal.
      rewrite (L2_parts (replaceAll L1 o text)).
      rewrite (L2_parts text) in E |- *.
      rewrite (replaceAll_miss L1 o _ _ Hne E).
      rewrite (replaceAll_pass_bracket _ _ o _ _ Hc).
      2:{ rewrite forallb_app.
          rewrite (isShort_not_bracket _ (slice0_short s_ Hs)).
          rewrite forallb_app.
          rewrite (forallb_impl _ plainChar _ _ plainChar_not_bracket
                     (before_file_plain head Hhead)).
          reflexivity. }
      rewrite (replaceAll_pass L1 o file _ Hne (L1_not_in_file text)).
      rewrite (replaceAll_pass_bracket _ _ o _ _ Hc).
      2:{ rewrite !forallb_app. rewrite (id_not_bracket s_ Hs). reflexivity. }
      reflexivity.
  - exists s_. split; [right; reflexivity|].
    replace (js " - " ++ s_ ++ js ":" ++ nl ++ text)
      with ((js " - " ++ s_ ++ js ":" ++ nl) ++ text)
      by (rewrite <- !app_assoc; reflexivity).
    rewrite (replaceAll_pass_bracket _ _ o _ _ Hc).
    2:{ rewrite !forallb_app. rewrite (id_not_bracket s_ Hs). reflexivity. }
    rewrite <- !app_assoc. reflexivity.
Qed.

Lemma preprocess_step_unfold (s : jsstring) :
  preprocess_step s
  = match regex_match linkRegex s with
    | None => None
    | Some (match0, match1) =>
        Some (replaceAll match0 (join_arg match1) s)
    end.
Proof. reflexivity. Qed.

(** A turn of the loop of [preprocessCommitMessage] on a comment keeps the
    title line in shape: it puts an identifier for a link, or works on the
    text after the title line. *)
Lemma step_keeps_title (a b text : jsstring) :
  a = L1 \/ a = o ->
  b = L2 \/ b = s_ ->
  match preprocess_step (titled a b text) with
  | None => a = o /\ b = s_
  | Some s' =>
      exists a' b' text',
        s' = titled a' b' text'
        /\ (a' = L1 \/ a' = o) /\ (b' = L2 \/ b' = s_)
  end.
Proof.
  intros Ha Hb. rewrite preprocess_step_unfold. destruct Ha as [-> | ->].
  - unfold titled.
    rewrite (regex_match_generated (js "GPT summary of ") base o _
               eq_refl Hbase Ho).
    cbn [join_arg].
    pose proof (link_cons (slice0 6 o) (blobPath own rep base file) o) as Hc.
    assert (Hne : L1 <> []) by (rewrite Hc; discriminate).
    rewrite (replaceAll_pass_bracket _ _ o (js "GPT summary of ") _ Hc
               eq_refl).
    rewrite (replaceAll_hit L1 o _ Hne).
    destruct (replace_first_link b text Hb) as [b' [Hb' E]]. rewrite E.
    exists o, b', (replaceAll L1 o text).
    split; [reflexivity|]. split; [right; reflexivity | exact Hb'].
  - destruct Hb as [-> | ->].
    + unfold titled.
      replace (js "GPT summary of " ++ o ++ js " - " ++ L2 ++ js ":" ++ nl
               ++ text)
        with ((js "GPT summary of " ++ o ++ js " - ") ++ L2
              ++ js ":" ++ nl ++ text)
        by (rewrite <- !app_assoc; reflexivity).
      assert (Hpre : forallb (notChar (ch "["))
                       (js "GPT summary of " ++ o ++ js " - ") = true).
      { rewrite !forallb_app, (id_not_bracket o Ho). reflexivity. }
      rewrite (regex_match_generated _ head s_ _ Hpre Hhead Hs).
      cbn [join_arg].
      pose proof (link_cons (slice0 6 s_) (blobPath own rep head file) s_)
        as Hc.
      assert (Hne : L2 <> []) by (rewrite Hc; discriminate).
      rewrite (replaceAll_pass_bracket _ _ s_ _ _ Hc Hpre).
      rewrite (replaceAll_hit L2 s_ _ Hne).
      change (js ":" ++ nl ++ text) with ((js ":" ++ nl) ++ text).
      rewrite (replaceAll_pass_bracket _ _ s_ (js ":" ++ nl) _ Hc eq_refl).
      exists o, s_, (replaceAll L2 s_ text).
      split; [|split; right; reflexivity].
      unfold titled. rewrite <- !app_assoc. reflexivity.
    + destruct (regex_match linkRegex (titled o s_ text))
        as [[m0 m1]|] eqn:E; [|split; reflexivity].
      apply regex_match_sound in E. destruct E as [_ [_ [_ M]]].
      apply link_shape in M.
      destruct M as [x [mid [z [Hm [_ [_ [_ ->]]]]]]]. cbn [join_arg].
      assert (Hpre : forallb (notChar (ch "["))
                       (js "GPT summary of " ++ o ++ js " - " ++ s_
                        ++ js ":" ++ nl) = true).
      { rewrite !forallb_app, (id_not_bracket o Ho), (id_not_bracket s_ Hs).
        reflexivity. }
      exists o, s_, (replaceAll m0 z text).
      split; [|split; right; reflexivity].
      unfold titled.
      replace (js "GPT summary of " ++ o ++ js " - " ++ s_ ++ js ":" ++ nl
               ++ text)
        with ((js "GPT summary of " ++ o ++ js " - " ++ s_ ++ js ":" ++ nl)
              ++ text)
        by (rewrite <- !app_assoc; reflexivity).
      rewrite (replaceAll_pass_bracket m0 _ z _ _ Hm Hpre).
      rewrite <- !app_assoc. reflexivity.
Qed.

Lemma loop_keeps_title (fuel : nat) :
  forall a b text r,
    a = L1 \/ a = o ->
    b = L2 \/ b = s_ ->
    preprocess_loop fuel (titled a b text) = Some r ->
    exists text', r = titled o s_ text'.
Proof.
  induction fuel as [|fuel IH]; intros a b text r Ha Hb H; [discriminate|].
  cbn [preprocess_loop] in H.
  pose proof (step_keeps_title a b text Ha Hb) as Hstep.
  destruct (preprocess_step (titled a b text)) as [s'|].
  - destruct Hstep as [a' [b' [text' [-> [Ha' Hb']]]]].
    apply (IH a' b' text' r Ha' Hb' H).
  - destruct Hstep as [-> ->]. inversion H; subst. exists text. reflexivity.
Qed.

(** The normal form of a comment of the generation pass, and of a comment
    with the raw pair, starts with the raw title line. *)
Lemma normalized_title (a b text : jsstring) :
  a = L1 \/ a = o ->
  b = L2 \/ b = s_ ->
  exists text', preprocessCommitMessage (titled a b text) = titled o s_ text'.
Proof.
  intros Ha Hb.
  destruct (preprocess_normal (titled a b text)) as [E _].
  exact (loop_keeps_title _ a b text _ Ha Hb E).
Qed.

End Normalization.

Lemma commentBody_titled (W : World) (repository : PayloadRepository)
  (k : jsstring) (f : ModifiedFile) (summary : jsstring) :
  commentBody W repository k f summary
  = titled
      (link (slice0 6 (originSha f))
         (blobPath (owner_login repository) (name repository)
            (baseCommitSha W) k) (originSha f))
      (link (slice0 6 (sha f))
         (blobPath (owner_login repository) (name repository)
            (headCommitSha W) k) (sha f))
      summary.
Proof.
  unfold commentBody, titled, link, blobPath. rewrite <- !app_assoc.
  reflexivity.
Qed.

Lemma titled_title (f : ModifiedFile) (text : jsstring) :
  titled (originSha f) (sha f) text = getTitle f ++ nl ++ text.
Proof. unfold titled, getTitle. rewrite <- !app_assoc. reflexivity. Qed.

(** C4, amended.  Let the identifiers of the file be 40 hexadecimal
    digits or ["None"], the commits of the pull request 40 hexadecimal
    digits, the names of the owner and of the repository free of [[], [#]
    and line terminators, and the file name free of line terminators and of
    the end of a link ([#], an identifier, [)]).  Then the normal form of
    the comment that the generation pass writes for the file has no link
    left and starts with the raw title line, as does the normal form of a
    comment that has the raw pair in its title: both start with the marker
    and include the title, which is what the deletion pass and the reuse
    test look at. *)
Theorem link_normalization (W : World) (repository : PayloadRepository)
  (modifiedFile : jsstring) (f : ModifiedFile) (summary : jsstring) :
  plainName (owner_login repository) = true ->
  plainName (name repository) = true ->
  isSha (baseCommitSha W) = true ->
  isSha (headCommitSha W) = true ->
  plainFile modifiedFile = true ->
  isShaOrNone (originSha f) = true ->
  isShaOrNone (sha f) = true ->
  (exists text,
      preprocessCommitMessage (commentBody W repository modifiedFile f summary)
      = js "GPT summary of " ++ originSha f ++ js " - " ++ sha f ++ js ":"
        ++ nl ++ text)
  /\ regex_match linkRegex
       (preprocessCommitMessage
          (commentBody W repository modifiedFile f summary)) = None
  /\ (forall body,
         body = commentBody W repository modifiedFile f summary
         \/ body = getTitle f ++ nl ++ summary ->
         startsWith (preprocessCommitMessage body) (js "GPT summary of")
         = true
         /\ includes (preprocessCommitMessage body) (getTitle f) = true).
Proof.
  intros Hown Hrep Hbase Hhead Hfile Ho Hs.
  pose proof (normalized_title (owner_login repository) (name repository)
                (baseCommitSha W) (headCommitSha W) modifiedFile
                (originSha f) (sha f) Hown Hrep Hbase Hhead Hfile Ho Hs)
    as Hnorm.
  assert (Hboth : forall body,
             body = commentBody W repository modifiedFile f summary
             \/ body = getTitle f ++ nl ++ summary ->
             exists text,
               preprocessCommitMessage body = getTitle f ++ nl ++ text).
  { intros body [-> | ->].
    - rewrite commentBody_titled.
      destruct (Hnorm _ _ summary (or_introl eq_refl) (or_introl eq_refl))
        as [text E].
      exists text. rewrite E. apply titled_title.
    - rewrite <- titled_title.
      destruct (Hnorm _ _ summary (or_intror eq_refl) (or_intror eq_refl))
        as [text E].
      exists text. rewrite E. apply titled_title. }
  split; [|split].
  - destruct (Hboth _ (or_introl eq_refl)) as [text E]. exists text.
    rewrite E. unfold getTitle. rewrite <- !app_assoc. reflexivity.
  - destruct (preprocess_normal
                (commentBody W repository modifiedFile f summary)) as [_ N].
    rewrite preprocess_step_unfold in N.
    destruct (regex_match linkRegex _) as [[m0 m1]|];
      [discriminate | reflexivity].
  - intros body Hbody. destruct (Hboth body Hbody) as [text E]. rewrite E.
    split.
    + unfold getTitle. rewrite <- !app_assoc. reflexivity.
    + apply (includes_app [] (getTitle f) (nl ++ text)).
Qed.

Lemma link_normalization_witness :
  (plainName (owner_login exampleRepository) = true
   /\ plainFile (js "a.ts") = true
   /\ isShaOrNone (originSha aModified) = true
   /\ isShaOrNone (sha aModified) = true)
  /\ preprocessCommitMessage
       (commentBody twoFilesWorld exampleRepository (js "a.ts") aModified
          (js "* a change"))
     = getTitle aModified ++ nl ++ js "* a change"
  /\ exists text,
       preprocessCommitMessage
         (commentBody twoFilesWorld exampleRepository (js "a.ts") aModified
            (js "* a change"))
       = js "GPT summary of " ++ originSha aModified ++ js " - "
         ++ sha aModified ++ js ":" ++ nl ++ text.
Proof.
  assert (H1 : plainName (owner_login exampleRepository) = true)
    by (vm_compute; reflexivity).
  assert (H2 : plainName (name exampleRepository) = true)
    by (vm_compute; reflexivity).
  assert (H3 : isSha (baseCommitSha twoFilesWorld) = true)
    by (vm_compute; reflexivity).
  assert (H4 : isSha (headCommitSha twoFilesWorld) = true)
    by (vm_compute; reflexivity).
  assert (H5 : plainFile (js "a.ts") = true) by (vm_compute; reflexivity).
  assert (H6 : isShaOrNone (originSha aModified) = true)
    by (vm_compute; reflexivity).
  assert (H7 : isShaOrNone (sha aModified) = true)
    by (vm_compute; reflexivity).
  split; [repeat split; assumption|].
  split; [vm_compute; reflexivity|].
  exact (proj1 (link_normalization twoFilesWorld exampleRepository (js "a.ts")
                  aModified (js "* a change") H1 H2 H3 H4 H5 H6 H7)).
Defined.

(** C4 as stated fails for a file whose name holds the end of a link: the
    lazy [.*?] of the pattern stops inside the name, the normal form of the
    comment written for the file does not include the raw title, and the
    next run takes the file as not yet summarized. *)
Lemma odd_file_name_not_normalized :
  includes (preprocessCommitMessage oddBody) (getTitle oddModified) = false
  /\ obj_get (modifiedFiles oddWorld) oddName = Some oddModified
  /\ actionOf oddWorld oddModified = Summarize.
Proof. repeat split; vm_compute; reflexivity. Qed.

(** ** The summarizer *)

Lemma summary_attempt_oversized (I : Imports) (W : World)
  (filename patch : jsstring) (tr : list Event) :
  (Z.of_nat (length (openAIPrompt filename patch))
   > MAX_OPEN_AI_QUERY_LENGTH I)%Z ->
  summary_attempt I W filename patch tr
  = (Thrown (JsError (js "OpenAI query too big")), tr).
Proof.
  intros H. unfold summary_attempt.
  destruct (Z.gtb_spec (Z.of_nat (length (openAIPrompt filename patch)))
                       (MAX_OPEN_AI_QUERY_LENGTH I)) as [_|Hle]; [|lia].
  reflexivity.
Qed.

(** C7. When the assembled user prompt is longer than
    [MAX_OPEN_AI_QUERY_LENGTH], [getOpenAISummaryForFile] returns the
    sentinel and leaves the trace as it found it: the completion service is
    not called. *)
Theorem oversized_prompt_gives_sentinel (I : Imports) (W : World)
  (filename patch : jsstring) (tr : list Event) :
  (Z.of_nat (length (openAIPrompt filename patch))
   > MAX_OPEN_AI_QUERY_LENGTH I)%Z ->
  getOpenAISummaryForFile I W filename patch tr
  = (Returned (js "Error: couldn't generate summary"), tr).
Proof.
  intros H. unfold getOpenAISummaryForFile, bind, try_catch.
  rewrite (summary_attempt_oversized I W filename patch tr H). reflexivity.
Qed.

Lemma oversized_prompt_gives_sentinel_witness :
  (Z.of_nat (length (openAIPrompt (js "a.ts") examplePatch))
   > MAX_OPEN_AI_QUERY_LENGTH tinyImports)%Z
  /\ getOpenAISummaryForFile tinyImports
       (exampleWorld None [] [] (Some (js "* a change")))
       (js "a.ts") examplePatch []
     = (Returned (js "Error: couldn't generate summary"), []).
Proof.
  assert (H : (Z.of_nat (length (openAIPrompt (js "a.ts") examplePatch))
               > MAX_OPEN_AI_QUERY_LENGTH tinyImports)%Z)
    by (vm_compute; reflexivity).
  split; [exact H|].
  exact (oversized_prompt_gives_sentinel tinyImports
           (exampleWorld None [] [] (Some (js "* a change")))
           (js "a.ts") examplePatch [] H).
Defined.

(** What [getOpenAISummaryForFile] does with an answer of the completion
    service. *)
Lemma summary_of_answer (I : Imports) (W : World)
  (filename patch : jsstring) (tr : list Event)
  (completion : ChatCompletion) :
  (Z.of_nat (length (openAIPrompt filename patch))
   <= MAX_OPEN_AI_QUERY_LENGTH I)%Z ->
  chat_completions_create W tr (chatRequest I filename patch)
  = Returned completion ->
  getOpenAISummaryForFile I W filename patch tr
  = (Returned
       match choices completion with
       | Some (first :: _) => nullish (message_content first) sentinel
       | Some [] | None => sentinel
       end,
     tr ++ [ChatCompletionsCreate filename (chatRequest I filename patch)]).
Proof.
  intros Hle Hc.
  unfold getOpenAISummaryForFile, summary_attempt, bind, try_catch,
    call_chat_completions_create.
  destruct (Z.gtb_spec (Z.of_nat (length (openAIPrompt filename patch)))
                       (MAX_OPEN_AI_QUERY_LENGTH I)) as [Hgt|_]; [lia|].
  rewrite Hc. destruct (choices completion) as [[|first rest]|]; reflexivity.
Qed.

(** C8, amended.  When the prompt is within the ceiling and the completion
    service answers with at least one choice, [getOpenAISummaryForFile]
    returns the sentinel if the content of the first choice is missing
    ([null] or [undefined]), and that content otherwise, the empty string
    included. *)
Theorem first_choice_content_or_sentinel (I : Imports) (W : World)
  (filename patch : jsstring) (tr : list Event)
  (first : Choice) (others : list Choice) :
  (Z.of_nat (length (openAIPrompt filename patch))
   <= MAX_OPEN_AI_QUERY_LENGTH I)%Z ->
  chat_completions_create W tr (chatRequest I filename patch)
  = Returned {| choices := Some (first :: others) |} ->
  fst (getOpenAISummaryForFile I W filename patch tr)
  = Returned match message_content first with
             | None => js "Error: couldn't generate summary"
             | Some content => content
             end.
Proof.
  intros Hle Hc.
  rewrite (summary_of_answer I W filename patch tr _ Hle Hc). reflexivity.
Qed.

Lemma first_choice_content_or_sentinel_witness :
  fst (getOpenAISummaryForFile exampleImports
         (exampleWorld None [] [] None) (js "a.ts") examplePatch [])
  = Returned (js "Error: couldn't generate summary")
  /\ fst (getOpenAISummaryForFile exampleImports
            (exampleWorld None [] [] (Some (js "* a change")))
            (js "a.ts") examplePatch [])
     = Returned (js "* a change").
Proof.
  split.
  - apply (first_choice_content_or_sentinel exampleImports
             (exampleWorld None [] [] None) (js "a.ts") examplePatch []
             {| message_content := None |} []);
      [vm_compute; discriminate | reflexivity].
  - apply (first_choice_content_or_sentinel exampleImports
             (exampleWorld None [] [] (Some (js "* a change")))
             (js "a.ts") examplePatch []
             {| message_content := Some (js "* a change") |} []);
      [vm_compute; discriminate | reflexivity].
Defined.

(** C8 as stated fails: an empty content is returned as it is, since [??]
    replaces only [null] and [undefined]. *)
Lemma empty_content_is_returned :
  chat_completions_create (exampleWorld None [] [] (Some []))
    [] (chatRequest exampleImports (js "a.ts") examplePatch)
  = Returned {| choices := Some [ {| message_content := Some [] |} ] |}
  /\ fst (getOpenAISummaryForFile exampleImports
            (exampleWorld None [] [] (Some []))
            (js "a.ts") examplePatch [])
     = Returned []
  /\ fst (getOpenAISummaryForFile exampleImports
            (exampleWorld None [] [] (Some []))
            (js "a.ts") examplePatch [])
     <> Returned (js "Error: couldn't generate summary").
Proof.
  repeat split; try reflexivity. vm_compute. discriminate.
Qed.

(** ** Objects *)

Lemma obj_get_In (V : Type) (o : obj V) (k : jsstring) (v : V) :
  obj_get o k = Some v -> In (k, v) o.
Proof.
  induction o as [|[k' v'] o IH]; simpl; [discriminate|].
  destruct (str_eqb k' k) eqn:E.
  - apply str_eqb_eq in E. subst k'. intros H; inversion H; subst.
    left; reflexivity.
  - intros H. right. apply IH. exact H.
Qed.


Lemma obj_get_none (V : Type) (o : obj V) (k : jsstring) :
  obj_get o k = None <-> ~ In k (Object_keys o).
Proof.
  induction o as [|[k' v'] o IH]; simpl; [tauto|].
  destruct (str_eqb k' k) eqn:E.
  - apply str_eqb_eq in E. subst k'. split; [discriminate | tauto].
  - apply str_eqb_neq in E. rewrite IH. tauto.
Qed.

Lemma obj_key_get (V : Type) (o : obj V) (k : jsstring) :
  In k (Object_keys o) -> exists v, obj_get o k = Some v.
Proof.
  intros H. destruct (obj_get o k) as [v|] eqn:E; [exists v; reflexivity|].
  apply obj_get_none in E. contradiction.
Qed.

Lemma obj_update_keys (V : Type) (o : obj V) (k : jsstring) (v : V) :
  Object_keys (obj_update o k v) = Object_keys o.
Proof.
  induction o as [|[k' v'] o IH]; simpl; [reflexivity|].
  destruct (str_eqb k' k); simpl; [reflexivity | rewrite IH; reflexivity].
Qed.

Lemma obj_update_get (V : Type) (o : obj V) (k k' : jsstring) (v : V) :
  obj_get (obj_update o k v) k'
  = if str_eqb k k' then match obj_get o k with
                         | Some _ => Some v
                         | None => None
                         end
    else obj_get o k'.
Proof.
  induction o as [|[k0 v0] o IH]; simpl.
  - destruct (str_eqb k k'); reflexivity.
  - destruct (str_eqb k0 k) eqn:E0; simpl.
    + apply str_eqb_eq in E0. subst k0.
      destruct (str_eqb k k'); reflexivity.
    + destruct (str_eqb k0 k') eqn:E1.
      * apply str_eqb_eq in E1. subst k0.
        destruct (str_eqb k k') eqn:E2; [|reflexivity].
        apply str_eqb_eq in E2. subst k'. rewrite str_eqb_refl in E0.
        discriminate.
      * exact IH.
Qed.

Lemma obj_insert_index_perm (V : Type) (o : obj V) (n : N) (k : jsstring)
  (v : V) (k' : jsstring) :
  In k' (Object_keys (obj_insert_index o n k v))
  <-> k' = k \/ In k' (Object_keys o).
Proof.
  induction o as [|[k0 v0] o IH]; simpl.
  - split; [intros [H|[]]; left; auto | intros [H|[]]; left; auto].
  - destruct (arrayIndex k0) as [n0|].
    + destruct (N.ltb n n0); simpl.
      * split; [intros [H|H]; [left; auto | right; exact H]
               | intros [H|H]; [left; auto | right; exact H]].
      * rewrite IH. tauto.
    + simpl. split; [intros [H|H]; [left; auto | right; exact H]
                    | intros [H|H]; [left; auto | right; exact H]].
Qed.

Lemma obj_insert_index_NoDup (V : Type) (o : obj V) (n : N) (k : jsstring)
  (v : V) :
  ~ In k (Object_keys o) -> NoDup (Object_keys o) ->
  NoDup (Object_keys (obj_insert_index o n k v)).
Proof.
  induction o as [|[k0 v0] o IH]; simpl; intros Hk Hnd.
  - constructor; [tauto | constructor].
  - inversion Hnd as [|? ? Hk0 Hnd']; subst.
    destruct (arrayIndex k0) as [n0|].
    + destruct (N.ltb n n0); simpl.
      * constructor; [simpl; tauto | exact Hnd].
      * constructor.
        -- rewrite obj_insert_index_perm. intros [H|H]; [subst; tauto | tauto].
        -- apply IH; [tauto | exact Hnd'].
    + simpl. constructor; [simpl; tauto | exact Hnd].
Qed.

Lemma obj_insert_index_get (V : Type) (o : obj V) (n : N) (k k' : jsstring)
  (v : V) :
  obj_get o k = None ->
  obj_get (obj_insert_index o n k v) k'
  = if str_eqb k k' then Some v else obj_get o k'.
Proof.
  induction o as [|[k0 v0] o IH]; simpl; intros Hn.
  - reflexivity.
  - destruct (str_eqb k0 k) eqn:E0; [discriminate|].
    assert (Hstep : obj_get ((k, v) :: (k0, v0) :: o) k'
                    = if str_eqb k k' then Some v
                      else if str_eqb k0 k' then Some v0 else obj_get o k')
      by reflexivity.
    destruct (arrayIndex k0) as [n0|]; [destruct (N.ltb n n0)|];
      try exact Hstep.
    simpl. rewrite (IH Hn).
    destruct (str_eqb k0 k') eqn:E1; [|reflexivity].
    apply str_eqb_eq in E1. subst k0.
    destruct (str_eqb k k') eqn:E2; [|reflexivity].
    apply str_eqb_eq in E2. subst k'. rewrite str_eqb_refl in E0.
    discriminate.
Qed.

Lemma obj_append_get (V : Type) (o : obj V) (k k' : jsstring) (v : V) :
  obj_get o k = None ->
  obj_get (o ++ [(k, v)]) k' = if str_eqb k k' then Some v else obj_get o k'.
Proof.
  induction o as [|[k0 v0] o IH]; simpl; intros Hn.
  - reflexivity.
  - destruct (str_eqb k0 k) eqn:E0; [discriminate|].
    rewrite (IH Hn).
    destruct (str_eqb k0 k') eqn:E1; [|reflexivity].
    apply str_eqb_eq in E1. subst k0.
    destruct (str_eqb k k') eqn:E2; [|reflexivity].
    apply str_eqb_eq in E2. subst k'. rewrite str_eqb_refl in E0.
    discriminate.
Qed.

(** Reading a property after an assignment. *)
Lemma obj_set_get (V : Type) (o : obj V) (k k' : jsstring) (v : V) :
  obj_get (obj_set o k v) k' = if str_eqb k k' then Some v else obj_get o k'.
Proof.
  unfold obj_set. destruct (obj_get o k) as [v0|] eqn:E.
  - rewrite obj_update_get, E. reflexivity.
  - destruct (arrayIndex k) as [n|].
    + apply obj_insert_index_get. exact E.
    + apply obj_append_get. exact E.
Qed.

Lemma obj_set_get_same (V : Type) (o : obj V) (k : jsstring) (v : V) :
  obj_get (obj_set o k v) k = Some v.
Proof. rewrite obj_set_get, str_eqb_refl. reflexivity. Qed.

Lemma obj_set_get_other (V : Type) (o : obj V) (k k' : jsstring) (v : V) :
  k <> k' -> obj_get (obj_set o k v) k' = obj_get o k'.
Proof.
  intros H. rewrite obj_set_get. apply str_eqb_neq in H. rewrite H.
  reflexivity.
Qed.

Lemma NoDup_snoc (A : Type) (l : list A) (a : A) :
  NoDup l -> ~ In a l -> NoDup (l ++ [a]).
Proof.
  induction l as [|x l IH]; simpl; intros Hnd Hin.
  - constructor; [tauto | constructor].
  - inversion Hnd; subst. constructor.
    + rewrite in_app_iff. simpl. intros [H|[H|[]]]; [contradiction|].
      subst. tauto.
    + apply IH; [assumption | tauto].
Qed.

(** The keys of an object are distinct. *)
Lemma obj_set_NoDup (V : Type) (o : obj V) (k : jsstring) (v : V) :
  NoDup (Object_keys o) -> NoDup (Object_keys (obj_set o k v)).
Proof.
  intros Hnd. unfold obj_set. destruct (obj_get o k) as [v0|] eqn:E.
  - rewrite obj_update_keys. exact Hnd.
  - apply obj_get_none in E. destruct (arrayIndex k) as [n|].
    + apply obj_insert_index_NoDup; assumption.
    + unfold Object_keys in *. rewrite map_app. simpl.
      apply NoDup_snoc; assumption.
Qed.

Lemma obj_get_of_In (V : Type) (o : obj V) (k : jsstring) (v : V) :
  NoDup (Object_keys o) -> In (k, v) o -> obj_get o k = Some v.
Proof.
  induction o as [|[k0 v0] o IH]; simpl; intros Hnd Hin; [contradiction|].
  inversion Hnd as [|? ? Hk0 Hnd']; subst.
  destruct Hin as [H|H].
  - inversion H; subst. rewrite str_eqb_refl. reflexivity.
  - destruct (str_eqb k0 k) eqn:E.
    + apply str_eqb_eq in E. subst k0. exfalso. apply Hk0.
      apply (in_map fst) in H. exact H.
    + apply IH; assumption.
Qed.

(** ** The modified files *)

Lemma modifiedFiles_fold (W : World) (files : list ChangedFile) :
  forall acc : obj ModifiedFile,
    NoDup (Object_keys acc) ->
    (forall k f, obj_get acc k = Some f -> filename f = k) ->
    let o := fold_left
               (fun acc file => obj_set acc (file_filename file)
                                        (modifiedFileOf W file))
               files acc in
    NoDup (Object_keys o)
    /\ (forall k f, obj_get o k = Some f -> filename f = k).
Proof.
  induction files as [|file files IH]; intros acc Hnd Hname; simpl.
  - split; assumption.
  - apply IH.
    + apply obj_set_NoDup. exact Hnd.
    + intros k f. rewrite obj_set_get.
      destruct (str_eqb (file_filename file) k) eqn:E.
      * apply str_eqb_eq in E. intros H; inversion H; subst. reflexivity.
      * apply Hname.
Qed.

Lemma modifiedFiles_NoDup (W : World) :
  NoDup (Object_keys (modifiedFiles W)).
Proof.
  apply (modifiedFiles_fold W (listFiles_data W) []);
    [constructor | intros k f H; discriminate].
Qed.

(** An entry is stored under its own file name. *)
Lemma modifiedFiles_filename (W : World) (k : jsstring) (f : ModifiedFile) :
  obj_get (modifiedFiles W) k = Some f -> filename f = k.
Proof.
  apply (modifiedFiles_fold W (listFiles_data W) []);
    [constructor | intros k' f' H; discriminate].
Qed.

Lemma modifiedFiles_value (W : World) (f : ModifiedFile) :
  In f (Object_values (modifiedFiles W)) <->
  exists k, obj_get (modifiedFiles W) k = Some f.
Proof.
  split.
  - intros H. apply in_map_iff in H. destruct H as [[k f'] [E Hin]].
    simpl in E. subst f'. exists k.
    apply obj_get_of_In; [apply modifiedFiles_NoDup | exact Hin].
  - intros [k H]. apply obj_get_In in H.
    apply (in_map snd) in H. exact H.
Qed.

(** ** The turns of the generation loop *)

(** [getOpenAISummaryForFile] never throws, and makes at most one call. *)
Lemma getOpenAISummaryForFile_total (I : Imports) (W : World)
  (filename patch : jsstring) (tr : list Event) :
  exists summary evs,
    getOpenAISummaryForFile I W filename patch tr
    = (Returned summary, tr ++ evs)
    /\ (evs = []
        \/ evs = [ChatCompletionsCreate filename
                    (chatRequest I filename patch)]).
Proof.
  unfold getOpenAISummaryForFile, summary_attempt, bind, try_catch,
    call_chat_completions_create, throw, ret.
  destruct (Z.of_nat (length (openAIPrompt filename patch))
            >? MAX_OPEN_AI_QUERY_LENGTH I)%Z.
  - exists sentinel, []. rewrite app_nil_r. split; [reflexivity | left; reflexivity].
  - destruct (chat_completions_create W tr (chatRequest I filename patch))
      as [completion|e].
    + destruct (choices completion) as [[|first rest]|];
        eexists; eexists; (split; [reflexivity | right; reflexivity]).
    + eexists; eexists; (split; [reflexivity | right; reflexivity]).
Qed.

Lemma createComment_cases (W : World) (repository : PayloadRepository)
  (f : ModifiedFile) (comment : jsstring) (tr : list Event) :
  createComment W repository f comment tr
  = match global_pullNumber W with
    | None => (Thrown (ReferenceError (js "pullNumber")), tr)
    | Some pn =>
        (pulls_createReviewComment W tr (paramsOf W repository pn f comment),
         tr ++ [CreateReviewComment (paramsOf W repository pn f comment)])
    end.
Proof.
  unfold createComment, read_pullNumber, bind, throw, ret, paramsOf.
  destruct (global_pullNumber W); reflexivity.
Qed.

(** The turn of the loop for a file that is to be summarized, given what
    the summarizer returned. *)
Lemma iteration_summarize (I : Imports) (W : World)
  (repository : PayloadRepository) (k : jsstring) (f : ModifiedFile)
  (result : obj jsstring) (n : nat) (tr tr1 : list Event)
  (summary : jsstring) :
  obj_get (modifiedFiles W) k = Some f ->
  actionOf W f = Summarize ->
  getOpenAISummaryForFile I W k (diff f) tr = (Returned summary, tr1) ->
  iteration I W repository k result n tr
  = match createComment W repository f
            (commentBody W repository k f summary) tr1 with
    | (Returned _, tr2) =>
        (Returned (if MAX_FILES_TO_SUMMARIZE <=? n + 1
                   then Break (obj_set result k summary)
                   else Next (obj_set result k summary) (n + 1)), tr2)
    | (Thrown e, tr2) => (Thrown e, tr2)
    end.
Proof.
  intros Hf Ha Hs. unfold iteration. rewrite Hf, Ha.
  unfold bind at 1. rewrite Hs. unfold bind.
  destruct (createComment W repository f
              (commentBody W repository k f summary) tr1) as [[[]|e] tr2];
    [|reflexivity].
  destruct (MAX_FILES_TO_SUMMARIZE <=? n + 1); reflexivity.
Qed.

Lemma iteration_skip (I : Imports) (W : World)
  (repository : PayloadRepository) (k : jsstring) (f : ModifiedFile)
  (result : obj jsstring) (n : nat) (tr : list Event) :
  obj_get (modifiedFiles W) k = Some f ->
  actionOf W f = Skip ->
  iteration I W repository k result n tr = (Returned (Next result n), tr).
Proof. intros Hf Ha. unfold iteration. rewrite Hf, Ha. reflexivity. Qed.

Lemma iteration_reuse (I : Imports) (W : World)
  (repository : PayloadRepository) (k : jsstring) (f : ModifiedFile)
  (c : ReviewComment) (result : obj jsstring) (n : nat) (tr : list Event) :
  obj_get (modifiedFiles W) k = Some f ->
  actionOf W f = Reuse c ->
  iteration I W repository k result n tr
  = (Returned (Next (obj_set result k (withoutFirstLine (message c))) n), tr).
Proof. intros Hf Ha. unfold iteration. rewrite Hf, Ha. reflexivity. Qed.

(** What a turn adds to the trace, and what it does to [result] and to
    the counter. *)
Lemma iteration_spec (I : Imports) (W : World)
  (repository : PayloadRepository) (k : jsstring)
  (result : obj jsstring) (n : nat) (tr : list Event) :
  exists evs out,
    iteration I W repository k result n tr = (out, tr ++ evs)
    /\ Forall (generated I W repository [k]) evs
    /\ forall flow, out = Returned flow ->
         exists f,
           obj_get (modifiedFiles W) k = Some f
           /\ (forall k', k' <> k ->
                 obj_get (flow_result flow) k' = obj_get result k')
           /\ match actionOf W f with
              | Skip => flow = Next result n /\ evs = []
              | Reuse c =>
                  flow = Next (obj_set result k
                                 (withoutFirstLine (message c))) n
                  /\ evs = []
              | Summarize =>
                  exists summary,
                  flow = (if MAX_FILES_TO_SUMMARIZE <=? n + 1
                          then Break (obj_set result k summary)
                          else Next (obj_set result k summary) (n + 1))
                  /\ exists p, In (CreateReviewComment p) evs
              end.
Proof.
  destruct (obj_get (modifiedFiles W) k) as [f|] eqn:Hf.
  2:{ exists [], (Thrown TypeError). unfold iteration. rewrite Hf, app_nil_r.
      repeat split; [constructor | discriminate]. }
  destruct (actionOf W f) as [|c|] eqn:Ha.
  - exists [], (Returned (Next result n)).
    rewrite (iteration_skip I W repository k f result n tr Hf Ha), app_nil_r.
    repeat split; [constructor|]. intros flow H; inversion H; subst.
    exists f. rewrite Ha. repeat split.
  - exists [], (Returned (Next (obj_set result k
                                  (withoutFirstLine (message c))) n)).
    rewrite (iteration_reuse I W repository k f c result n tr Hf Ha),
      app_nil_r.
    repeat split; [constructor|]. intros flow H; inversion H; subst.
    exists f. rewrite Ha. repeat split.
    intros k' Hk. simpl. apply obj_set_get_other. congruence.
  - destruct (getOpenAISummaryForFile_total I W k (diff f) tr)
      as [summary [evs [Hs Hevs]]].
    rewrite (iteration_summarize I W repository k f result n tr
               (tr ++ evs) summary Hf Ha Hs).
    rewrite createComment_cases.
    assert (Hg : Forall (generated I W repository [k]) evs).
    { destruct Hevs as [-> | ->]; [constructor|].
      constructor; [|constructor]. simpl. split; [left; reflexivity|].
      exists f. repeat split; assumption. }
    pose proof (modifiedFiles_filename W k f Hf) as Hname.
    destruct (global_pullNumber W) as [pn|] eqn:Hpn.
    + set (p := paramsOf W repository pn f
                  (commentBody W repository k f summary)).
      assert (Hgp : generated I W repository [k] (CreateReviewComment p)).
      { simpl. exists f, pn, summary. rewrite Hname.
        repeat split; try assumption. left; reflexivity. }
      exists (evs ++ [CreateReviewComment p]).
      destruct (pulls_createReviewComment W (tr ++ evs) p) as [[]|e].
      * destruct (MAX_FILES_TO_SUMMARIZE <=? n + 1); eexists;
          rewrite <- app_assoc;
          (split; [reflexivity|]);
          (split; [apply Forall_app; split;
                   [exact Hg | constructor; [exact Hgp | constructor]]|]);
          intros flow [= <-]; exists f; rewrite Ha;
          (split; [reflexivity|]);
          (split; [intros k' Hk; cbn [flow_result];
                   apply obj_set_get_other; congruence|]);
          exists summary; (split; [reflexivity|]); exists p;
          apply in_or_app; right; left; reflexivity.
      * eexists. rewrite <- app_assoc. split; [reflexivity|].
        split; [apply Forall_app; split; [exact Hg | constructor; [exact Hgp | constructor]]|].
        discriminate.
    + exists evs. eexists. split; [reflexivity|]. split; [exact Hg | discriminate].
Qed.

(** ** The generation pass *)

Lemma generated_mono (I : Imports) (W : World)
  (repository : PayloadRepository) (keys keys' : list jsstring) (e : Event) :
  incl keys keys' ->
  generated I W repository keys e -> generated I W repository keys' e.
Proof.
  intros Hincl. destruct e as [o r i|k request|params]; simpl.
  - tauto.
  - intros [Hin H]. split; [apply Hincl; exact Hin | exact H].
  - intros [f [pn [summary [Hin H]]]]. exists f, pn, summary.
    split; [apply Hincl; exact Hin | exact H].
Qed.

Lemma turns_cons (I : Imports) (W : World) (repository : PayloadRepository)
  (k : jsstring) (rest : list jsstring) (result : obj jsstring) (n : nat)
  (tr : list Event) :
  turns I W repository (k :: rest) result n tr
  = match iteration I W repository k result n tr with
    | (Returned (Next result' n'), tr') =>
        turns I W repository rest result' n' tr'
    | (Returned (Break result'), tr') => (Returned (Break result'), tr')
    | (Thrown e, tr') => (Thrown e, tr')
    end.
Proof.
  cbn [turns]. unfold bind.
  destruct (iteration I W repository k result n tr) as [[[r n'|r]|e] tr'];
    reflexivity.
Qed.


(** The pass is the turns of its keys, followed by [return result]. *)
Lemma generationPass_turns (I : Imports) (W : World)
  (repository : PayloadRepository) (keys : list jsstring) :
  forall (result : obj jsstring) (n : nat) (tr : list Event),
    generationPass I W repository keys result n tr
    = match turns I W repository keys result n tr with
      | (Returned flow, tr') => (Returned (flow_result flow), tr')
      | (Thrown e, tr') => (Thrown e, tr')
      end.
Proof.
  induction keys as [|k rest IH]; intros result n tr.
  - reflexivity.
  - rewrite turns_cons. cbn [generationPass]. unfold bind.
    destruct (iteration I W repository k result n tr) as [[[r n'|r]|e] tr'];
      [apply IH | reflexivity | reflexivity].
Qed.

(** The calls of the turns are calls for files that are to be summarized,
    and [result] changes only at keys whose file is reused or summarized. *)
Lemma turns_spec (I : Imports) (W : World) (repository : PayloadRepository)
  (keys : list jsstring) :
  forall (result : obj jsstring) (n : nat) (tr : list Event),
  exists evs out,
    turns I W repository keys result n tr = (out, tr ++ evs)
    /\ Forall (generated I W repository keys) evs
    /\ forall flow, out = Returned flow ->
         forall k',
           (~ In k' keys
            \/ exists f, obj_get (modifiedFiles W) k' = Some f
                         /\ actionOf W f = Skip) ->
           obj_get (flow_result flow) k' = obj_get result k'.
Proof.
  induction keys as [|k rest IH]; intros result n tr.
  - exists [], (Returned (Next result n)). rewrite app_nil_r.
    repeat split; [constructor|]. intros flow [= <-] k' _. reflexivity.
  - rewrite turns_cons.
    destruct (iteration_spec I W repository k result n tr)
      as [evs [out [E [Hg Hres]]]].
    rewrite E.
    assert (Hg' : Forall (generated I W repository (k :: rest)) evs).
    { eapply Forall_impl; [|exact Hg]. intros e.
      apply generated_mono. intros x [<-|[]]. left; reflexivity. }
    assert (Hstep : forall flow, out = Returned flow ->
              forall k', (~ In k' (k :: rest)
                          \/ exists f, obj_get (modifiedFiles W) k' = Some f
                                       /\ actionOf W f = Skip) ->
              obj_get (flow_result flow) k' = obj_get result k').
    { intros flow Hout k' Hk'.
      destruct (Hres flow Hout) as [f [Hf [Hother Hact]]].
      destruct (list_eq_dec N.eq_dec k' k) as [->|Hne];
        [|apply Hother; exact Hne].
      destruct Hk' as [Hnin | [f' [Hf' Ha']]].
      - exfalso. apply Hnin. left; reflexivity.
      - rewrite Hf in Hf'. inversion Hf'; subst f'. rewrite Ha' in Hact.
        destruct Hact as [-> _]. reflexivity. }
    destruct out as [[r n'|r]|e].
    + destruct (IH r n' (tr ++ evs)) as [evs' [out' [E' [Hg2 Hres']]]].
      exists (evs ++ evs'), out'. rewrite app_assoc. split; [exact E'|].
      split.
      * apply Forall_app. split; [exact Hg'|].
        eapply Forall_impl; [|exact Hg2]. intros e.
        apply generated_mono. intros x Hx. right; exact Hx.
      * intros flow Hout k' Hk'.
        rewrite (Hres' flow Hout k').
        -- apply (Hstep (Next r n') eq_refl k' Hk').
        -- destruct Hk' as [Hnin | H]; [left | right; exact H].
           intros Hin. apply Hnin. right; exact Hin.
    + exists evs, (Returned (Break r)). repeat split; assumption.
    + exists evs, (Thrown e). repeat split; [assumption | discriminate].
Qed.

Lemma issueDeletes_spec (W : World) (repository : PayloadRepository)
  (cs : list ReviewComment) :
  forall tr, issueDeletes repository cs tr
             = (Returned tt, tr ++ deleteCalls W repository cs).
Proof.
  induction cs as [|c cs IH]; intros tr; simpl.
  - unfold ret. rewrite app_nil_r. reflexivity.
  - rewrite IH, <- app_assoc. reflexivity.
Qed.

(** The deletion pass makes one call per comment to delete, whatever
    becomes of these calls. *)
Lemma deletionPass_spec (W : World) (repository : PayloadRepository)
  (tr : list Event) :
  exists out,
    deletionPass W repository tr
    = (out, tr ++ deleteCalls W repository (commentsToDelete W)).
Proof.
  unfold deletionPass, bind.
  rewrite (issueDeletes_spec W repository (commentsToDelete W) tr).
  unfold awaitDeletes. destruct (commentsToDelete W) as [|c cs].
  - exists (Returned tt). reflexivity.
  - eexists. reflexivity.
Qed.

(** A run: the calls of the deletion pass, then calls of the generation
    pass; a mapping is returned when the deletions settle well and the
    turns of the loop end without an exception. *)
Lemma run_spec (I : Imports) (W : World) (repository : PayloadRepository)
  (pull_number : Z) :
  exists out gen,
    run I W repository pull_number
    = (out, deleteCalls W repository (commentsToDelete W) ++ gen)
    /\ Forall (generated I W repository (Object_keys (modifiedFiles W))) gen
    /\ forall result, out = Returned result ->
         exists flow,
           turns I W repository (Object_keys (modifiedFiles W)) [] 0
             (deleteCalls W repository (commentsToDelete W))
           = (Returned flow,
              deleteCalls W repository (commentsToDelete W) ++ gen)
           /\ result = flow_result flow.
Proof.
  unfold run, getFileSummaries, bind.
  destruct (deletionPass_spec W repository []) as [out E]. rewrite E.
  simpl app.
  destruct out as [[]|e].
  - rewrite generationPass_turns.
    destruct (turns_spec I W repository (Object_keys (modifiedFiles W)) [] 0
                (deleteCalls W repository (commentsToDelete W)))
      as [gen [out [E' [Hg _]]]].
    rewrite E'. destruct out as [flow|e].
    + exists (Returned (flow_result flow)), gen.
      repeat split; [exact Hg|]. intros result [= <-]. exists flow.
      split; reflexivity.
    + exists (Thrown e), gen. repeat split; [exact Hg | discriminate].
  - exists (Thrown e), []. rewrite app_nil_r.
    repeat split; [constructor | discriminate].
Qed.

(** ** The claims on the reconciler *)

Lemma actionOf_skip (W : World) (f : ModifiedFile) :
  diff f = [] \/ includes (diff f) lfsMarker = true <->
  actionOf W f = Skip.
Proof.
  unfold actionOf. destruct (str_eqb (diff f) []) eqn:E.
  - apply str_eqb_eq in E. tauto.
  - apply str_eqb_neq in E. destruct (includes (diff f) lfsMarker).
    + tauto.
    + destruct (find _ (aiComments W));
        (split; [intros [H|H]; [contradiction | discriminate] | discriminate]).
Qed.

Lemma deleteCalls_In (W : World) (repository : PayloadRepository)
  (cs : list ReviewComment) (e : Event) :
  In e (deleteCalls W repository cs) <->
  exists c, In c cs
            /\ e = DeleteReviewComment (owner_login repository)
                     (name repository) (id c).
Proof.
  unfold deleteCalls. rewrite in_map_iff. split.
  - intros [c [E Hin]]. exists c. split; [exact Hin | symmetry; exact E].
  - intros [c [Hin E]]. exists c. split; [symmetry; exact E | exact Hin].
Qed.

(** A call of a run for a file: the file is one that is to be
    summarized. *)
Lemma run_calls (I : Imports) (W : World) (repository : PayloadRepository)
  (pull_number : Z) (e : Event) :
  In e (snd (run I W repository pull_number)) ->
  In e (deleteCalls W repository (commentsToDelete W))
  \/ generated I W repository (Object_keys (modifiedFiles W)) e.
Proof.
  destruct (run_spec I W repository pull_number) as [out [gen [E [Hg _]]]].
  rewrite E. simpl. rewrite in_app_iff. intros [H|H]; [left; exact H|].
  right. rewrite Forall_forall in Hg. apply Hg. exact H.
Qed.

Lemma run_chat_summarize (I : Imports) (W : World)
  (repository : PayloadRepository) (pull_number : Z) (k : jsstring)
  (request : ChatRequest) :
  In (ChatCompletionsCreate k request)
     (snd (run I W repository pull_number)) ->
  exists f, obj_get (modifiedFiles W) k = Some f
            /\ actionOf W f = Summarize.
Proof.
  intros H. apply run_calls in H. destruct H as [H|H].
  - apply deleteCalls_In in H. destruct H as [c [_ H]]. discriminate.
  - simpl in H. destruct H as [_ [f [Hf [Ha _]]]]. exists f. tauto.
Qed.

Lemma run_create_summarize (I : Imports) (W : World)
  (repository : PayloadRepository) (pull_number : Z)
  (params : CreateParams) :
  In (CreateReviewComment params)
     (snd (run I W repository pull_number)) ->
  exists f pn summary,
    obj_get (modifiedFiles W) (filename f) = Some f
    /\ actionOf W f = Summarize
    /\ global_pullNumber W = Some pn
    /\ params = paramsOf W repository pn f
                  (commentBody W repository (filename f) f summary).
Proof.
  intros H. apply run_calls in H. destruct H as [H|H].
  - apply deleteCalls_In in H. destruct H as [c [_ H]]. discriminate.
  - simpl in H. destruct H as [f [pn [summary [_ H]]]].
    exists f, pn, summary. exact H.
Qed.

(** The returned mapping has no entry at a key that is not a modified
    file, or whose file is skipped. *)
Lemma run_result_untouched (I : Imports) (W : World)
  (repository : PayloadRepository) (pull_number : Z)
  (result : obj jsstring) (k : jsstring) :
  fst (run I W repository pull_number) = Returned result ->
  (~ In k (Object_keys (modifiedFiles W))
   \/ exists f, obj_get (modifiedFiles W) k = Some f
                /\ actionOf W f = Skip) ->
  obj_get result k = None.
Proof.
  destruct (run_spec I W repository pull_number) as [out [gen [E [_ Hr]]]].
  rewrite E. simpl. intros Hout Hk.
  destruct (Hr result Hout) as [flow [Et ->]].
  destruct (turns_spec I W repository (Object_keys (modifiedFiles W)) [] 0
              (deleteCalls W repository (commentsToDelete W)))
    as [evs [out' [E' [_ Hres]]]].
  rewrite Et in E'. inversion E'; subst out'.
  apply (Hres flow eq_refl k Hk).
Qed.

(** C5. A modified file whose diff is empty, or contains the marker of
    git-lfs, gets no completion request and no review comment in a run, and
    the mapping that the run returns has no entry for its name. *)
Theorem skipped_file_untouched (I : Imports) (W : World)
  (repository : PayloadRepository) (pull_number : Z) (f : ModifiedFile) :
  In f (Object_values (modifiedFiles W)) ->
  diff f = [] \/ includes (diff f) (js "https://git-lfs.github.com/") = true ->
  (forall request,
      ~ In (ChatCompletionsCreate (filename f) request)
           (snd (run I W repository pull_number)))
  /\ (forall params,
         In (CreateReviewComment params)
            (snd (run I W repository pull_number)) ->
         path params <> filename f)
  /\ (forall result,
         fst (run I W repository pull_number) = Returned result ->
         obj_get result (filename f) = None).
Proof.
  intros Hin Hskip. apply modifiedFiles_value in Hin. destruct Hin as [k Hf].
  pose proof (modifiedFiles_filename W k f Hf) as Hk. subst k.
  apply actionOf_skip with (W := W) in Hskip.
  split; [|split].
  - intros request H. apply run_chat_summarize in H.
    destruct H as [f' [Hf' Ha]]. congruence.
  - intros params H Hp. apply run_create_summarize in H.
    destruct H as [f' [pn [summary [Hf' [Ha [_ ->]]]]]]. simpl in Hp.
    rewrite Hp in Hf'. congruence.
  - intros result Hout.
    apply (run_result_untouched I W repository pull_number result _ Hout).
    right. exists f. split; assumption.
Qed.

(** The [line] and the [side] of the argument of [createReviewComment],
    whether the call is reached or not. *)
Lemma placement_of_file (f : ModifiedFile) :
  commentLine f
  = (if Number_isFinite (position f) && gt_zero (position f)
     then position f
     else num_one)
  /\ (commentSide f = RIGHT <->
      gt_zero (position f) = true \/ originSha f = js "None")
  /\ (commentSide f = LEFT <->
      ~ (gt_zero (position f) = true \/ originSha f = js "None")).
Proof.
  split; [|split].
  - unfold commentLine.
    destruct (Number_isFinite (position f)), (gt_zero (position f));
      reflexivity.
  - unfold commentSide. rewrite <- str_eqb_eq.
    destruct (gt_zero (position f)), (str_eqb (originSha f) (js "None"));
      simpl; split; intros H; try reflexivity; try discriminate; auto;
      destruct H; discriminate.
  - unfold commentSide. rewrite <- str_eqb_eq.
    destruct (gt_zero (position f)), (str_eqb (originSha f) (js "None"));
      simpl; split; intros H; try reflexivity; try discriminate;
      try (exfalso; apply H; auto; fail);
      intros [H'|H']; discriminate.
Qed.

(** C6. A review comment that a run creates is anchored on the line of
    the parsed position of its file when that position is a finite number
    greater than 0, and on line 1 otherwise; its side is [RIGHT] exactly
    when the position is greater than 0 or [originSha] is ["None"], and
    [LEFT] otherwise. *)
Theorem comment_placement (I : Imports) (W : World)
  (repository : PayloadRepository) (pull_number : Z)
  (params : CreateParams) :
  In (CreateReviewComment params) (snd (run I W repository pull_number)) ->
  exists f,
    In f (Object_values (modifiedFiles W))
    /\ path params = filename f
    /\ line params
       = (if Number_isFinite (position f) && gt_zero (position f)
          then position f
          else num_one)
    /\ (side params = RIGHT <->
        gt_zero (position f) = true \/ originSha f = js "None")
    /\ (side params = LEFT <->
        ~ (gt_zero (position f) = true \/ originSha f = js "None")).
Proof.
  intros H. apply run_create_summarize in H.
  destruct H as [f [pn [summary [Hf [_ [_ ->]]]]]].
  exists f. split; [apply modifiedFiles_value; exists (filename f); exact Hf|].
  split; [reflexivity|]. cbn [line side paramsOf].
  destruct (placement_of_file f) as [Hl [Hr Hleft]].
  split; [exact Hl | split; [exact Hr | exact Hleft]].
Qed.

(** ** The deletion pass *)

Lemma fold_filter_In (A B : Type) (P : B -> A -> bool) (fs : list B) :
  forall (init : list A) (c : A),
    In c (fold_left (fun acc f => filter (P f) acc) fs init)
    <-> In c init /\ forall f, In f fs -> P f c = true.
Proof.
  induction fs as [|f fs IH]; intros init c; simpl.
  - split; [intros H; split; [exact H | intros f []] | tauto].
  - rewrite IH, filter_In. split.
    + intros [[Hin Hp] Hall]. split; [exact Hin|].
      intros f' [<-|Hf]; [exact Hp | apply Hall; exact Hf].
    + intros [Hin Hall]. repeat split; [exact Hin | apply Hall; left; reflexivity|].
      intros f' Hf. apply Hall. right; exact Hf.
Qed.

(** The comments to delete are the bot comments that include the title
    of no modified file. *)
Lemma commentsToDelete_In (W : World) (c : ReviewComment) :
  In c (commentsToDelete W) <->
  In c (getReviewComments W)
  /\ startsWith (message c) marker = true
  /\ forall f, In f (Object_values (modifiedFiles W)) ->
               includes (message c) (getTitle f) = false.
Proof.
  unfold commentsToDelete.
  rewrite (fold_filter_In _ _
             (fun f c => negb (includes (message c)
                                 (js "GPT summary of " ++ originSha f
                                  ++ js " - " ++ sha f ++ js ":")))).
  unfold aiComments. rewrite filter_In. split.
  - intros [[Hin Hs] Hall]. repeat split; [exact Hin | exact Hs|].
    intros f Hf. apply Hall in Hf. apply negb_true_iff in Hf. exact Hf.
  - intros [Hin [Hs Hall]]. repeat split; [exact Hin | exact Hs|].
    intros f Hf. apply negb_true_iff. apply Hall. exact Hf.
Qed.


(** ** The counter and the cap *)

Lemma countSummarize_cons (W : World) (k : jsstring) (rest : list jsstring) :
  countSummarize W (k :: rest)
  = (if toSummarize W k then 1 else 0) + countSummarize W rest.
Proof.
  unfold countSummarize. simpl. destruct (toSummarize W k); reflexivity.
Qed.

Lemma countSummarize_app (W : World) (a b : list jsstring) :
  countSummarize W (a ++ b) = countSummarize W a + countSummarize W b.
Proof.
  unfold countSummarize. rewrite filter_app, length_app. reflexivity.
Qed.


(** ** Reuse of an existing comment *)






(** ** A failing creation *)

Lemma generated_key (I : Imports) (W : World)
  (repository : PayloadRepository) (keys : list jsstring) (e : Event) :
  generated I W repository keys e ->
  match e with
  | DeleteReviewComment _ _ _ => False
  | ChatCompletionsCreate k _ => In k keys
  | CreateReviewComment params => In (path params) keys
  end.
Proof.
  destruct e as [o r i|k request|params]; simpl.
  - tauto.
  - tauto.
  - intros [f [pn [summary [Hin [_ [_ [_ ->]]]]]]]. exact Hin.
Qed.



(** ** The cap, when the creation of comments works

    The following holds in a world that binds [pullNumber] and in which no
    creation fails. *)

Lemma iteration_created (I : Imports) (W : World)
  (repository : PayloadRepository) (pn : Z) (k : jsstring)
  (f : ModifiedFile) (result : obj jsstring) (n : nat) (tr : list Event) :
  global_pullNumber W = Some pn ->
  (forall tr' params, pulls_createReviewComment W tr' params = Returned tt) ->
  obj_get (modifiedFiles W) k = Some f ->
  actionOf W f = Summarize ->
  exists summary evs,
    length (filter isCreate evs) = 1
    /\ iteration I W repository k result n tr
       = (Returned (if MAX_FILES_TO_SUMMARIZE <=? n + 1
                    then Break (obj_set result k summary)
                    else Next (obj_set result k summary) (n + 1)),
          tr ++ evs).
Proof.
  intros Hb Hok Hf Ha.
  destruct (getOpenAISummaryForFile_total I W k (diff f) tr)
    as [summary [evs [Hs Hevs]]].
  exists summary,
    (evs ++ [CreateReviewComment
               (paramsOf W repository pn f
                  (commentBody W repository k f summary))]).
  split.
  - rewrite filter_app, length_app.
    destruct Hevs as [-> | ->]; reflexivity.
  - rewrite (iteration_summarize I W repository k f result n tr (tr ++ evs)
               summary Hf Ha Hs).
    rewrite createComment_cases, Hb, Hok, app_assoc. reflexivity.
Qed.

Lemma option_eq_dec_jsstring (a b : option jsstring) : {a = b} + {a <> b}.
Proof. decide equality. apply (list_eq_dec N.eq_dec). Qed.

Lemma turns_cap (I : Imports) (W : World) (repository : PayloadRepository)
  (pn : Z) :
  global_pullNumber W = Some pn ->
  (forall tr' params, pulls_createReviewComment W tr' params = Returned tt) ->
  forall (keys : list jsstring) (result : obj jsstring) (n : nat)
         (tr : list Event),
    n < MAX_FILES_TO_SUMMARIZE ->
    (forall k, In k keys -> In k (Object_keys (modifiedFiles W))) ->
    exists flow evs,
      turns I W repository keys result n tr = (Returned flow, tr ++ evs)
      /\ length (filter isCreate evs)
         = Nat.min (countSummarize W keys) (MAX_FILES_TO_SUMMARIZE - n)
      /\ forall k',
           obj_get (flow_result flow) k' <> obj_get result k' ->
           exists before after,
             keys = before ++ k' :: after
             /\ n + countSummarize W before < MAX_FILES_TO_SUMMARIZE.
Proof.
  intros Hb Hok keys.
  induction keys as [|k rest IH]; intros result n tr Hn Hkeys.
  - exists (Next result n), []. rewrite app_nil_r.
    repeat split. intros k' H. simpl in H. congruence.
  - destruct (obj_key_get _ (modifiedFiles W) k (Hkeys k (or_introl eq_refl)))
      as [f Hf].
    assert (Hrest : forall k0, In k0 rest ->
                               In k0 (Object_keys (modifiedFiles W)))
      by (intros k0 H0; apply Hkeys; right; exact H0).
    rewrite turns_cons, countSummarize_cons. unfold toSummarize at 1.
    rewrite Hf.
    assert (Hhere : forall (r : obj jsstring) (v : jsstring) k',
               obj_get (obj_set r k v) k' <> obj_get r k' ->
               exists before after,
                 k :: rest = before ++ k' :: after
                 /\ n + countSummarize W before < MAX_FILES_TO_SUMMARIZE).
    { intros r v k' H. exists [], rest.
      destruct (list_eq_dec N.eq_dec k k') as [->|Hne].
      - split; [reflexivity|]. unfold countSummarize. simpl. lia.
      - exfalso. apply H. apply obj_set_get_other. exact Hne. }
    assert (Hlater : forall (skipped : bool) k' before after,
               (if skipped then toSummarize W k = false else True) ->
               rest = before ++ k' :: after ->
               (if skipped then n else n + 1) + countSummarize W before
               < MAX_FILES_TO_SUMMARIZE ->
               (if skipped then True else toSummarize W k = true) ->
               exists before' after',
                 k :: rest = before' ++ k' :: after'
                 /\ n + countSummarize W before' < MAX_FILES_TO_SUMMARIZE).
    { intros skipped k' before after Hs -> Hc Hs'.
      exists (k :: before), after. split; [reflexivity|].
      rewrite countSummarize_cons.
      destruct skipped; [rewrite Hs | rewrite Hs']; lia. }
    assert (Hts : toSummarize W k
                  = match actionOf W f with
                    | Summarize => true
                    | _ => false
                    end)
      by (unfold toSummarize; rewrite Hf; reflexivity).
    destruct (actionOf W f) as [|c|] eqn:Ha.
    + rewrite (iteration_skip I W repository k f result n tr Hf Ha).
      destruct (IH result n tr Hn Hrest) as [flow [evs [E [Hc Hch]]]].
      exists flow, evs. split; [exact E|]. split; [exact Hc|].
      intros k' H. destruct (Hch k' H) as [before [after [Hr Hlt]]].
      apply (Hlater true k' before after Hts Hr Hlt Logic.I).
    + rewrite (iteration_reuse I W repository k f c result n tr Hf Ha).
      destruct (IH (obj_set result k (withoutFirstLine (message c))) n tr
                  Hn Hrest) as [flow [evs [E [Hc Hch]]]].
      exists flow, evs. split; [exact E|]. split; [exact Hc|].
      intros k' H.
      destruct (option_eq_dec_jsstring
                  (obj_get (flow_result flow) k')
                  (obj_get (obj_set result k
                              (withoutFirstLine (message c))) k'))
        as [Heq|Hne].
      * rewrite Heq in H. apply (Hhere _ _ _ H).
      * destruct (Hch k' Hne) as [before [after [Hr Hlt]]].
        apply (Hlater true k' before after Hts Hr Hlt Logic.I).
    + destruct (iteration_created I W repository pn k f result n tr
                  Hb Hok Hf Ha) as [summary [evs0 [Hc0 E0]]].
      rewrite E0.
      destruct (MAX_FILES_TO_SUMMARIZE <=? n + 1) eqn:Hcap.
      * apply Nat.leb_le in Hcap.
        exists (Break (obj_set result k summary)), evs0.
        split; [reflexivity|]. split; [rewrite Hc0; lia|].
        intros k' H. simpl in H. apply (Hhere _ _ _ H).
      * apply Nat.leb_gt in Hcap.
        destruct (IH (obj_set result k summary) (n + 1) (tr ++ evs0)
                    Hcap Hrest) as [flow [evs [E [Hc Hch]]]].
        exists flow, (evs0 ++ evs). rewrite app_assoc.
        split; [exact E|]. split.
        -- rewrite filter_app, length_app, Hc0, Hc. lia.
        -- intros k' H.
           destruct (option_eq_dec_jsstring
                       (obj_get (flow_result flow) k')
                       (obj_get (obj_set result k summary) k'))
             as [Heq|Hne].
           ++ rewrite Heq in H. apply (Hhere _ _ _ H).
           ++ destruct (Hch k' Hne) as [before [after [Hr Hlt]]].
              apply (Hlater false k' before after Logic.I Hr Hlt Hts).
Qed.

Lemma NoDup_split_unique (A : Type) (x : A) (a : list A) :
  forall b a' b',
    NoDup (a ++ x :: b) -> a ++ x :: b = a' ++ x :: b' -> a = a'.
Proof.
  induction a as [|y a IH]; intros b a' b' Hnd E.
  - destruct a' as [|y' a']; [reflexivity|].
    simpl in E. inversion E; subst.
    inversion Hnd as [|? ? Hx _]; subst. exfalso. apply Hx.
    apply in_or_app. right. left. reflexivity.
  - destruct a' as [|y' a'].
    + simpl in E. inversion E; subst.
      inversion Hnd as [|? ? Hx _]; subst. exfalso. apply Hx.
      apply in_or_app. right. left. reflexivity.
    + simpl in E. inversion E; subst. f_equal.
      inversion Hnd; subst. eapply IH; eassumption.
Qed.

Lemma deleteCalls_no_create (W : World) (repository : PayloadRepository)
  (cs : list ReviewComment) :
  filter isCreate (deleteCalls W repository cs) = [].
Proof. induction cs as [|c cs IH]; simpl; [reflexivity | exact IH]. Qed.

(** The cap as the specification has it: with more than 20 files to
    summarize, a run in which every creation works creates exactly 20
    comments, and the files that come after the twentieth summarized file
    have no entry in the mapping. *)
Lemma cap_when_creation_works (I : Imports) (W : World)
  (repository : PayloadRepository) (pull_number pn : Z) :
  global_pullNumber W = Some pn ->
  (forall tr params, pulls_createReviewComment W tr params = Returned tt) ->
  fst (deletionPass W repository []) = Returned tt ->
  MAX_FILES_TO_SUMMARIZE
  < countSummarize W (Object_keys (modifiedFiles W)) ->
  exists result tr,
    run I W repository pull_number = (Returned result, tr)
    /\ length (filter isCreate tr) = MAX_FILES_TO_SUMMARIZE
    /\ forall before k after,
         Object_keys (modifiedFiles W) = before ++ k :: after ->
         MAX_FILES_TO_SUMMARIZE <= countSummarize W before ->
         obj_get result k = None.
Proof.
  intros Hb Hok Hdel Hmany.
  unfold run, getFileSummaries, bind.
  destruct (deletionPass_spec W repository []) as [out E].
  rewrite E in Hdel |- *. simpl in Hdel. subst out. simpl app.
  rewrite generationPass_turns.
  destruct (turns_cap I W repository pn Hb Hok
              (Object_keys (modifiedFiles W)) [] 0
              (deleteCalls W repository (commentsToDelete W)))
    as [flow [evs [Et [Hc Hch]]]].
  { unfold MAX_FILES_TO_SUMMARIZE. lia. }
  { intros k H; exact H. }
  rewrite Et. eexists. eexists. split; [reflexivity|]. split.
  - rewrite filter_app, length_app, deleteCalls_no_create, Hc.
    cbn [length]. unfold MAX_FILES_TO_SUMMARIZE in *. lia.
  - intros before k after Hkeys Hcount.
    destruct (obj_get (flow_result flow) k) as [v|] eqn:Ev; [|reflexivity].
    exfalso.
    destruct (Hch k) as [before' [after' [Hkeys' Hlt]]].
    { rewrite Ev. simpl. discriminate. }
    pose proof (modifiedFiles_NoDup W) as Hnd. rewrite Hkeys in Hnd.
    rewrite Hkeys in Hkeys'.
    apply (NoDup_split_unique _ k before after before' after' Hnd) in Hkeys'.
    subst before'. lia.
Qed.

(** C3 on the code as it is.  With 21 files to summarize, the run makes
    the completion request of the first file and then throws a
    [ReferenceError] on the identifier [pullNumber], which the argument of
    [createReviewComment] reads and nothing declares: no comment is
    created, and no mapping is returned. *)
Theorem cap_reference_error :
  countSummarize twentyOneWorld (Object_keys (modifiedFiles twentyOneWorld))
  = 21
  /\ run exampleImports twentyOneWorld exampleRepository 1
     = (Thrown (ReferenceError (js "pullNumber")),
        [ChatCompletionsCreate (js "a01.ts")
           (chatRequest exampleImports (js "a01.ts") examplePatch)])
  /\ length (filter isCreate
               (snd (run exampleImports twentyOneWorld exampleRepository 1)))
     = 0.
Proof. repeat split; vm_compute; reflexivity. Qed.

(** The same pull request where [pullNumber] is bound: 20 comments. *)
Lemma cap_bound_example :
  exists result tr,
    run exampleImports twentyOneBoundWorld exampleRepository 1
    = (Returned result, tr)
    /\ length (filter isCreate tr) = MAX_FILES_TO_SUMMARIZE
    /\ obj_get result (js "a21.ts") = None.
Proof.
  destruct (cap_when_creation_works exampleImports twentyOneBoundWorld
              exampleRepository 1 1 eq_refl (fun _ _ => eq_refl) eq_refl)
    as [result [tr [E [Hc Hnone]]]].
  - vm_compute. lia.
  - exists result, tr. split; [exact E|]. split; [exact Hc|].
    apply (Hnone (map js ["a01.ts"; "a02.ts"; "a03.ts"; "a04.ts"; "a05.ts";
                          "a06.ts"; "a07.ts"; "a08.ts"; "a09.ts"; "a10.ts";
                          "a11.ts"; "a12.ts"; "a13.ts"; "a14.ts"; "a15.ts";
                          "a16.ts"; "a17.ts"; "a18.ts"; "a19.ts";
                          "a20.ts"]%string) (js "a21.ts") []).
    + vm_compute. reflexivity.
    + vm_compute. lia.
Qed.

(** ** The theorems at concrete runs *)

Lemma skipped_file_untouched_witness :
  (In binaryModified (Object_values (modifiedFiles binaryWorld))
   /\ (diff binaryModified = []
       \/ includes (diff binaryModified) (js "https://git-lfs.github.com/")
          = true))
  /\ (forall request,
         ~ In (ChatCompletionsCreate (js "logo.png") request)
              (snd (run exampleImports binaryWorld exampleRepository 1)))
  /\ (forall params,
         In (CreateReviewComment params)
            (snd (run exampleImports binaryWorld exampleRepository 1)) ->
         path params <> js "logo.png")
  /\ (forall result,
         fst (run exampleImports binaryWorld exampleRepository 1)
         = Returned result ->
         obj_get result (js "logo.png") = None).
Proof.
  assert (H1 : In binaryModified (Object_values (modifiedFiles binaryWorld)))
    by (left; vm_compute; reflexivity).
  assert (H2 : diff binaryModified = []
               \/ includes (diff binaryModified)
                    (js "https://git-lfs.github.com/") = true)
    by (left; reflexivity).
  split; [split; [exact H1 | exact H2]|].
  exact (skipped_file_untouched exampleImports binaryWorld exampleRepository 1
           binaryModified H1 H2).
Defined.


Lemma comment_placement_witness :
  In (CreateReviewComment aParams)
     (snd (run exampleImports twoFilesBoundWorld exampleRepository 1))
  /\ exists f,
       In f (Object_values (modifiedFiles twoFilesBoundWorld))
       /\ path aParams = filename f
       /\ line aParams
          = (if Number_isFinite (position f) && gt_zero (position f)
             then position f
             else num_one)
       /\ (side aParams = RIGHT <->
           gt_zero (position f) = true \/ originSha f = js "None")
       /\ (side aParams = LEFT <->
           ~ (gt_zero (position f) = true \/ originSha f = js "None")).
Proof.
  assert (H : In (CreateReviewComment aParams)
                 (snd (run exampleImports twoFilesBoundWorld
                         exampleRepository 1)))
    by (vm_compute; right; left; reflexivity).
  split; [exact H|].
  exact (comment_placement exampleImports twoFilesBoundWorld exampleRepository
           1 aParams H).
Defined.


(** * Further properties of the code *)

(** ** preprocessCommitMessage *)

Lemma preprocess_fixed (s : jsstring) :
  preprocess_step s = None -> preprocessCommitMessage s = s.
Proof.
  intros H. unfold preprocessCommitMessage. cbn [preprocess_loop].
  rewrite H. reflexivity.
Qed.

Lemma preprocess_loop_length (fuel : nat) :
  forall s r, preprocess_loop fuel s = Some r -> length r <= length s.
Proof.
  induction fuel as [|fuel IH]; intros s r H; [discriminate|].
  cbn [preprocess_loop] in H.
  destruct (preprocess_step s) as [s'|] eqn:E.
  - apply IH in H. apply preprocess_step_shorter in E. lia.
  - inversion H; subst. lia.
Qed.

(** X1. Normalizing twice is normalizing once. *)
Theorem preprocess_idempotent (s : jsstring) :
  preprocessCommitMessage (preprocessCommitMessage s)
  = preprocessCommitMessage s.
Proof.
  apply preprocess_fixed. apply (proj2 (preprocess_normal s)).
Qed.

(** X2. Normalization never lengthens a message, and it returns the
    message as it is exactly when the link pattern does not match it. *)
Theorem preprocess_unchanged_iff (s : jsstring) :
  length (preprocessCommitMessage s) <= length s
  /\ (preprocessCommitMessage s = s <-> regex_match linkRegex s = None).
Proof.
  destruct (preprocess_normal s) as [E N].
  split; [exact (preprocess_loop_length _ _ _ E)|].
  split.
  - intros Heq. rewrite Heq in N. rewrite preprocess_step_unfold in N.
    destruct (regex_match linkRegex s) as [[m0 m1]|];
      [discriminate | reflexivity].
  - intros Hn. apply preprocess_fixed. rewrite preprocess_step_unfold, Hn.
    reflexivity.
Qed.

Lemma preprocess_step_prefix (pre s : jsstring) :
  forallb (notChar (ch "[")) pre = true ->
  preprocess_step (pre ++ s) = option_map (app pre) (preprocess_step s).
Proof.
  intros Hpre. rewrite !preprocess_step_unfold, (regex_match_skip pre s Hpre).
  destruct (regex_match linkRegex s) as [[m0 m1]|] eqn:E; [|reflexivity].
  apply regex_match_sound in E. destruct E as [_ [_ [_ M]]].
  apply link_shape in M. destruct M as [x [mid [z [Hm _]]]].
  cbn [option_map]. f_equal.
  apply (replaceAll_pass_bracket m0 _ (join_arg m1) pre s Hm Hpre).
Qed.

Lemma preprocess_loop_prefix (pre : jsstring) (fuel : nat) :
  forallb (notChar (ch "[")) pre = true ->
  forall s,
    preprocess_loop fuel (pre ++ s)
    = option_map (app pre) (preprocess_loop fuel s).
Proof.
  intros Hpre. induction fuel as [|fuel IH]; intros s; [reflexivity|].
  cbn [preprocess_loop]. rewrite (preprocess_step_prefix pre s Hpre).
  destruct (preprocess_step s) as [s'|]; cbn [option_map];
    [apply IH | reflexivity].
Qed.

Lemma preprocess_prefix (pre s : jsstring) :
  forallb (notChar (ch "[")) pre = true ->
  preprocessCommitMessage (pre ++ s) = pre ++ preprocessCommitMessage s.
Proof.
  intros Hpre.
  destruct (preprocess_normal (pre ++ s)) as [E _].
  destruct (preprocess_normal s) as [E' _].
  pose proof (preprocess_loop_prefix pre (S (length s)) Hpre s) as P.
  rewrite E' in P. cbn [option_map] in P.
  exact (preprocess_loop_unique _ _ _ _ _ E P).
Qed.

(** X3. Normalization leaves a prefix without [[] in place and works on
    the rest of the message alone. *)
Theorem preprocess_keeps_prefix (pre s : jsstring) :
  forallb (fun c => negb (N.eqb c (ch "["))) pre = true ->
  preprocessCommitMessage (pre ++ s) = pre ++ preprocessCommitMessage s.
Proof.
  intros Hpre.
  destruct (preprocess_normal (pre ++ s)) as [E _].
  destruct (preprocess_normal s) as [E' _].
  pose proof (preprocess_loop_prefix pre (S (length s)) Hpre s) as P.
  rewrite E' in P. cbn [option_map] in P.
  exact (preprocess_loop_unique _ _ _ _ _ E P).
Qed.

Lemma preprocess_keeps_prefix_witness :
  forallb (fun c => negb (N.eqb c (ch "["))) (js "See ") = true
  /\ preprocessCommitMessage
       (js "See " ++ js "[None](https://github.com/o/r#None)")
     = js "See " ++ preprocessCommitMessage
                      (js "[None](https://github.com/o/r#None)").
Proof.
  assert (H : forallb (fun c => negb (N.eqb c (ch "["))) (js "See ") = true)
    by reflexivity.
  split; [exact H|].
  exact (preprocess_keeps_prefix (js "See ")
           (js "[None](https://github.com/o/r#None)") H).
Defined.

(** ** getReviewComments *)

(** X4. [getReviewComments] keeps the comments in their order with their
    ids, takes a missing body as the empty message, and returns messages
    in which no link is left. *)
Theorem getReviewComments_normalized (W : World) :
  map id (getReviewComments W) = map comment_id (listReviewComments_all W)
  /\ (forall c, In c (getReviewComments W) ->
                regex_match linkRegex (message c) = None)
  /\ (forall remote,
         In remote (listReviewComments_all W) ->
         comment_body remote = None ->
         In {| message := []; id := comment_id remote |}
            (getReviewComments W)).
Proof.
  unfold getReviewComments. split; [|split].
  - rewrite map_map. reflexivity.
  - intros c Hin. apply in_map_iff in Hin. destruct Hin as [remote [<- _]].
    cbn [message].
    destruct (preprocess_normal (nullish (comment_body remote) [])) as [_ N].
    rewrite preprocess_step_unfold in N.
    destruct (regex_match linkRegex _) as [[m0 m1]|];
      [discriminate | reflexivity].
  - intros remote Hin Hb.
    apply in_map_iff. exists remote. split; [|exact Hin].
    rewrite Hb. reflexivity.
Qed.

(** ** getOpenAISummaryForFile *)

(** X5. [getOpenAISummaryForFile] never throws: whatever the completion
    service does, a string is returned, after at most one request, which is
    the request for the given file and diff. *)
Theorem getOpenAISummaryForFile_never_throws (I : Imports) (W : World)
  (filename patch : jsstring) (tr : list Event) :
  exists summary,
    (getOpenAISummaryForFile I W filename patch tr = (Returned summary, tr)
     /\ summary = sentinel)
    \/ getOpenAISummaryForFile I W filename patch tr
       = (Returned summary,
          tr ++ [ChatCompletionsCreate filename
                   (chatRequest I filename patch)]).
Proof.
  unfold getOpenAISummaryForFile, summary_attempt, bind, try_catch,
    call_chat_completions_create, throw, ret.
  destruct (Z.of_nat (length (openAIPrompt filename patch))
            >? MAX_OPEN_AI_QUERY_LENGTH I)%Z.
  - exists sentinel. left. split; reflexivity.
  - destruct (chat_completions_create W tr (chatRequest I filename patch))
      as [completion|e].
    + destruct (choices completion) as [[|first rest]|];
        eexists; right; reflexivity.
    + eexists; right; reflexivity.
Qed.

(** X6. When the prompt is within the ceiling, the sentinel is returned
    if the request is rejected, and if the answer has no list of choices or
    an empty one. *)
Theorem failed_completion_gives_sentinel (I : Imports) (W : World)
  (filename patch : jsstring) (tr : list Event) :
  (Z.of_nat (length (openAIPrompt filename patch))
   <= MAX_OPEN_AI_QUERY_LENGTH I)%Z ->
  (exists e, chat_completions_create W tr (chatRequest I filename patch)
             = Thrown e)
  \/ chat_completions_create W tr (chatRequest I filename patch)
     = Returned {| choices := None |}
  \/ chat_completions_create W tr (chatRequest I filename patch)
     = Returned {| choices := Some [] |} ->
  getOpenAISummaryForFile I W filename patch tr
  = (Returned (js "Error: couldn't generate summary"),
     tr ++ [ChatCompletionsCreate filename (chatRequest I filename patch)]).
Proof.
  intros Hle H.
  unfold getOpenAISummaryForFile, summary_attempt, bind, try_catch,
    call_chat_completions_create, throw, ret.
  destruct (Z.gtb_spec (Z.of_nat (length (openAIPrompt filename patch)))
                       (MAX_OPEN_AI_QUERY_LENGTH I)) as [Hgt|_]; [lia|].
  destruct H as [[e ->] | [-> | ->]]; reflexivity.
Qed.

Lemma failed_completion_gives_sentinel_witness :
  (Z.of_nat (length (openAIPrompt (js "a.ts") examplePatch))
   <= MAX_OPEN_AI_QUERY_LENGTH exampleImports)%Z
  /\ getOpenAISummaryForFile exampleImports rejectingWorld (js "a.ts")
       examplePatch []
     = (Returned (js "Error: couldn't generate summary"),
        [ChatCompletionsCreate (js "a.ts")
           (chatRequest exampleImports (js "a.ts") examplePatch)]).
Proof.
  assert (H : (Z.of_nat (length (openAIPrompt (js "a.ts") examplePatch))
               <= MAX_OPEN_AI_QUERY_LENGTH exampleImports)%Z)
    by (vm_compute; discriminate).
  split; [exact H|].
  exact (failed_completion_gives_sentinel exampleImports rejectingWorld
           (js "a.ts") examplePatch [] H
           (or_introl (ex_intro _ (RequestError 429) eq_refl))).
Defined.

(** ** The modified files *)






(** ** The identifier of the base version *)

Lemma lookupOriginSha_find (W : World) (file_name : jsstring) :
  lookupOriginSha W file_name
  = match find (hasPath file_name) (getTree_tree W) with
    | Some tree => nullish (tree_sha tree) (js "None")
    | None => js "None"
    end.
Proof. reflexivity. Qed.

(** X9. [originSha] is ["None"] when no entry of the base tree has the
    path of the file; otherwise it is the [sha] of the first entry with
    that path, or ["None"] if this entry has none. *)
Theorem originSha_of_base_tree (W : World) (file_name : jsstring) :
  ((forall tree, In tree (getTree_tree W) ->
                 tree_path tree <> Some file_name) ->
   lookupOriginSha W file_name = js "None")
  /\ (forall before tree after,
         getTree_tree W = before ++ tree :: after ->
         (forall t, In t before -> tree_path t <> Some file_name) ->
         tree_path tree = Some file_name ->
         lookupOriginSha W file_name
         = match tree_sha tree with
           | Some s => s
           | None => js "None"
           end).
Proof.
  rewrite lookupOriginSha_find. split.
  - intros H. destruct (find (hasPath file_name) (getTree_tree W))
      as [tree|] eqn:E; [|reflexivity].
    apply find_some in E. destruct E as [Hin Hp]. exfalso.
    apply (H tree Hin). unfold hasPath in Hp.
    destruct (tree_path tree) as [p|]; [|discriminate].
    apply str_eqb_eq in Hp. subst p. reflexivity.
  - intros before tree after -> Hb Ht.
    assert (E : find (hasPath file_name) (before ++ tree :: after)
                = Some tree).
    { induction before as [|t before IH]; simpl.
      - unfold hasPath. rewrite Ht, str_eqb_refl. reflexivity.
      - assert (Hf : hasPath file_name t = false).
        { unfold hasPath. destruct (tree_path t) as [p|] eqn:Ep;
            [|reflexivity].
          apply str_eqb_neq. intros ->. apply (Hb t (or_introl eq_refl)).
          exact Ep. }
        rewrite Hf. apply IH. intros t' Hin. apply Hb. right; exact Hin. }
    rewrite E. reflexivity.
Qed.

(** ** The parsed position *)

Lemma split_pass (m x s : jsstring) :
  (forall u c v, x = u ++ c :: v -> startsWith (c :: v ++ s) m = false) ->
  exists h r,
    split_from m 0 s = h :: r /\ split_from m 0 (x ++ s) = (x ++ h) :: r.
Proof.
  induction x as [|c x IH]; intros H.
  - pose proof (split_from_nonempty m 0 s) as Hn. cbn [app].
    destruct (split_from m 0 s) as [|h r]; [congruence|].
    exists h, r. split; reflexivity.
  - destruct IH as [h [r [E1 E2]]].
    { intros u c' v E. apply (H (c :: u) c' v). rewrite E. reflexivity. }
    exists h, r. split; [exact E1|].
    change ((c :: x) ++ s) with (c :: (x ++ s)).
    destruct (split_miss m c (x ++ s) (H [] c x eq_refl))
      as [h' [r' [E1' E2']]].
    rewrite E2'. rewrite E2 in E1'. inversion E1'; subst. reflexivity.
Qed.

Lemma split_char_pass (c0 : N) (x s : jsstring) :
  forallb (notChar c0) x = true ->
  exists h r,
    split [c0] s = h :: r /\ split [c0] (x ++ s) = (x ++ h) :: r.
Proof.
  intros Hx. unfold split. apply split_pass.
  intros u c v E. subst x. rewrite forallb_app in Hx.
  apply andb_true_iff in Hx. destruct Hx as [_ Hx]. cbn [forallb] in Hx.
  apply andb_true_iff in Hx. destruct Hx as [Hc _]. unfold notChar in Hc.
  apply negb_true_iff in Hc. apply startsWith_first. exact Hc.
Qed.

Lemma split_char_hit (c0 : N) (s : jsstring) :
  split [c0] (c0 :: s) = [] :: split [c0] s.
Proof.
  unfold split. change (c0 :: s) with ([c0] ++ s).
  apply split_hit. discriminate.
Qed.

Lemma split_char_none (c0 : N) (x : jsstring) :
  forallb (notChar c0) x = true -> split [c0] x = [x].
Proof.
  intros Hx. destruct (split_char_pass c0 x [] Hx) as [h [r [E1 E2]]].
  rewrite app_nil_r in E2. rewrite E2.
  unfold split in E1. cbn in E1. inversion E1; subst.
  rewrite app_nil_r. reflexivity.
Qed.

(** X10. The position of a file is [NaN] when its patch has no [+]; when
    the patch has, after its first [+], a text without [+] and [,] followed
    by a comma, as in a hunk header [@@ -a,b +c,d @@], the position is the
    number that this text (here [c]) denotes. *)
Theorem position_of_patch (W : World) :
  (forall patch,
      forallb (notChar (ch "+")) patch = true ->
      parsePosition W (Some patch) = NaN)
  /\ (forall before start rest,
         forallb (notChar (ch "+")) before = true ->
         forallb (notChar (ch "+")) start = true ->
         forallb (notChar (ch ",")) start = true ->
         parsePosition W (Some (before ++ js "+" ++ start ++ js "," ++ rest))
         = StringToNumber W start).
Proof.
  split.
  - intros patch H. unfold parsePosition.
    change (js "+") with [ch "+"]. rewrite (split_char_none _ patch H).
    reflexivity.
  - intros before start rest Hb Hs1 Hs2. unfold parsePosition.
    change (js "+") with [ch "+"]. change (js ",") with [ch ","].
    destruct (split_char_pass (ch "+") before
                ([ch "+"] ++ start ++ [ch ","] ++ rest) Hb)
      as [h [r [E1 E2]]].
    rewrite E2. cbn [nth_error].
    change ([ch "+"] ++ start ++ [ch ","] ++ rest)
      with (ch "+" :: (start ++ [ch ","] ++ rest)) in E1.
    rewrite split_char_hit in E1.
    apply (f_equal (@tl jsstring)) in E1. cbn [tl] in E1. subst r.
    clear E2 h.
    destruct (split_char_pass (ch "+") start ([ch ","] ++ rest) Hs1)
      as [h [r [E3 E4]]].
    rewrite E4. cbn [nth_error].
    assert (Hh : exists h', h = ch "," :: h').
    { change ([ch ","] ++ rest) with (ch "," :: rest) in E3.
      unfold split in E3.
      destruct (split_miss [ch "+"] (ch ",") rest eq_refl)
        as [h' [r' [_ E5]]].
      rewrite E5 in E3. apply (f_equal (@hd jsstring [])) in E3.
      cbn [hd] in E3. exists h'. symmetry. exact E3. }
    destruct Hh as [h' ->].
    destruct (split_char_pass (ch ",") start (ch "," :: h') Hs2)
      as [h2 [r2 [E5 E6]]].
    rewrite E6. rewrite split_char_hit in E5.
    apply (f_equal (@hd jsstring [])) in E5. cbn [hd] in E5. subst h2.
    cbn [nth_error]. rewrite app_nil_r. reflexivity.
Qed.

(** ** The two passes together *)

(** X11. The comment whose body the generation pass reuses for a file is
    a bot comment that the deletion pass of the same run keeps. *)
Theorem reused_comment_is_kept (W : World) (k : jsstring)
  (f : ModifiedFile) (c : ReviewComment) :
  obj_get (modifiedFiles W) k = Some f ->
  actionOf W f = Reuse c ->
  In c (aiComments W) /\ ~ In c (commentsToDelete W).
Proof.
  intros Hf Ha. unfold actionOf in Ha.
  destruct (str_eqb (diff f) []); [discriminate|].
  destruct (includes (diff f) lfsMarker); [discriminate|].
  destruct (find _ (aiComments W)) as [c'|] eqn:E; [|discriminate].
  inversion Ha; subst c'. apply find_some in E. destruct E as [Hin Hinc].
  split; [exact Hin|]. intros Hdel. apply commentsToDelete_In in Hdel.
  destruct Hdel as [_ [_ Hall]].
  assert (Hv : In f (Object_values (modifiedFiles W)))
    by (apply modifiedFiles_value; exists k; exact Hf).
  apply Hall in Hv. unfold getTitle in Hv. unfold expectedComment in Hinc.
  congruence.
Qed.

Lemma reused_comment_is_kept_witness :
  (obj_get (modifiedFiles reuseWorld) (js "a.ts") = Some aModified
   /\ actionOf reuseWorld aModified = Reuse aReview)
  /\ In aReview (aiComments reuseWorld)
  /\ ~ In aReview (commentsToDelete reuseWorld).
Proof.
  assert (H1 : obj_get (modifiedFiles reuseWorld) (js "a.ts")
               = Some aModified) by (vm_compute; reflexivity).
  assert (H2 : actionOf reuseWorld aModified = Reuse aReview)
    by (vm_compute; reflexivity).
  split; [split; assumption|].
  exact (reused_comment_is_kept reuseWorld (js "a.ts") aModified aReview
           H1 H2).
Defined.

(** X12. The line on which a comment is anchored is always a finite
    number greater than 0, whatever the position parsed from the patch. *)
Theorem comment_line_is_valid (f : ModifiedFile) :
  Number_isFinite (commentLine f) = true /\ gt_zero (commentLine f) = true.
Proof.
  unfold commentLine.
  destruct (Number_isFinite (position f)) eqn:Ef;
    [destruct (gt_zero (position f)) eqn:Eg|];
    try (split; reflexivity).
  split; assumption.
Qed.

(** ** Bounds on the remote calls *)

Lemma toSummarize_action (W : World) (k : jsstring) (f : ModifiedFile) :
  obj_get (modifiedFiles W) k = Some f ->
  toSummarize W k = match actionOf W f with
                    | Summarize => true
                    | _ => false
                    end.
Proof. intros Hf. unfold toSummarize. rewrite Hf. reflexivity. Qed.

(** A turn makes at most one completion request and one creation, and
    only for a file that is to be summarized; the counter grows by one with
    a summary, and stays below the cap when the loop goes on. *)
Lemma iteration_counts (I : Imports) (W : World)
  (repository : PayloadRepository) (k : jsstring)
  (result : obj jsstring) (n : nat) (tr : list Event) :
  exists evs out,
    iteration I W repository k result n tr = (out, tr ++ evs)
    /\ length (filter isChat evs) <= (if toSummarize W k then 1 else 0)
    /\ length (filter isCreate evs) <= (if toSummarize W k then 1 else 0)
    /\ filter isDelete evs = []
    /\ match out with
       | Returned (Next _ n') =>
           n' = n + (if toSummarize W k then 1 else 0)
           /\ (toSummarize W k = true -> n' < MAX_FILES_TO_SUMMARIZE)
       | _ => True
       end.
Proof.
  destruct (obj_get (modifiedFiles W) k) as [f|] eqn:Hf.
  2:{ exists [], (Thrown TypeError). unfold iteration. rewrite Hf, app_nil_r.
      repeat split; simpl; lia. }
  rewrite (toSummarize_action W k f Hf).
  destruct (actionOf W f) as [|c|] eqn:Ha.
  - exists [], (Returned (Next result n)).
    rewrite (iteration_skip I W repository k f result n tr Hf Ha), app_nil_r.
    repeat split; simpl; try lia; try discriminate.
  - exists [], (Returned (Next (obj_set result k
                                  (withoutFirstLine (message c))) n)).
    rewrite (iteration_reuse I W repository k f c result n tr Hf Ha),
      app_nil_r.
    repeat split; simpl; try lia; try discriminate.
  - destruct (getOpenAISummaryForFile_total I W k (diff f) tr)
      as [summary [evs [Hs Hevs]]].
    rewrite (iteration_summarize I W repository k f result n tr
               (tr ++ evs) summary Hf Ha Hs).
    rewrite createComment_cases.
    destruct (global_pullNumber W) as [pn|].
    + exists (evs ++ [CreateReviewComment
                        (paramsOf W repository pn f
                           (commentBody W repository k f summary))]).
      rewrite app_assoc.
      destruct (pulls_createReviewComment W (tr ++ evs) _) as [[]|e].
      * destruct (MAX_FILES_TO_SUMMARIZE <=? n + 1) eqn:Hcap;
          eexists; (split; [reflexivity|]);
          rewrite !filter_app, !length_app;
          (destruct Hevs as [-> | ->]; simpl;
           repeat split; try lia; try reflexivity).
        all: intros _; apply Nat.leb_gt in Hcap; exact Hcap.
      * eexists. split; [reflexivity|].
        rewrite !filter_app, !length_app.
        destruct Hevs as [-> | ->]; simpl; repeat split; lia.
    + exists evs. eexists. split; [reflexivity|].
      destruct Hevs as [-> | ->]; simpl; repeat split; lia.
Qed.

Lemma turns_counts (I : Imports) (W : World)
  (repository : PayloadRepository) (keys : list jsstring) :
  forall (result : obj jsstring) (n : nat) (tr : list Event),
    n < MAX_FILES_TO_SUMMARIZE ->
    exists evs out,
      turns I W repository keys result n tr = (out, tr ++ evs)
      /\ length (filter isChat evs)
         <= Nat.min (countSummarize W keys) (MAX_FILES_TO_SUMMARIZE - n)
      /\ length (filter isCreate evs)
         <= Nat.min (countSummarize W keys) (MAX_FILES_TO_SUMMARIZE - n)
      /\ filter isDelete evs = [].
Proof.
  induction keys as [|k rest IH]; intros result n tr Hn.
  - exists [], (Returned (Next result n)). rewrite app_nil_r.
    repeat split; simpl; lia.
  - rewrite turns_cons, countSummarize_cons.
    destruct (iteration_counts I W repository k result n tr)
      as [evs [out [E [Hc1 [Hc2 [Hd Hn']]]]]].
    rewrite E.
    assert (Hb : (if toSummarize W k then 1 else 0) <= 1)
      by (destruct (toSummarize W k); lia).
    destruct out as [[r n'|r]|e].
    + destruct Hn' as [-> Hlt].
      assert (Hn2 : n + (if toSummarize W k then 1 else 0)
                    < MAX_FILES_TO_SUMMARIZE).
      { destruct (toSummarize W k); [apply Hlt; reflexivity | lia]. }
      destruct (IH r _ (tr ++ evs) Hn2)
        as [evs' [out' [E' [Hc1' [Hc2' Hd']]]]].
      exists (evs ++ evs'), out'. rewrite app_assoc.
      split; [exact E'|].
      rewrite !filter_app, !length_app, Hd, Hd'.
      repeat split; try reflexivity; lia.
    + exists evs, (Returned (Break r)).
      repeat split; try assumption; destruct (toSummarize W k); lia.
    + exists evs, (Thrown e).
      repeat split; try assumption; destruct (toSummarize W k); lia.
Qed.

(** X13. A run makes at most 20 completion requests and creates at most
    20 comments, and no more of either than there are files to
    summarize. *)
Theorem remote_calls_bounded (I : Imports) (W : World)
  (repository : PayloadRepository) (pull_number : Z) :
  length (filter isChat (snd (run I W repository pull_number)))
  <= Nat.min (countSummarize W (Object_keys (modifiedFiles W))) 20
  /\ length (filter isCreate (snd (run I W repository pull_number)))
     <= Nat.min (countSummarize W (Object_keys (modifiedFiles W))) 20.
Proof.
  unfold run, getFileSummaries, bind.
  destruct (deletionPass_spec W repository []) as [out E]. rewrite E.
  cbn [app].
  assert (Hd : forall cs,
             filter isChat (deleteCalls W repository cs) = []
             /\ filter isCreate (deleteCalls W repository cs) = []).
  { induction cs as [|c cs [IH1 IH2]]; split; simpl; auto. }
  destruct (Hd (commentsToDelete W)) as [Hd1 Hd2].
  destruct out as [[]|e]; cbn [snd].
  - rewrite generationPass_turns.
    destruct (turns_counts I W repository (Object_keys (modifiedFiles W))
                [] 0 (deleteCalls W repository (commentsToDelete W)))
      as [evs [out [E' [Hc1 [Hc2 _]]]]].
    { unfold MAX_FILES_TO_SUMMARIZE. lia. }
    rewrite E'.
    assert (Hs : snd (match out with
                      | Returned flow =>
                          (Returned (flow_result flow),
                           deleteCalls W repository (commentsToDelete W)
                           ++ evs)
                      | Thrown e =>
                          (Thrown e,
                           deleteCalls W repository (commentsToDelete W)
                           ++ evs)
                      end)
                 = deleteCalls W repository (commentsToDelete W) ++ evs)
      by (destruct out; reflexivity).
    rewrite Hs, !filter_app, !length_app, Hd1, Hd2.
    unfold MAX_FILES_TO_SUMMARIZE in *. simpl length. lia.
  - rewrite Hd1, Hd2. simpl. lia.
Qed.

(** ** The order of the calls, and a failing deletion *)

Lemma deleteCalls_only_deletes (W : World) (repository : PayloadRepository)
  (cs : list ReviewComment) :
  filter isDelete (deleteCalls W repository cs)
  = deleteCalls W repository cs.
Proof.
  induction cs as [|c cs IH]; simpl; [reflexivity | rewrite IH; reflexivity].
Qed.


(** X15. When the deletions do not all succeed, the run throws what
    [Promise.all] rejects with, after it has requested every deletion and
    before it summarizes any file. *)
Theorem failed_deletion_aborts (I : Imports) (W : World)
  (repository : PayloadRepository) (pull_number : Z) (e : exn) :
  commentsToDelete W <> [] ->
  deleteReviewComments_settle W
    (deleteCalls W repository (commentsToDelete W))
    (map id (commentsToDelete W)) = Thrown e ->
  run I W repository pull_number
  = (Thrown e, deleteCalls W repository (commentsToDelete W)).
Proof.
  intros Hne Hs. unfold run, getFileSummaries, deletionPass, bind.
  rewrite (issueDeletes_spec W repository (commentsToDelete W) []).
  cbn [app]. unfold awaitDeletes.
  destruct (commentsToDelete W) as [|c cs] eqn:Ec; [congruence|].
  rewrite Hs. reflexivity.
Qed.

Lemma failed_deletion_aborts_witness :
  commentsToDelete failingDeleteWorld <> []
  /\ run exampleImports failingDeleteWorld exampleRepository 1
     = (Thrown (RequestError 403),
        [DeleteReviewComment (js "octo") (js "demo") 21]).
Proof.
  assert (H1 : commentsToDelete failingDeleteWorld <> [])
    by (vm_compute; discriminate).
  split; [exact H1|].
  exact (failed_deletion_aborts exampleImports failingDeleteWorld
           exampleRepository 1 (RequestError 403) H1 eq_refl).
Defined.

(** ** The returned mapping *)

(** What [result] holds: entries for files that are not skipped, the
    entry of a reused file being the body of its comment less the first
    line. *)
Lemma iteration_keeps_entries (I : Imports) (W : World)
  (repository : PayloadRepository) (k : jsstring)
  (result : obj jsstring) (n : nat) (tr tr' : list Event) (flow : Flow)
  (P : jsstring -> jsstring -> Prop) :
  (forall f c, obj_get (modifiedFiles W) k = Some f ->
               actionOf W f = Reuse c ->
               P k (withoutFirstLine (message c))) ->
  (forall f v, obj_get (modifiedFiles W) k = Some f ->
               actionOf W f = Summarize -> P k v) ->
  (forall k' v, obj_get result k' = Some v -> P k' v) ->
  iteration I W repository k result n tr = (Returned flow, tr') ->
  forall k' v, obj_get (flow_result flow) k' = Some v -> P k' v.
Proof.
  intros Hreuse Hsum Hres H k' v Hv.
  destruct (iteration_spec I W repository k result n tr)
    as [evs [out [E [_ Hspec]]]].
  rewrite H in E. inversion E; subst out.
  destruct (Hspec flow eq_refl) as [f [Hf [Hother Hact]]].
  destruct (list_eq_dec N.eq_dec k' k) as [->|Hne].
  2:{ rewrite (Hother k' Hne) in Hv. apply Hres. exact Hv. }
  destruct (actionOf W f) as [|c|] eqn:Ha.
  - destruct Hact as [-> _]. apply Hres. exact Hv.
  - destruct Hact as [-> _]. cbn [flow_result] in Hv.
    rewrite obj_set_get_same in Hv. inversion Hv; subst v.
    apply (Hreuse f c Hf Ha).
  - apply (Hsum f v Hf Ha).
Qed.

Lemma turns_keep_entries (I : Imports) (W : World)
  (repository : PayloadRepository) (P : jsstring -> jsstring -> Prop)
  (keys : list jsstring) :
  (forall k f c, obj_get (modifiedFiles W) k = Some f ->
                 actionOf W f = Reuse c ->
                 P k (withoutFirstLine (message c))) ->
  (forall k f v, obj_get (modifiedFiles W) k = Some f ->
                 actionOf W f = Summarize -> P k v) ->
  forall (result : obj jsstring) (n : nat) (tr tr' : list Event)
         (flow : Flow),
    (forall k' v, obj_get result k' = Some v -> P k' v) ->
    turns I W repository keys result n tr = (Returned flow, tr') ->
    forall k' v, obj_get (flow_result flow) k' = Some v -> P k' v.
Proof.
  intros Hreuse Hsum.
  induction keys as [|k rest IH]; intros result n tr tr' flow Hres H.
  - inversion H; subst. exact Hres.
  - rewrite turns_cons in H.
    destruct (iteration I W repository k result n tr)
      as [[[r n'|r]|e] tr1] eqn:E; [| |discriminate].
    + apply (IH r n' tr1 tr' flow); [|exact H].
      apply (iteration_keeps_entries I W repository k result n tr tr1
               (Next r n') P (Hreuse k) (Hsum k) Hres E).
    + inversion H; subst.
      apply (iteration_keeps_entries I W repository k result n tr tr'
               (Break r) P (Hreuse k) (Hsum k) Hres E).
Qed.

(** X16. Every entry of the mapping that a run returns is the entry of a
    modified file that is not skipped; for a file with a matching bot
    comment it is the body of the first such comment less its first
    line. *)
Theorem returned_entries (I : Imports) (W : World)
  (repository : PayloadRepository) (pull_number : Z)
  (result : obj jsstring) (k v : jsstring) :
  fst (run I W repository pull_number) = Returned result ->
  obj_get result k = Some v ->
  exists f,
    obj_get (modifiedFiles W) k = Some f
    /\ diff f <> []
    /\ includes (diff f) (js "https://git-lfs.github.com/") = false
    /\ forall c,
         find (fun reviewSummary =>
                 includes (message reviewSummary) (getTitle f))
              (aiComments W) = Some c ->
         v = join nl (slice1 (split nl (message c))).
Proof.
  intros Hout Hv.
  destruct (run_spec I W repository pull_number) as [out [gen [E [_ Hr]]]].
  rewrite E in Hout. cbn [fst] in Hout.
  destruct (Hr result Hout) as [flow [Et ->]].
  set (P := fun (k : jsstring) (v : jsstring) =>
              exists f,
                obj_get (modifiedFiles W) k = Some f
                /\ actionOf W f <> Skip
                /\ forall c, actionOf W f = Reuse c ->
                             v = withoutFirstLine (message c)).
  assert (HP : P k v).
  { refine (turns_keep_entries I W repository P
              (Object_keys (modifiedFiles W)) _ _ [] 0 _ _ flow _ Et k v Hv).
    - intros k0 f c Hf Ha. exists f. split; [exact Hf|].
      split; [congruence|]. intros c' Hc'. congruence.
    - intros k0 f v0 Hf Ha. exists f. split; [exact Hf|].
      split; [congruence|]. intros c' Hc'. congruence.
    - intros k' v' H. discriminate. }
  destruct HP as [f [Hf [Hns Hre]]]. exists f. split; [exact Hf|].
  assert (Hd : diff f <> [] /\ includes (diff f) lfsMarker = false).
  { destruct (str_eqb (diff f) []) eqn:E1.
    - exfalso. apply Hns. apply actionOf_skip. left.
      apply str_eqb_eq. exact E1.
    - apply str_eqb_neq in E1. split; [exact E1|].
      destruct (includes (diff f) lfsMarker) eqn:E2; [|reflexivity].
      exfalso. apply Hns. apply actionOf_skip. right. exact E2. }
  destruct Hd as [Hd1 Hd2]. split; [exact Hd1|]. split; [exact Hd2|].
  intros c Hc. apply Hre. unfold actionOf.
  apply str_eqb_neq in Hd1. rewrite Hd1, Hd2.
  change (expectedComment f) with (getTitle f). rewrite Hc. reflexivity.
Qed.

Lemma returned_entries_witness :
  (fst (run exampleImports reuseWorld exampleRepository 1)
   = Returned [(js "a.ts", js "* Renamed x")]
   /\ obj_get [(js "a.ts", js "* Renamed x")] (js "a.ts")
      = Some (js "* Renamed x"))
  /\ exists f,
       obj_get (modifiedFiles reuseWorld) (js "a.ts") = Some f
       /\ diff f <> []
       /\ includes (diff f) (js "https://git-lfs.github.com/") = false
       /\ forall c,
            find (fun reviewSummary =>
                    includes (message reviewSummary) (getTitle f))
                 (aiComments reuseWorld) = Some c ->
            js "* Renamed x" = join nl (slice1 (split nl (message c))).
Proof.
  assert (H1 : fst (run exampleImports reuseWorld exampleRepository 1)
               = Returned [(js "a.ts", js "* Renamed x")])
    by (vm_compute; reflexivity).
  assert (H2 : obj_get [(js "a.ts", js "* Renamed x")] (js "a.ts")
               = Some (js "* Renamed x")) by reflexivity.
  split; [split; assumption|].
  exact (returned_entries exampleImports reuseWorld exampleRepository 1
           [(js "a.ts", js "* Renamed x")] (js "a.ts") (js "* Renamed x")
           H1 H2).
Defined.

(** ** Runs with and without a file to summarize *)











(** ** The first line of a message *)

Lemma replaceAll_same (m s : jsstring) : m <> [] -> replaceAll m m s = s.
Proof.
  intros Hne. pattern s. apply (split_scan_ind m); [exact Hne | | |].
  - unfold replaceAll, split. destruct m; [congruence | reflexivity].
  - intros t IH. rewrite (replaceAll_hit m m t Hne), IH. reflexivity.
  - intros c t E IH. rewrite (replaceAll_miss m m c t Hne E), IH.
    reflexivity.
Qed.

Lemma withoutFirstLine_after (line rest : jsstring) :
  forallb (notChar 10%N) line = true ->
  withoutFirstLine (line ++ nl ++ rest) = rest.
Proof.
  intros H. unfold withoutFirstLine, nl.
  destruct (split_char_pass 10%N line ([10%N] ++ rest) H)
    as [h [r [E1 E2]]].
  rewrite E2. cbn [slice1 tl].
  change ([10%N] ++ rest) with (10%N :: rest) in E1.
  rewrite split_char_hit in E1.
  apply (f_equal (@tl jsstring)) in E1. cbn [tl] in E1. subst r.
  apply (replaceAll_same [10%N] rest). discriminate.
Qed.

(** X19. Taking off the first line: what follows the first line feed is
    returned as it is, and a message of one line gives the empty string. *)
Theorem withoutFirstLine_spec (line rest : jsstring) :
  forallb (fun c => negb (N.eqb c 10)) line = true ->
  join nl (slice1 (split nl (line ++ nl ++ rest))) = rest
  /\ join nl (slice1 (split nl line)) = [].
Proof.
  intros H. split.
  - exact (withoutFirstLine_after line rest H).
  - unfold nl. rewrite (split_char_none 10%N line H). reflexivity.
Qed.

Lemma withoutFirstLine_spec_witness :
  forallb (fun c => negb (N.eqb c 10)) (js "GPT summary of a - b:") = true
  /\ join nl (slice1 (split nl (js "GPT summary of a - b:" ++ nl
                                ++ js "* one" ++ nl ++ js "* two")))
     = js "* one" ++ nl ++ js "* two"
  /\ join nl (slice1 (split nl (js "GPT summary of a - b:"))) = [].
Proof.
  assert (H : forallb (fun c => negb (N.eqb c 10))
                (js "GPT summary of a - b:") = true) by reflexivity.
  split; [exact H|].
  exact (withoutFirstLine_spec (js "GPT summary of a - b:")
           (js "* one" ++ nl ++ js "* two") H).
Defined.

(** ** Titles *)

Lemma id_same_start (o o' x y : jsstring) :
  isShaOrNone o = true -> isShaOrNone o' = true ->
  o ++ js " - " ++ x = o' ++ js " - " ++ y -> o = o' /\ x = y.
Proof.
  intros Ho Ho' E.
  destruct (isShaOrNone_cases o Ho) as [[Hl Hx] | ->];
    destruct (isShaOrNone_cases o' Ho') as [[Hl' Hx'] | ->].
  - apply app_inj_length in E; [|congruence]. destruct E as [-> E].
    apply app_inv_head in E. split; [reflexivity | exact E].
  - exfalso. destruct o as [|c o]; [discriminate|].
    cbn [forallb] in Hx. apply andb_true_iff in Hx. destruct Hx as [Hc _].
    cbn in E. inversion E; subst c. discriminate.
  - exfalso. destruct o' as [|c o']; [discriminate|].
    cbn [forallb] in Hx'. apply andb_true_iff in Hx'. destruct Hx' as [Hc _].
    cbn in E. inversion E; subst c. discriminate.
  - apply app_inv_head in E. apply app_inv_head in E.
    split; [reflexivity | exact E].
Qed.

(** X20. The title determines the identity pair: two files whose
    identifiers are 40 hexadecimal digits or ["None"] have the same title
    only if they have the same [originSha] and the same [sha]. *)
Theorem title_determines_pair (f g : ModifiedFile) :
  isShaOrNone (originSha f) = true -> isShaOrNone (originSha g) = true ->
  isShaOrNone (sha f) = true -> isShaOrNone (sha g) = true ->
  getTitle f = getTitle g ->
  originSha f = originSha g /\ sha f = sha g.
Proof.
  intros Hof Hog Hsf Hsg E. unfold getTitle in E.
  apply app_inv_head in E.
  destruct (id_same_start _ _ _ _ Hof Hog E) as [Ho E'].
  split; [exact Ho|].
  destruct (isShaOrNone_cases _ Hsf) as [[Hl Hx] | Es];
    destruct (isShaOrNone_cases _ Hsg) as [[Hl' Hx'] | Es'].
  - apply app_inj_length in E'; [tauto | congruence].
  - exfalso. rewrite Es' in E'. destruct (sha f) as [|c s]; [discriminate|].
    cbn [forallb] in Hx. apply andb_true_iff in Hx. destruct Hx as [Hc _].
    cbn in E'. inversion E'; subst c. discriminate.
  - exfalso. rewrite Es in E'. destruct (sha g) as [|c s]; [discriminate|].
    cbn [forallb] in Hx'. apply andb_true_iff in Hx'. destruct Hx' as [Hc _].
    cbn in E'. inversion E'; subst c. discriminate.
  - congruence.
Qed.

Lemma title_determines_pair_witness :
  (isShaOrNone (originSha aModified) = true
   /\ isShaOrNone (sha aModified) = true
   /\ getTitle aModified = getTitle oddModified)
  /\ originSha aModified = originSha oddModified
  /\ sha aModified = sha oddModified.
Proof.
  assert (H1 : isShaOrNone (originSha aModified) = true)
    by (vm_compute; reflexivity).
  assert (H2 : isShaOrNone (originSha oddModified) = true)
    by (vm_compute; reflexivity).
  assert (H3 : isShaOrNone (sha aModified) = true)
    by (vm_compute; reflexivity).
  assert (H4 : isShaOrNone (sha oddModified) = true)
    by (vm_compute; reflexivity).
  assert (H5 : getTitle aModified = getTitle oddModified) by reflexivity.
  split; [repeat split; assumption|].
  exact (title_determines_pair aModified oddModified H1 H2 H3 H4 H5).
Defined.

(** ** The comments of the generation pass in later runs *)

(** X21. Whatever the file, the comment that the generation pass writes
    keeps its marker under normalization: a later run takes it for a bot
    comment. *)
Theorem created_comment_is_bot_comment (W : World)
  (repository : PayloadRepository) (modifiedFile : jsstring)
  (f : ModifiedFile) (summary : jsstring) :
  startsWith
    (preprocessCommitMessage
       (commentBody W repository modifiedFile f summary))
    (js "GPT summary of") = true.
Proof.
  rewrite commentBody_titled. unfold titled.
  rewrite (preprocess_prefix (js "GPT summary of ") _ eq_refl).
  reflexivity.
Qed.

(** ** Writing a comment and reading it back *)

Lemma replaceAll_nil (m r : jsstring) : m <> [] -> replaceAll m r [] = [].
Proof.
  intros H. unfold replaceAll, split. destruct m; [congruence | reflexivity].
Qed.

Lemma replaceAll_no_bracket (m mt r text : jsstring) :
  m = ch "[" :: mt ->
  forallb (notChar (ch "[")) text = true ->
  replaceAll m r text = text.
Proof.
  intros Hm Ht.
  pose proof (replaceAll_pass_bracket m mt r text [] Hm Ht) as E.
  rewrite app_nil_r in E. rewrite E, replaceAll_nil, app_nil_r;
    [reflexivity | rewrite Hm; discriminate].
Qed.

Section ReadBack.

Variables own rep base head file o s_ text : jsstring.

Hypothesis Hown : plainName own = true.
Hypothesis Hrep : plainName rep = true.
Hypothesis Hbase : isSha base = true.
Hypothesis Hhead : isSha head = true.
Hypothesis Hfile : plainFile file = true.
Hypothesis Ho : isShaOrNone o = true.
Hypothesis Hs : isShaOrNone s_ = true.
Hypothesis Htext : forallb (notChar (ch "[")) text = true.

Local Notation "'K1'" := (link (slice0 6 o) (blobPath own rep base file) o).
Local Notation "'K2'" := (link (slice0 6 s_) (blobPath own rep head file) s_).

(** On a comment whose text has no [[], a turn of the loop works on the
    title line alone. *)
Lemma step_keeps_text (a b : jsstring) :
  a = K1 \/ a = o ->
  b = K2 \/ b = s_ ->
  match preprocess_step (titled a b text) with
  | None => a = o /\ b = s_
  | Some s' =>
      exists a' b',
        s' = titled a' b' text /\ (a' = K1 \/ a' = o) /\ (b' = K2 \/ b' = s_)
  end.
Proof.
  intros Ha Hb. rewrite preprocess_step_unfold. destruct Ha as [-> | ->].
  - unfold titled.
    rewrite (regex_match_generated own rep file Hown Hrep Hfile
               (js "GPT summary of ") base o _ eq_refl Hbase Ho).
    cbn [join_arg].
    pose proof (link_cons (slice0 6 o) (blobPath own rep base file) o) as Hc.
    assert (Hne : K1 <> []) by (rewrite Hc; discriminate).
    rewrite (replaceAll_pass_bracket _ _ o (js "GPT summary of ") _ Hc
               eq_refl).
    rewrite (replaceAll_hit K1 o _ Hne).
    destruct (replace_first_link own rep base head file o s_ Hown Hrep Hbase
                Hhead Hfile Ho Hs b text Hb) as [b' [Hb' E]].
    rewrite E, (replaceAll_no_bracket _ _ o text Hc Htext).
    exists o, b'. split; [reflexivity|].
    split; [right; reflexivity | exact Hb'].
  - destruct Hb as [-> | ->].
    + unfold titled.
      replace (js "GPT summary of " ++ o ++ js " - " ++ K2 ++ js ":" ++ nl
               ++ text)
        with ((js "GPT summary of " ++ o ++ js " - ") ++ K2
              ++ js ":" ++ nl ++ text)
        by (rewrite <- !app_assoc; reflexivity).
      assert (Hpre : forallb (notChar (ch "["))
                       (js "GPT summary of " ++ o ++ js " - ") = true).
      { rewrite !forallb_app, (id_not_bracket o Ho). reflexivity. }
      rewrite (regex_match_generated own rep file Hown Hrep Hfile
                 _ head s_ _ Hpre Hhead Hs).
      cbn [join_arg].
      pose proof (link_cons (slice0 6 s_) (blobPath own rep head file) s_)
        as Hc.
      assert (Hne : K2 <> []) by (rewrite Hc; discriminate).
      rewrite (replaceAll_pass_bracket _ _ s_ _ _ Hc Hpre).
      rewrite (replaceAll_hit K2 s_ _ Hne).
      change (js ":" ++ nl ++ text) with ((js ":" ++ nl) ++ text).
      rewrite (replaceAll_pass_bracket _ _ s_ (js ":" ++ nl) _ Hc eq_refl).
      rewrite (replaceAll_no_bracket _ _ s_ text Hc Htext).
      exists o, s_. split; [|split; right; reflexivity].
      unfold titled. rewrite <- !app_assoc. reflexivity.
    + assert (Hall : forallb (notChar (ch "[")) (titled o s_ text) = true).
      { unfold titled. rewrite !forallb_app.
        rewrite (id_not_bracket o Ho), (id_not_bracket s_ Hs), Htext.
        reflexivity. }
      pose proof (regex_match_skip (titled o s_ text) [] Hall) as E.
      rewrite app_nil_r in E. rewrite E. split; reflexivity.
Qed.

Lemma loop_keeps_text (fuel : nat) :
  forall a b r,
    a = K1 \/ a = o ->
    b = K2 \/ b = s_ ->
    preprocess_loop fuel (titled a b text) = Some r ->
    r = titled o s_ text.
Proof.
  induction fuel as [|fuel IH]; intros a b r Ha Hb H; [discriminate|].
  cbn [preprocess_loop] in H.
  pose proof (step_keeps_text a b Ha Hb) as Hstep.
  destruct (preprocess_step (titled a b text)) as [s'|].
  - destruct Hstep as [a' [b' [-> [Ha' Hb']]]].
    apply (IH a' b' r Ha' Hb' H).
  - destruct Hstep as [-> ->]. inversion H; subst. reflexivity.
Qed.

Lemma normalized_exactly :
  preprocessCommitMessage (titled K1 K2 text) = titled o s_ text.
Proof.
  destruct (preprocess_normal (titled K1 K2 text)) as [E _].
  exact (loop_keeps_text _ K1 K2 _ (or_introl eq_refl) (or_introl eq_refl) E).
Qed.

End ReadBack.

(** X22. Writing a comment and reading it back.  Under the conditions on
    the identifiers and names of the normalization theorem, and for a
    summary without [[], the normal form of the comment that the generation
    pass writes is the raw title line followed by the summary, and the
    summary is what a later run reads from it for its mapping. *)
Theorem comment_read_back (W : World) (repository : PayloadRepository)
  (modifiedFile : jsstring) (f : ModifiedFile) (summary : jsstring) :
  plainName (owner_login repository) = true ->
  plainName (name repository) = true ->
  isSha (baseCommitSha W) = true ->
  isSha (headCommitSha W) = true ->
  plainFile modifiedFile = true ->
  isShaOrNone (originSha f) = true ->
  isShaOrNone (sha f) = true ->
  forallb (fun c => negb (N.eqb c (ch "["))) summary = true ->
  preprocessCommitMessage (commentBody W repository modifiedFile f summary)
  = getTitle f ++ nl ++ summary
  /\ join nl
       (slice1
          (split nl
             (preprocessCommitMessage
                (commentBody W repository modifiedFile f summary))))
     = summary.
Proof.
  intros Hown Hrep Hbase Hhead Hfile Ho Hs Htext.
  assert (E : preprocessCommitMessage
                (commentBody W repository modifiedFile f summary)
              = getTitle f ++ nl ++ summary).
  { rewrite commentBody_titled.
    rewrite (normalized_exactly _ _ _ _ _ _ _ summary Hown Hrep Hbase Hhead
               Hfile Ho Hs Htext).
    apply titled_title. }
  split; [exact E|]. rewrite E.
  apply (withoutFirstLine_after (getTitle f) summary).
  unfold getTitle. rewrite !forallb_app.
  assert (Hnl : forall z, isShaOrNone z = true ->
                          forallb (notChar 10%N) z = true).
  { intros z Hz. apply (forallb_impl _ plainChar _ z); [|apply isShaOrNone_plain; exact Hz].
    intros c Hc. apply plainChar_dot in Hc. unfold dot, lineTerminator in Hc.
    unfold notChar. apply negb_true_iff in Hc. apply negb_true_iff.
    apply orb_false_iff in Hc. destruct Hc as [Hc _].
    apply orb_false_iff in Hc. destruct Hc as [Hc _].
    apply orb_false_iff in Hc. destruct Hc as [Hc _]. exact Hc. }
  rewrite (Hnl _ Ho), (Hnl _ Hs). reflexivity.
Qed.

Lemma comment_read_back_witness :
  (plainFile (js "a.ts") = true
   /\ isShaOrNone (sha aModified) = true
   /\ forallb (fun c => negb (N.eqb c (ch "["))) (js "* a change") = true)
  /\ preprocessCommitMessage
       (commentBody twoFilesWorld exampleRepository (js "a.ts") aModified
          (js "* a change"))
     = getTitle aModified ++ nl ++ js "* a change"
  /\ join nl
       (slice1
          (split nl
             (preprocessCommitMessage
                (commentBody twoFilesWorld exampleRepository (js "a.ts")
                   aModified (js "* a change")))))
     = js "* a change".
Proof.
  assert (H1 : plainName (owner_login exampleRepository) = true)
    by (vm_compute; reflexivity).
  assert (H2 : plainName (name exampleRepository) = true)
    by (vm_compute; reflexivity).
  assert (H3 : isSha (baseCommitSha twoFilesWorld) = true)
    by (vm_compute; reflexivity).
  assert (H4 : isSha (headCommitSha twoFilesWorld) = true)
    by (vm_compute; reflexivity).
  assert (H5 : plainFile (js "a.ts") = true) by (vm_compute; reflexivity).
  assert (H6 : isShaOrNone (originSha aModified) = true)
    by (vm_compute; reflexivity).
  assert (H7 : isShaOrNone (sha aModified) = true)
    by (vm_compute; reflexivity).
  assert (H8 : forallb (fun c => negb (N.eqb c (ch "["))) (js "* a change")
               = true) by (vm_compute; reflexivity).
  split; [repeat split; assumption|].
  exact (comment_read_back twoFilesWorld exampleRepository (js "a.ts")
           aModified (js "* a change") H1 H2 H3 H4 H5 H6 H7 H8).
Defined.

(** ** The entry point *)

(** X23. Without a pull request or without a repository in the payload,
    the process exits with code 1 and has made no remote call. *)
Theorem incomplete_payload_exits_1 (I : Imports) (W : World)
  (summarizeCommits : Z -> PayloadRepository -> obj jsstring -> M unit)
  (payload : Payload) :
  payload_pull_request payload = None
  \/ payload_repository payload = None ->
  Main.exitCode I W summarizeCommits payload = (1%Z, []).
Proof.
  intros H. unfold Main.exitCode, Main.run.
  destruct (payload_pull_request payload) as [pn|]; [|reflexivity].
  destruct H as [H|H]; [discriminate|]. rewrite H. reflexivity.
Qed.

Lemma incomplete_payload_exits_1_witness :
  (payload_pull_request
     {| payload_repository := Some exampleRepository;
        payload_pull_request := None |} = None
   \/ payload_repository
        {| payload_repository := Some exampleRepository;
           payload_pull_request := None |} = None)
  /\ Main.exitCode exampleImports twoFilesBoundWorld (fun _ _ _ => ret tt)
       {| payload_repository := Some exampleRepository;
          payload_pull_request := None |}
     = (1%Z, []).
Proof.
  assert (H : payload_pull_request
                {| payload_repository := Some exampleRepository;
                   payload_pull_request := None |} = None
              \/ payload_repository
                   {| payload_repository := Some exampleRepository;
                      payload_pull_request := None |} = None)
    by (left; reflexivity).
  split; [exact H|].
  exact (incomplete_payload_exits_1 exampleImports twoFilesBoundWorld
           (fun _ _ _ => ret tt) _ H).
Defined.


(** ** No file is handled twice *)

Lemma filter_length_le (A : Type) (p q : A -> bool) (l : list A) :
  (forall a, p a = true -> q a = true) ->
  length (filter p l) <= length (filter q l).
Proof.
  intros H. induction l as [|a l IH]; simpl; [lia|].
  destruct (p a) eqn:Ep.
  - rewrite (H a Ep). simpl. lia.
  - destruct (q a); simpl; lia.
Qed.

Lemma generated_not_for (I : Imports) (W : World)
  (repository : PayloadRepository) (keys : list jsstring) (k : jsstring)
  (evs : list Event) :
  Forall (generated I W repository keys) evs ->
  ~ In k keys ->
  filter (chatFor k) evs = [] /\ filter (createFor k) evs = [].
Proof.
  intros Hg Hk. induction Hg as [|e evs He _ [IH1 IH2]]; [split; reflexivity|].
  apply generated_key in He.
  destruct e as [o r i|k' request|params]; simpl.
  - split; assumption.
  - destruct (str_eqb k' k) eqn:E.
    + apply str_eqb_eq in E. subst k'. contradiction.
    + split; assumption.
  - destruct (str_eqb (path params) k) eqn:E.
    + apply str_eqb_eq in E. rewrite E in He. contradiction.
    + split; assumption.
Qed.

Lemma turns_once (I : Imports) (W : World) (repository : PayloadRepository)
  (keys : list jsstring) :
  NoDup keys ->
  forall (result : obj jsstring) (n : nat) (tr : list Event),
  exists evs out,
    turns I W repository keys result n tr = (out, tr ++ evs)
    /\ forall k,
         length (filter (chatFor k) evs) <= 1
         /\ length (filter (createFor k) evs) <= 1.
Proof.
  induction keys as [|k0 rest IH]; intros Hnd result n tr.
  - exists [], (Returned (Next result n)). rewrite app_nil_r.
    split; [reflexivity|]. intros k. simpl. lia.
  - inversion Hnd as [|? ? Hk0 Hnd']; subst.
    rewrite turns_cons.
    destruct (iteration_counts I W repository k0 result n tr)
      as [evs1 [out1 [E1 [Hc1 [Hc2 _]]]]].
    destruct (iteration_spec I W repository k0 result n tr)
      as [evs1' [out1' [E1' [Hg1 _]]]].
    rewrite E1 in E1'. inversion E1' as [[Ho Ht]].
    apply app_inv_head in Ht. subst evs1' out1'. clear E1'.
    rewrite E1.
    assert (Hone : forall k,
               length (filter (chatFor k) evs1) <= 1
               /\ length (filter (createFor k) evs1) <= 1).
    { intros k. split.
      - apply (Nat.le_trans _ (length (filter isChat evs1))).
        + apply filter_length_le. intros [| |] H; try discriminate.
          reflexivity.
        + destruct (toSummarize W k0); lia.
      - apply (Nat.le_trans _ (length (filter isCreate evs1))).
        + apply filter_length_le. intros [| |] H; try discriminate.
          reflexivity.
        + destruct (toSummarize W k0); lia. }
    destruct out1 as [[r n'|r]|e];
      [|exists evs1, (Returned (Break r)); split; [reflexivity | exact Hone]
       |exists evs1, (Thrown e); split; [reflexivity | exact Hone]].
    destruct (IH Hnd' r n' (tr ++ evs1)) as [evs2 [out2 [E2 Hc]]].
    destruct (turns_spec I W repository rest r n' (tr ++ evs1))
      as [evs2' [out2' [E2' [Hg2 _]]]].
    rewrite E2 in E2'. inversion E2' as [[Ho Ht]].
    apply app_inv_head in Ht. subst evs2' out2'. clear E2'.
    exists (evs1 ++ evs2), out2. rewrite app_assoc.
    split; [exact E2|]. intros k. rewrite !filter_app, !length_app.
    destruct (list_eq_dec N.eq_dec k k0) as [->|Hne].
    + destruct (generated_not_for I W repository rest k0 evs2 Hg2 Hk0)
        as [Z1 Z2].
      rewrite Z1, Z2. destruct (Hone k0). simpl. lia.
    + destruct (generated_not_for I W repository [k0] k evs1 Hg1) as [Z1 Z2].
      { intros [H|[]]. congruence. }
      rewrite Z1, Z2. destruct (Hc k). simpl. lia.
Qed.

(** X25. In a run, a file gets at most one completion request and at
    most one new review comment. *)
Theorem one_call_per_file (I : Imports) (W : World)
  (repository : PayloadRepository) (pull_number : Z) (k : jsstring) :
  length (filter (chatFor k) (snd (run I W repository pull_number))) <= 1
  /\ length (filter (createFor k) (snd (run I W repository pull_number)))
     <= 1.
Proof.
  unfold run, getFileSummaries, bind.
  destruct (deletionPass_spec W repository []) as [out E]. rewrite E.
  cbn [app].
  assert (Hd : forall cs,
             filter (chatFor k) (deleteCalls W repository cs) = []
             /\ filter (createFor k) (deleteCalls W repository cs) = []).
  { induction cs as [|c cs [IH1 IH2]]; split; simpl; auto. }
  destruct (Hd (commentsToDelete W)) as [Hd1 Hd2].
  destruct out as [[]|e]; cbn [snd].
  - rewrite generationPass_turns.
    destruct (turns_once I W repository (Object_keys (modifiedFiles W))
                (modifiedFiles_NoDup W) [] 0
                (deleteCalls W repository (commentsToDelete W)))
      as [evs [out [E' Hc]]].
    rewrite E'.
    assert (Hs : snd (match out with
                      | Returned flow =>
                          (Returned (flow_result flow),
                           deleteCalls W repository (commentsToDelete W)
                           ++ evs)
                      | Thrown e =>
                          (Thrown e,
                           deleteCalls W repository (commentsToDelete W)
                           ++ evs)
                      end)
                 = deleteCalls W repository (commentsToDelete W) ++ evs)
      by (destruct out; reflexivity).
    rewrite Hs, !filter_app, !length_app, Hd1, Hd2.
    destruct (Hc k). simpl. lia.
  - rewrite Hd1, Hd2. simpl. lia.
Qed.
